(** * Kup: the bup KIO slave (kioslave/bupslave.cpp)

    A shallow embedding of [BupSlave], the worker that serves a bup backup
    archive as a read-only file system: repository discovery
    ([checkCorrectRepository]), the owner-name caches ([getUserName],
    [getGroupName]), the entry encoder ([createUDSEntry]) and the request
    handlers ([get], [listDir], [open], [read], [seek], [stat], [mimetype],
    [close]).

    The slave is single threaded: every handler is a function from the
    session state to the signals it emits and the next session state.  The
    archive decoder (bupvfs.h), the file system and the account database are
    not in bupslave.cpp; they appear as oracles in [Env] and [Archive], and
    the positioned-read contract of a [File] is written out from the
    specification. *)

From Stdlib Require Import ZArith NArith Lia List Ascii String.
From Stdlib.Strings Require Import Byte.
From stdpp Require Import base gmap strings list pretty.

Open Scope string_scope.
Open Scope list_scope.

(** ** QString operations used by the slave *)

Module QString.

Definition isEmpty (s : string) : bool :=
  match s with EmptyString => true | String _ _ => false end.

(** [s.startsWith(p)] *)
Definition startsWith (s p : string) : bool := String.prefix p s.

(** [s.remove(0, n)]: the string without its first [n] characters. *)
Fixpoint remove0 (n : nat) (s : string) : string :=
  match n, s with
  | O, _ => s
  | S _, EmptyString => EmptyString
  | S k, String _ rest => remove0 k rest
  end.

Definition is_slash (c : ascii) : bool := Ascii.eqb c "/"%char.

(** [s.split('/', QString::SkipEmptyParts)]; [cur] is the segment being
    read. *)
Fixpoint split_from (cur : string) (s : string) : list string :=
  match s with
  | EmptyString => if isEmpty cur then [] else [cur]
  | String c rest =>
      if is_slash c
      then (if isEmpty cur then split_from EmptyString rest
            else cur :: split_from EmptyString rest)
      else split_from (cur +:+ String c EmptyString) rest
  end.

Definition split (s : string) : list string := split_from EmptyString s.

(** [l.join("/")] *)
Fixpoint join (l : list string) : string :=
  match l with
  | [] => EmptyString
  | [x] => x
  | x :: rest => x +:+ "/" +:+ join rest
  end.

(** [s.endsWith('/')] *)
Fixpoint endsWith_slash (s : string) : bool :=
  match s with
  | EmptyString => false
  | String c EmptyString => is_slash c
  | String _ rest => endsWith_slash rest
  end.

(** [QString::number(n)] for an unsigned id. *)
Definition number (n : N) : string := pretty n.

End QString.

(** ** Integer conversions of the C++ source *)

Definition two64 : N := 2 ^ 64.

(** [quint64] addition and subtraction wrap around. *)
Definition add64 (a b : N) : N := ((a + b) mod two64)%N.
Definition sub64 (a b : N) : N := ((a + (two64 - b mod two64)) mod two64)%N.

(** [static_cast<int>(n)] of a [quint64]: the low 32 bits, read as signed. *)
Definition to_int (n : N) : Z :=
  let low := (Z.of_N n mod 2 ^ 32)%Z in
  if (low <? 2 ^ 31)%Z then low else (low - 2 ^ 32)%Z.

(** [static_cast<qint64>(n)] of a [quint64]. *)
Definition to_qint64 (n : N) : Z :=
  let low := (Z.of_N n mod 2 ^ 64)%Z in
  if (low <? 2 ^ 63)%Z then low else (low - 2 ^ 64)%Z.

(** [static_cast<uint>(z)] of a signed id. *)
Definition to_uint (z : Z) : N := Z.to_N (z mod 2 ^ 32).

(** ** KIO result codes

    A handler of the store returns an [int]: [0] on success, otherwise one of
    KIO's error codes (all of them non-zero): one the slave names, or
    another of them, given by its number. *)

Inductive KioError : Type :=
  | ERR_SLAVE_DEFINED
  | ERR_DOES_NOT_EXIST
  | ERR_IS_DIRECTORY
  | ERR_IS_FILE
  | ERR_CANNOT_OPEN_FOR_WRITING
  | ERR_CANNOT_OPEN_FOR_READING
  | ERR_COULD_NOT_READ
  | ERR_COULD_NOT_SEEK
  | ERR_NO_CONTENT
  | ERR_OTHER (code : Z).

Inductive RetVal : Type :=
  | Ok0                      (* the int 0 *)
  | Err (e : KioError).

Definition is_ok (r : RetVal) : bool :=
  match r with Ok0 => true | Err _ => false end.

(** Calls the slave makes on the store that can change what the store
    holds, in the order made: [File::seek], [File::read] and
    [Directory::reload]. *)
Inductive StoreCall : Type :=
  | CallSeek (pOffset : N)
  | CallRead (pReadSize : option Z)
  | CallReload (lDir : N).

(** ** The File capability of the store *)

Module File.

(** Modelled from the spec: [File] of bupvfs.h, which bupslave.cpp only
    uses.  Its contract (sections 4.3 and 6): [size()] is the total
    byte length; [seek(offset)] returns 0 for an offset in [0, size] the
    store can position at and an error code otherwise; [read(maxBytes)]
    returns EndOfData once the position has reached the total length, an
    error code when the store fails, and otherwise a chunk of at most
    [maxBytes] bytes (no bound when none is given, or the one given is not
    positive; subject to the store's own piece size) and advances the
    position by the chunk's length.  The contract does not say where a call
    that fails leaves the position, nor which code it fails with.  [piece],
    [seek_fault] and [read_fault] are the store's layout and damage, offset
    by offset; [read_fault] gives the code of the failure; [seek_lands]
    (from the position held and the offset asked for) and [read_lands]
    (from the position held) give the position a failed call leaves. *)
Record t : Type := mk {
  completePath : string;
  bytes : list byte;
  mOffset : N;
  piece : N -> positive;
  seek_fault : N -> bool;
  read_fault : N -> option KioError;
  seek_lands : N -> N -> N;
  read_lands : N -> N
}.

Definition size (f : t) : N := N.of_nat (length (bytes f)).

Definition at_offset (f : t) (o : N) : t :=
  mk (completePath f) (bytes f) o (piece f) (seek_fault f) (read_fault f)
     (seek_lands f) (read_lands f).

(** Modelled from the spec: [File::seek].  The slave only tests the result
    against 0. *)
Definition seek (f : t) (pOffset : N) : RetVal * t :=
  if (size f <? pOffset)%N || seek_fault f pOffset
  then (Err ERR_COULD_NOT_SEEK, at_offset f (seek_lands f (mOffset f) pOffset))
  else (Ok0, at_offset f pOffset).

(** Modelled from the spec: the contract keeps the end-of-data code apart
    from the error codes, so a failure of the store never carries it. *)
Definition error_code (e : KioError) : KioError :=
  match e with ERR_NO_CONTENT => ERR_COULD_NOT_READ | _ => e end.

(** Length of the chunk a read at the current position hands out. *)
Definition chunk_len (f : t) (pReadSize : option Z) : N :=
  let n := N.min (size f - mOffset f) (Npos (piece f (mOffset f))) in
  match pReadSize with
  | Some bound => if (0 <? bound)%Z then N.min n (Z.to_N bound) else n
  | None => n
  end.

(** Modelled from the spec: [File::read]; the result is the return code,
    the chunk and the file afterwards. *)
Definition read (f : t) (pReadSize : option Z) : RetVal * list byte * t :=
  if (size f <=? mOffset f)%N then (Err ERR_NO_CONTENT, [], f)
  else
    match read_fault f (mOffset f) with
    | Some e =>
        (Err (error_code e), [], at_offset f (read_lands f (mOffset f)))
    | None =>
        let n := chunk_len f pReadSize in
        (Ok0,
         take (N.to_nat n) (drop (N.to_nat (mOffset f)) (bytes f)),
         at_offset f (mOffset f + n)%N)
    end.

End File.


(** ** Nodes of the archive tree *)

(** Modelled from the spec: the node classes of bupvfs.h, which
    bupslave.cpp only casts to; section 3 gives a node one of three kinds. *)
Inductive NodeKind : Type := KDirectory | KFile | KSymlink.

Module Node.

(** The attributes the slave reads from a [Node]. *)
Record t : Type := mk {
  objectName : string;
  kind : NodeKind;
  mMode : Z;
  mMimeType : string;
  mUid : Z;
  mGid : Z;
  mAtime : Z;
  mMtime : Z;
  mSymlinkTarget : string
}.

(** [qobject_cast<File *>(node) != nullptr] *)
Definition is_File (n : t) : bool :=
  match kind n with KFile => true | _ => false end.

(** [qobject_cast<Directory *>(node) != nullptr] *)
Definition is_Directory (n : t) : bool :=
  match kind n with KDirectory => true | _ => false end.

(** The test [createUDSEntry] makes for a symlink: a link target is set. *)
Definition is_symlink (n : t) : bool :=
  negb (QString.isEmpty (mSymlinkTarget n)).

End Node.

(** A [Node *] into the tree of one repository. *)
Abbreviation NodePtr := N.

(** The node tree the archive decoder exposes.  Path resolution, the
    children of a directory and the content of a file are the decoder's
    business (bupvfs.h), so they are taken as given. *)
Record Tree : Type := mkTree {
  (* Repository::resolve(components, followSymlink) *)
  resolve_path : list string -> bool -> option NodePtr;
  node_at : NodePtr -> Node.t;
  (* qobject_cast<Node *>(node->parent())->resolve(target, true) *)
  resolve_from_parent : NodePtr -> string -> option NodePtr;
  (* Directory::subNodes(), in iteration order *)
  subNodes : NodePtr -> list NodePtr;
  (* the File behind a node that is one, as first loaded *)
  file_at : NodePtr -> File.t
}.

(** What the archive decoder finds at a root directory: whether the archive
    opens, and its node tree.  [Directory::reload()] synchronizes a
    directory with the backing store, which may have grown, so the tree is
    given for every sequence of directories reloaded so far (the latest
    first). *)
Record Archive : Type := mkArchive {
  opens : bool;
  tree_after : list NodePtr -> Tree
}.

Module Repository.

(** A live [Repository] object.  [id] tells apart the objects allocated
    during a session; [reloaded] lists the directories the slave has
    reloaded, the latest first; [files] holds the File nodes the slave has
    called [seek] or [read] on. *)
Record t : Type := mk {
  id : nat;
  objectName : string;
  archive : Archive;
  reloaded : list NodePtr;
  files : gmap N File.t
}.

(** Modelled from the spec: the constructor [Repository(nullptr, path)] of
    bupvfs keeps [path] as its root path string and tries to open the
    archive there. *)
Definition new (id : nat) (pRepositoryPath : string) (a : Archive) : t :=
  mk id pRepositoryPath a [] ∅.

(** The node tree as it stands. *)
Definition tree (r : t) : Tree := tree_after (archive r) (reloaded r).

(** [isValid()]: did the archive open? *)
Definition isValid (r : t) : bool := opens (archive r).

Definition resolve (r : t) (pPath : list string) (pFollowLinks : bool)
  : option NodePtr :=
  resolve_path (tree r) pPath pFollowLinks.

Definition node (r : t) (p : NodePtr) : Node.t := node_at (tree r) p.

(** The File object behind node [p], with its current position. *)
Definition file (r : t) (p : NodePtr) : File.t :=
  default (file_at (tree r) p) (files r !! p).

Definition set_file (r : t) (p : NodePtr) (f : File.t) : t :=
  mk (id r) (objectName r) (archive r) (reloaded r) (<[p := f]> (files r)).

(** [lDir->reload()] on the directory node [p]. *)
Definition reload (r : t) (p : NodePtr) : t :=
  mk (id r) (objectName r) (archive r) (p :: reloaded r) (files r).

End Repository.

(** ** The world outside the slave *)

Record Env : Type := mkEnv {
  QFile_exists : string -> bool;
  getpwuid : N -> option string;
  getgrgid : N -> option string;
  (* what [new Repository(nullptr, path)] finds at [path] *)
  archive_at : string -> Archive;
  (* QString::toULongLong(&ok): [None] when [ok] is false *)
  toULongLong : string -> option N;
  (* QString::toInt() *)
  toInt : string -> Z
}.

(** The parts of a [QUrl] the slave looks at. *)
Record QUrl : Type := mkUrl {
  host : string;
  (* pUrl.adjusted(QUrl::StripTrailingSlash).path() *)
  adjusted_path : string;
  toDisplayString : string
}.

(** ** Session state *)

(** The [File *] kept in [mOpenFile]: a node of the repository object that
    was live when the file was opened. *)
Record FilePtr : Type := mkFilePtr {
  owner : nat;
  target : NodePtr
}.

Record BupSlave : Type := mkSlave {
  mUsercache : gmap N string;
  mGroupcache : gmap N string;
  mRepository : option Repository.t;
  mOpenFile : option FilePtr;
  (* number of Repository objects allocated so far *)
  allocated : nat
}.

(** The state the constructor leaves. *)
Definition initial : BupSlave := mkSlave ∅ ∅ None None 0.

Definition set_mRepository (s : BupSlave) (r : option Repository.t) : BupSlave :=
  mkSlave (mUsercache s) (mGroupcache s) r (mOpenFile s) (allocated s).

Definition set_mOpenFile (s : BupSlave) (h : option FilePtr) : BupSlave :=
  mkSlave (mUsercache s) (mGroupcache s) (mRepository s) h (allocated s).

Definition set_mUsercache (s : BupSlave) (c : gmap N string) : BupSlave :=
  mkSlave c (mGroupcache s) (mRepository s) (mOpenFile s) (allocated s).

Definition set_mGroupcache (s : BupSlave) (c : gmap N string) : BupSlave :=
  mkSlave (mUsercache s) c (mRepository s) (mOpenFile s) (allocated s).

(** ** Entries and signals *)

Inductive UDSField : Type :=
  | UDS_NAME | UDS_LINK_DEST | UDS_FILE_TYPE | UDS_ACCESS
  | UDS_SIZE | UDS_MIME_TYPE | UDS_ACCESS_TIME | UDS_MODIFICATION_TIME
  | UDS_USER | UDS_GROUP.

Inductive UDSValue : Type :=
  | UStr (s : string)
  | UNum (z : Z).

(** A [KIO::UDSEntry]: the fields in the order inserted. *)
Definition UDSEntry : Type := list (UDSField * UDSValue).

Definition UDSField_eqb (a b : UDSField) : bool :=
  match a, b with
  | UDS_NAME, UDS_NAME | UDS_LINK_DEST, UDS_LINK_DEST
  | UDS_FILE_TYPE, UDS_FILE_TYPE | UDS_ACCESS, UDS_ACCESS
  | UDS_SIZE, UDS_SIZE | UDS_MIME_TYPE, UDS_MIME_TYPE
  | UDS_ACCESS_TIME, UDS_ACCESS_TIME
  | UDS_MODIFICATION_TIME, UDS_MODIFICATION_TIME
  | UDS_USER, UDS_USER | UDS_GROUP, UDS_GROUP => true
  | _, _ => false
  end.

(** [entry.insert(field, value)] *)
Definition uds_insert (f : UDSField) (v : UDSValue) (e : UDSEntry) : UDSEntry :=
  e ++ [(f, v)].

(** [entry.contains(field)] *)
Definition uds_contains (e : UDSEntry) (f : UDSField) : bool :=
  existsb (fun fv => UDSField_eqb (fst fv) f) e.

(** The value stored under [field], if any. *)
Definition uds_value (e : UDSEntry) (f : UDSField) : option UDSValue :=
  snd <$> List.find (fun fv => UDSField_eqb (fst fv) f) e.

(** The signals a handler emits to the KIO framework. *)
Inductive Signal : Type :=
  | Finished
  | Error (code : KioError) (text : string)
  | MimeType (type : string)
  | TotalSize (bytes : N)
  | CanResume
  | Data (chunk : list byte)
  | ProcessedSize (bytes : N)
  | ListEntry (entry : UDSEntry)
  | StatEntry (entry : UDSEntry)
  | Position (offset : N)
  | Opened.

(** How a handler can go wrong instead of replying. *)
Inductive FaultKind : Type :=
  (* [mRepository->...] with [mRepository] null *)
  | NullRepository
  (* [mOpenFile->...] where the node belongs to a Repository object that is
     no longer [mRepository]: that object was deleted, and its nodes with it *)
  | StaleFile (owner : nat)
  (* a loop did not finish within its bound *)
  | OutOfFuel.

Record Reply : Type := mkReply {
  emitted : list Signal;
  calls : list StoreCall;
  after : BupSlave
}.

Inductive Outcome : Type :=
  | Replied (r : Reply)
  | Fault (k : FaultKind).

(** ** The owner-name caches *)

(** [cache.value(key)]: the stored name, or the empty string. *)
Definition QHash_value (cache : gmap N string) (key : N) : string :=
  default EmptyString (cache !! key).

Definition QHash_contains (cache : gmap N string) (key : N) : bool :=
  match cache !! key with Some _ => true | None => false end.

(** The body shared by [getUserName] and [getGroupName], over the cache and
    the account query of each.  The third component lists the ids the
    platform was asked about. *)
Definition lookupName (query : N -> option string) (cache : gmap N string)
    (pId : N) : string * gmap N string * list N :=
  if negb (QHash_contains cache pId) then
    match query pId with
    | Some name =>
        let cache' := <[pId := name]> cache in
        (QHash_value cache' pId, cache', [pId])
    | None => (QString.number pId, cache, [pId])
    end
  else (QHash_value cache pId, cache, []).

(** ** Constants of the platform headers *)

Definition S_IFMT : Z := 0xF000.            (* 0170000 *)
Definition PERMISSION_BITS : Z := 0xFFF.     (* 07777 *)
Definition QIODevice_WriteOnly : Z := 2.

Definition newline : string := String (ascii_of_nat 10) EmptyString.

(** [i18n("No bup repository found.\n%1", display)], untranslated. *)
Definition no_repository_text (display : string) : string :=
  "No bup repository found." +:+ newline +:+ display.

Definition reply (sigs : list Signal) (cs : list StoreCall) (s : BupSlave)
  : Outcome :=
  Replied (mkReply sigs cs s).

(** ** The slave *)

Section Slave.

Variable E : Env.

Definition getUserName (s : BupSlave) (pUid : N) : string * BupSlave * list N :=
  let '(name, cache, asked) := lookupName (getpwuid E) (mUsercache s) pUid in
  (name, set_mUsercache s cache, asked).

Definition getGroupName (s : BupSlave) (pGid : N) : string * BupSlave * list N :=
  let '(name, cache, asked) := lookupName (getgrgid E) (mGroupcache s) pGid in
  (name, set_mGroupcache s cache, asked).

(** *** checkCorrectRepository *)

(** The path the slave works with: [/host/path/] or [/path/]. *)
Definition normalizedPath (pUrl : QUrl) : string :=
  if negb (QString.isEmpty (host pUrl))
  then "/" +:+ host pUrl +:+ adjusted_path pUrl +:+ "/"
  else
    let lPath := adjusted_path pUrl +:+ "/" in
    if QString.startsWith lPath "/" then lPath else "/" +:+ lPath.

(** The marker test on a candidate directory. *)
Definition has_markers (lRepoPath : string) : bool :=
  (QFile_exists E (lRepoPath +:+ "objects")
   && QFile_exists E (lRepoPath +:+ "refs"))
  || (QFile_exists E (lRepoPath +:+ ".git/objects")
      && QFile_exists E (lRepoPath +:+ ".git/refs")).

(** The discovery loop: take components off the front until the directory
    reached carries the markers.  The result is the repository path and the
    components left. *)
Fixpoint discover (lRepoPath : string) (pPathInRepository : list string)
  : option (string * list string) :=
  match pPathInRepository with
  | [] => None
  | first :: rest =>
      let lRepoPath' := lRepoPath +:+ first +:+ "/" in
      if has_markers lRepoPath' then Some (lRepoPath', rest)
      else discover lRepoPath' rest
  end.

(** The part of [checkCorrectRepository] after the fast path. *)
Definition openRepository (s : BupSlave) (lPath : string)
  : bool * list string * BupSlave :=
  match discover "/" (QString.split lPath) with
  | Some (lRepoPath, rest) =>
      let r := Repository.new (allocated s) lRepoPath (archive_at E lRepoPath) in
      (Repository.isValid r, rest,
       mkSlave (mUsercache s) (mGroupcache s) (Some r) (mOpenFile s)
               (S (allocated s)))
  | None => (false, [], s)
  end.

(** Does the request stay within the repository that is open? *)
Definition fast_path (s : BupSlave) (lPath : string) : bool :=
  match mRepository s with
  | Some r =>
      Repository.isValid r
      && QString.startsWith lPath (Repository.objectName r)
  | None => false
  end.

Definition checkCorrectRepository (s : BupSlave) (pUrl : QUrl)
  : bool * list string * BupSlave :=
  let lPath := normalizedPath pUrl in
  match mRepository s with
  | Some r =>
      if Repository.isValid r then
        if QString.startsWith lPath (Repository.objectName r) then
          (true,
           QString.split
             (QString.remove0 (String.length (Repository.objectName r)) lPath),
           s)
        else
          (* delete mRepository; mRepository = nullptr; *)
          openRepository (set_mRepository s None) lPath
      else openRepository s lPath
  | None => openRepository s lPath
  end.

(** *** createUDSEntry *)

(** The node whose attributes fill the entry: the link target when the node
    is a symlink, more than level 1 is asked for and the link resolves. *)
Definition described_node (r : Repository.t) (pNode : NodePtr) (pDetails : Z)
  : NodePtr :=
  let n := Repository.node r pNode in
  if negb (QString.isEmpty (Node.mSymlinkTarget n)) then
    if (1 <? pDetails)%Z then
      match resolve_from_parent (Repository.tree r) pNode
              (Node.mSymlinkTarget n) with
      | Some lNode => lNode
      | None => pNode
      end
    else pNode
  else pNode.

Definition createUDSEntry (r : Repository.t) (s : BupSlave) (pNode : NodePtr)
    (pDetails : Z) : UDSEntry * BupSlave :=
  let n0 := Repository.node r pNode in
  let e := uds_insert UDS_NAME (UStr (Node.objectName n0)) [] in
  let e :=
    if negb (QString.isEmpty (Node.mSymlinkTarget n0))
    then uds_insert UDS_LINK_DEST (UStr (Node.mSymlinkTarget n0)) e
    else e in
  let p := described_node r pNode pDetails in
  let n := Repository.node r p in
  let e := uds_insert UDS_FILE_TYPE (UNum (Z.land (Node.mMode n) S_IFMT)) e in
  let e := uds_insert UDS_ACCESS (UNum (Z.land (Node.mMode n) PERMISSION_BITS)) e in
  if (0 <? pDetails)%Z then
    let lSize :=
      if Node.is_File n then File.size (Repository.file r p) else 0%N in
    let e := uds_insert UDS_SIZE (UNum (to_qint64 lSize)) e in
    let e := uds_insert UDS_MIME_TYPE (UStr (Node.mMimeType n)) e in
    let e := uds_insert UDS_ACCESS_TIME (UNum (Node.mAtime n)) e in
    let e := uds_insert UDS_MODIFICATION_TIME (UNum (Node.mMtime n)) e in
    let '(user, s, _) := getUserName s (to_uint (Node.mUid n)) in
    let e := uds_insert UDS_USER (UStr user) e in
    let '(group, s, _) := getGroupName s (to_uint (Node.mGid n)) in
    let e := uds_insert UDS_GROUP (UStr group) e in
    (e, s)
  else (e, s).

(** [metaData("details")]: level 2 when absent. *)
Definition details_level (sDetails : string) : Z :=
  if QString.isEmpty sDetails then 2%Z else toInt E sDetails.

(** *** The request handlers *)

Definition no_repository (pUrl : QUrl) : Signal :=
  Error ERR_SLAVE_DEFINED (no_repository_text (toDisplayString pUrl)).

Definition close (s : BupSlave) : Outcome :=
  reply [Finished] [] (set_mOpenFile s None).

(** The resume block of [get]: signals, store calls, the processed size to
    start from, and the file afterwards. *)
Definition try_resume (lFile : File.t) (lResumeOffset : string)
  : list Signal * list StoreCall * N * File.t :=
  if negb (QString.isEmpty lResumeOffset) then
    match toULongLong E lResumeOffset with
    | Some lOffset =>
        if (lOffset <? File.size lFile)%N then
          let '(lRetVal, f) := File.seek lFile lOffset in
          if is_ok lRetVal
          then ([CanResume], [CallSeek lOffset], lOffset, f)
          else ([], [CallSeek lOffset], 0%N, f)
        else ([], [], 0%N, lFile)
    | None => ([], [], 0%N, lFile)
    end
  else ([], [], 0%N, lFile).

(** The read loop of [get] and what follows it.  [lFile->read(array)]
    gives no bound. *)
Fixpoint get_loop (fuel : nat) (path : string) (lFile : File.t)
    (lProcessedSize : N) : option (list Signal * list StoreCall * File.t) :=
  match fuel with
  | O => None
  | S fuel' =>
      let '(lRetVal, lResultArray, f) := File.read lFile None in
      match lRetVal with
      | Ok0 =>
          let lProcessedSize' :=
            add64 lProcessedSize (N.of_nat (length lResultArray)) in
          match get_loop fuel' path f lProcessedSize' with
          | Some (sigs, cs, f') =>
              Some (Data lResultArray :: ProcessedSize lProcessedSize' :: sigs,
                    CallRead None :: cs, f')
          | None => None
          end
      | Err ERR_NO_CONTENT =>
          Some ([Data []; ProcessedSize lProcessedSize; Finished],
                [CallRead None], f)
      | Err e => Some ([Error e path], [CallRead None], f)
      end
  end.

(** A bound on the reads a loop can make on [f]: every successful read
    moves the position forward. *)
Definition reads_left (f : File.t) : nat :=
  S (N.to_nat (File.size f - File.mOffset f)).

Definition get (s : BupSlave) (pUrl : QUrl) (lResumeOffset : string) : Outcome :=
  let '(ok, lPathInRepo, s) := checkCorrectRepository s pUrl in
  if negb ok then reply [no_repository pUrl] [] s
  else
    match mRepository s with
    | None => Fault NullRepository
    | Some r =>
        match Repository.resolve r lPathInRepo true with
        | None =>
            reply [Error ERR_DOES_NOT_EXIST (QString.join lPathInRepo)] [] s
        | Some lNode =>
            if negb (Node.is_File (Repository.node r lNode)) then
              reply [Error ERR_IS_DIRECTORY (QString.join lPathInRepo)] [] s
            else
              let lFile := Repository.file r lNode in
              let head :=
                [MimeType (Node.mMimeType (Repository.node r lNode));
                 TotalSize (File.size lFile)] in
              let '(_, f0) := File.seek lFile 0 in
              let '(rsigs, rcalls, lProcessedSize, f1) :=
                try_resume f0 lResumeOffset in
              match get_loop (reads_left f1) (QString.join lPathInRepo) f1
                      lProcessedSize with
              | None => Fault OutOfFuel
              | Some (sigs, cs, f2) =>
                  reply (head ++ rsigs ++ sigs)
                        (CallSeek 0 :: rcalls ++ cs)
                        (set_mRepository s
                           (Some (Repository.set_file r lNode f2)))
              end
        end
    end.

(** One [createUDSEntry] and [listEntry] per child. *)
Fixpoint list_entries (r : Repository.t) (s : BupSlave)
    (children : list NodePtr) (lDetails : Z) : list Signal * BupSlave :=
  match children with
  | [] => ([], s)
  | child :: rest =>
      let '(lEntry, s) := createUDSEntry r s child lDetails in
      let '(sigs, s) := list_entries r s rest lDetails in
      (ListEntry lEntry :: sigs, s)
  end.

Definition listDir (s : BupSlave) (pUrl : QUrl) (sDetails : string) : Outcome :=
  let '(ok, lPathInRepo, s) := checkCorrectRepository s pUrl in
  if negb ok then reply [no_repository pUrl] [] s
  else
    match mRepository s with
    | None => Fault NullRepository
    | Some r =>
        match Repository.resolve r lPathInRepo true with
        | None =>
            reply [Error ERR_DOES_NOT_EXIST (QString.join lPathInRepo)] [] s
        | Some lNode =>
            if negb (Node.is_Directory (Repository.node r lNode)) then
              reply [Error ERR_IS_FILE (QString.join lPathInRepo)] [] s
            else
              (* lDir->reload(); *)
              let r := Repository.reload r lNode in
              let s := set_mRepository s (Some r) in
              let '(sigs, s) :=
                list_entries r s (subNodes (Repository.tree r) lNode)
                  (details_level sDetails) in
              reply (sigs ++ [Finished]) [CallReload lNode] s
        end
    end.

Definition open (s : BupSlave) (pUrl : QUrl) (pMode : Z) : Outcome :=
  if negb (Z.land pMode QIODevice_WriteOnly =? 0)%Z then
    reply [Error ERR_CANNOT_OPEN_FOR_WRITING (toDisplayString pUrl)] [] s
  else
    let '(ok, lPathInRepo, s) := checkCorrectRepository s pUrl in
    if negb ok then reply [no_repository pUrl] [] s
    else
      match mRepository s with
      | None => Fault NullRepository
      | Some r =>
          match Repository.resolve r lPathInRepo true with
          | None =>
              reply [Error ERR_DOES_NOT_EXIST (QString.join lPathInRepo)] [] s
          | Some lNode =>
              if negb (Node.is_File (Repository.node r lNode)) then
                reply [Error ERR_IS_DIRECTORY (QString.join lPathInRepo)] [] s
              else
                let '(lRetVal, f) := File.seek (Repository.file r lNode) 0 in
                let s :=
                  set_mRepository s (Some (Repository.set_file r lNode f)) in
                if negb (is_ok lRetVal) then
                  reply [Error ERR_CANNOT_OPEN_FOR_READING
                           (toDisplayString pUrl)]
                        [CallSeek 0] s
                else
                  reply [MimeType (Node.mMimeType (Repository.node r lNode));
                         TotalSize (File.size f); Position 0; Opened]
                        [CallSeek 0]
                        (set_mOpenFile s
                           (Some (mkFilePtr (Repository.id r) lNode)))
          end
      end.

(** [mOpenFile->...]: the repository object that owns the node, when it is
    still the live one. *)
Definition owner_of (s : BupSlave) (h : FilePtr) : option Repository.t :=
  match mRepository s with
  | Some r => if Nat.eqb (Repository.id r) (owner h) then Some r else None
  | None => None
  end.

(** The loop of [read]: signals, store calls, the file afterwards and the
    last [lRetVal]. *)
Fixpoint read_loop (fuel : nat) (lFile : File.t) (pSize : N)
  : option (list Signal * list StoreCall * File.t * RetVal) :=
  match fuel with
  | O => None
  | S fuel' =>
      if (0 <? pSize)%N then
        let bound := Some (to_int pSize) in
        let '(lRetVal, lResultArray, f) := File.read lFile bound in
        match lRetVal with
        | Ok0 =>
            let pSize' := sub64 pSize (N.of_nat (length lResultArray)) in
            match read_loop fuel' f pSize' with
            | Some (sigs, cs, f', rv) =>
                Some (Data lResultArray :: sigs, CallRead bound :: cs, f', rv)
            | None => None
            end
        | Err e => Some ([], [CallRead bound], f, Err e)
        end
      else Some ([], [], lFile, Ok0)
  end.

Definition read (s : BupSlave) (pSize : N) : Outcome :=
  match mOpenFile s with
  | None => reply [Error ERR_COULD_NOT_READ EmptyString] [] s
  | Some h =>
      match owner_of s h with
      | None => Fault (StaleFile (owner h))
      | Some r =>
          let lFile := Repository.file r (target h) in
          match read_loop (reads_left lFile) lFile pSize with
          | None => Fault OutOfFuel
          | Some (sigs, cs, f, lRetVal) =>
              let s :=
                set_mRepository s (Some (Repository.set_file r (target h) f)) in
              match lRetVal with
              | Ok0 => reply (sigs ++ [Data []; Finished]) cs s
              | Err e => reply (sigs ++ [Error e (File.completePath f)]) cs s
              end
          end
      end
  end.

Definition seek (s : BupSlave) (pOffset : N) : Outcome :=
  match mOpenFile s with
  | None => reply [Error ERR_COULD_NOT_SEEK EmptyString] [] s
  | Some h =>
      match owner_of s h with
      | None => Fault (StaleFile (owner h))
      | Some r =>
          let '(lRetVal, f) :=
            File.seek (Repository.file r (target h)) pOffset in
          let s :=
            set_mRepository s (Some (Repository.set_file r (target h) f)) in
          if negb (is_ok lRetVal) then
            reply [Error ERR_COULD_NOT_SEEK (File.completePath f)]
                  [CallSeek pOffset] s
          else reply [Position pOffset] [CallSeek pOffset] s
      end
  end.

(** [stat] and [mimetype] call [resolve] without its second argument;
    section 4.2 of the specification has metadata requests resolve without
    following a final symlink. *)
Definition stat (s : BupSlave) (pUrl : QUrl) (sDetails : string) : Outcome :=
  let '(ok, lPathInRepo, s) := checkCorrectRepository s pUrl in
  if negb ok then reply [no_repository pUrl] [] s
  else
    match mRepository s with
    | None => Fault NullRepository
    | Some r =>
        match Repository.resolve r lPathInRepo false with
        | None =>
            reply [Error ERR_DOES_NOT_EXIST (QString.join lPathInRepo)] [] s
        | Some lNode =>
            let '(lUDSEntry, s) :=
              createUDSEntry r s lNode (details_level sDetails) in
            reply [StatEntry lUDSEntry; Finished] [] s
        end
    end.

Definition mimetype (s : BupSlave) (pUrl : QUrl) : Outcome :=
  let '(ok, lPathInRepo, s) := checkCorrectRepository s pUrl in
  if negb ok then reply [no_repository pUrl] [] s
  else
    match mRepository s with
    | None => Fault NullRepository
    | Some r =>
        match Repository.resolve r lPathInRepo false with
        | None =>
            reply [Error ERR_DOES_NOT_EXIST (QString.join lPathInRepo)] [] s
        | Some lNode =>
            reply [MimeType (Node.mMimeType (Repository.node r lNode));
                   Finished] [] s
        end
    end.

(** *** Sessions *)

Inductive Request : Type :=
  | ReqClose
  | ReqGet (pUrl : QUrl) (resume : string)
  | ReqListDir (pUrl : QUrl) (details : string)
  | ReqOpen (pUrl : QUrl) (pMode : Z)
  | ReqRead (pSize : N)
  | ReqSeek (pOffset : N)
  | ReqStat (pUrl : QUrl) (details : string)
  | ReqMimetype (pUrl : QUrl).

(** The dispatch loop hands each request to its handler. *)
Definition dispatch (s : BupSlave) (q : Request) : Outcome :=
  match q with
  | ReqClose => close s
  | ReqGet u resume => get s u resume
  | ReqListDir u details => listDir s u details
  | ReqOpen u mode => open s u mode
  | ReqRead n => read s n
  | ReqSeek o => seek s o
  | ReqStat u details => stat s u details
  | ReqMimetype u => mimetype s u
  end.

(** Serve the requests in turn; stop at the first fault. *)
Fixpoint serve (s : BupSlave) (qs : list Request) : list Outcome :=
  match qs with
  | [] => []
  | q :: rest =>
      match dispatch s q with
      | Replied r => Replied r :: serve (after r) rest
      | Fault k => [Fault k]
      end
  end.

(** The state after the requests, up to the first fault. *)
Fixpoint session (s : BupSlave) (qs : list Request) : BupSlave :=
  match qs with
  | [] => s
  | q :: rest =>
      match dispatch s q with
      | Replied r => session (after r) rest
      | Fault _ => s
      end
  end.

(** The states a session can be in between two requests. *)
Inductive reachable : BupSlave -> Prop :=
  | reachable_initial : reachable initial
  | reachable_step s q r :
      reachable s -> dispatch s q = Replied r -> reachable (after r).

End Slave.

(** ** A small world to run the slave in

    Two archives, [/home/u/b1/] (markers under [.git]) and [/srv/b2/]
    (first-class markers), and a directory [/bad/] that carries the markers
    but does not open. *)

Module World.

Definition report_bytes : list byte := [x68; x69; x0a].

(** A file the store reads and positions without failure, in pieces of two
    bytes. *)
Definition plain_file (path : string) (content : list byte) : File.t :=
  File.mk path content 0 (fun _ => 2%positive) (fun _ => false) (fun _ => None)
    (fun from _ => from) (fun from => from).

Definition dir_node (name : string) : Node.t :=
  Node.mk name KDirectory 0x41ED "inode/directory" 1000 100 10 20 EmptyString.

Definition file_node (name : string) : Node.t :=
  Node.mk name KFile 0x81A4 "text/plain" 1000 100 30 40 EmptyString.

Definition link_node (name dest : string) : Node.t :=
  Node.mk name KSymlink 0xA1FF "inode/symlink" 0 7 50 60 dest.

(** Nodes of [/home/u/b1/]: 0 the root, 1 [docs], 2 [docs/report.txt],
    3 [docs/latest], a link to [report.txt], 4 [docs/gone], a link to
    nothing, 5 [docs/empty], a file without content, 6 [docs/worn], a file
    the store cannot position at offset 2 (a seek there leaves the file at
    offset 1), 7 [torn], a file a piece of which, at offset 2, is missing
    from the store. *)
Definition b1_node (p : NodePtr) : Node.t :=
  match p with
  | 1%N => dir_node "docs"
  | 2%N => file_node "report.txt"
  | 3%N => link_node "latest" "report.txt"
  | 4%N => link_node "gone" "nowhere"
  | 5%N => file_node "empty"
  | 6%N => file_node "worn"
  | 7%N => file_node "torn"
  | _ => dir_node "/home/u/b1/"
  end.

Definition b1_resolve (path : list string) (follow : bool) : option NodePtr :=
  match path with
  | [] => Some 0%N
  | [a] =>
      if String.eqb a "docs" then Some 1%N
      else if String.eqb a "torn" then Some 7%N
      else None
  | [a; b] =>
      if String.eqb a "docs" then
        if String.eqb b "report.txt" then Some 2%N
        else if String.eqb b "latest" then Some (if follow then 2%N else 3%N)
        else if String.eqb b "gone" then Some 4%N
        else if String.eqb b "empty" then Some 5%N
        else if String.eqb b "worn" then Some 6%N
        else None
      else None
  | _ => None
  end.

Definition b1_file (p : NodePtr) : File.t :=
  match p with
  | 2%N => plain_file "docs/report.txt" report_bytes
  | 6%N =>
      File.mk "docs/worn" [x61; x62; x63; x64] 0 (fun _ => 4%positive)
        (fun o => (o =? 2)%N) (fun _ => None)
        (fun _ _ => 1%N) (fun from => from)
  | 7%N =>
      File.mk "torn" [x61; x62; x63; x64] 0 (fun _ => 2%positive)
        (fun _ => false)
        (fun o => if (o =? 2)%N then Some ERR_DOES_NOT_EXIST else None)
        (fun from _ => from) (fun from => from)
  | _ => plain_file "docs/empty" []
  end.

(** [/home/u/b1/] does not change. *)
Definition b1 : Archive :=
  mkArchive true
    (fun _ =>
       mkTree b1_resolve b1_node
         (fun p dest => if String.eqb dest "report.txt" then Some 2%N else None)
         (fun p => match p with
                   | 0%N => [1%N; 7%N]
                   | 1%N => [2%N; 3%N; 4%N; 5%N; 6%N]
                   | _ => []
                   end)
         b1_file).

(** [/srv/b2/] holds one file, [notes] (node 1); a backup made since added
    [later] (node 2), which the tree shows once a directory has been
    reloaded. *)
Definition b2_tree (grown : bool) : Tree :=
  mkTree
    (fun path _ =>
       match path with
       | [] => Some 0%N
       | [a] =>
           if String.eqb a "notes" then Some 1%N
           else if grown && String.eqb a "later" then Some 2%N
           else None
       | _ => None
       end)
    (fun p => match p with
              | 1%N => file_node "notes"
              | 2%N => file_node "later"
              | _ => dir_node "/srv/b2/"
              end)
    (fun _ _ => None)
    (fun p => match p with
              | 0%N => if grown then [1%N; 2%N] else [1%N]
              | _ => []
              end)
    (fun p => match p with
              | 2%N => plain_file "later" [x7a]
              | _ => plain_file "notes" [x61; x62; x63; x64; x65]
              end).

Definition b2 : Archive :=
  mkArchive true
    (fun reloaded => b2_tree (match reloaded with [] => false | _ => true end)).

Definition unopened : Archive :=
  mkArchive false
    (fun _ =>
       mkTree (fun _ _ => None) (fun _ => dir_node EmptyString)
         (fun _ _ => None) (fun _ => []) (fun _ => plain_file EmptyString [])).

Definition one_of (l : list string) (s : string) : bool :=
  existsb (String.eqb s) l.

(** Decimal digits only, as [toULongLong] reads them. *)
Fixpoint digits (acc : N) (s : string) : option N :=
  match s with
  | EmptyString => Some acc
  | String c rest =>
      let d := N.of_nat (nat_of_ascii c) in
      if (48 <=? d)%N && (d <=? 57)%N
      then digits (acc * 10 + (d - 48))%N rest
      else None
  end.

Definition parse (s : string) : option N :=
  match s with
  | EmptyString => None
  | _ => match digits 0 s with
         | Some n => if (n <? two64)%N then Some n else None
         | None => None
         end
  end.

Definition env : Env :=
  mkEnv
    (one_of ["/home/u/b1/.git/objects"; "/home/u/b1/.git/refs";
             "/srv/b2/objects"; "/srv/b2/refs";
             "/bad/objects"; "/bad/refs"])
    (fun uid => if (uid =? 1000)%N then Some "simon" else None)
    (fun gid => if (gid =? 100)%N then Some "users" else None)
    (fun path =>
       if String.eqb path "/home/u/b1/" then b1
       else if String.eqb path "/srv/b2/" then b2
       else unopened)
    parse
    (fun s => match parse s with Some n => Z.of_N n | None => 0%Z end).

(** The same world after the account 1000 has been removed. *)
Definition env_later : Env :=
  mkEnv (QFile_exists env) (fun _ => None) (getgrgid env) (archive_at env)
    (toULongLong env) (toInt env).

Definition url (path : string) : QUrl := mkUrl EmptyString path ("bup://" +:+ path).

End World.

(** ** A second world: an archive whose store cannot position a file *)

Module Stuck.

(** [/arc/] holds one file, [log], of four bytes; the store reads it from
    front to back but cannot position it: every seek fails and leaves the
    file where it stands. *)
Definition log_file : File.t :=
  File.mk "log" [x6c; x6f; x67; x0a] 0 (fun _ => 4%positive)
    (fun _ => true) (fun _ => None) (fun from _ => from) (fun from => from).

Definition arc : Archive :=
  mkArchive true
    (fun _ =>
       mkTree
         (fun path _ =>
            match path with
            | [] => Some 0%N
            | [a] => if String.eqb a "log" then Some 1%N else None
            | _ => None
            end)
         (fun p => match p with
                   | 1%N => World.file_node "log"
                   | _ => World.dir_node "/arc/"
                   end)
         (fun _ _ => None)
         (fun p => match p with 0%N => [1%N] | _ => [] end)
         (fun _ => log_file)).

Definition env : Env :=
  mkEnv (World.one_of ["/arc/objects"; "/arc/refs"])
    (getpwuid World.env) (getgrgid World.env)
    (fun path => if String.eqb path "/arc/" then arc else World.unopened)
    (toULongLong World.env) (toInt World.env).

End Stuck.

(** ** Notions the statements use *)

(** The candidate directories of the locator: the root extended by one
    path component after another, each with the components left. *)
Fixpoint candidates (dir : string) (components : list string)
  : list (string * list string) :=
  match components with
  | [] => []
  | first :: rest =>
      let dir' := dir +:+ first +:+ "/" in
      (dir', rest) :: candidates dir' rest
  end.

(** The invariant on the root path of the repository held. *)
Definition root_slash_terminated (s : BupSlave) : Prop :=
  forall r, mRepository s = Some r ->
            QString.endsWith_slash (Repository.objectName r) = true.

(** Every Repository object and every open file comes from an allocation
    made earlier, and an open file of the repository held was opened while
    that repository was valid. *)
Definition well_allocated (s : BupSlave) : Prop :=
  (forall r, mRepository s = Some r -> Repository.id r < allocated s)
  /\ (forall h, mOpenFile s = Some h -> owner h < allocated s)
  /\ (forall h r, mOpenFile s = Some h -> mRepository s = Some r ->
                  owner h = Repository.id r -> Repository.isValid r = true).

(** The bytes of the chunks among the signals, in order. *)
Fixpoint data_chunks (sigs : list Signal) : list (list byte) :=
  match sigs with
  | [] => []
  | Data chunk :: rest => chunk :: data_chunks rest
  | _ :: rest => data_chunks rest
  end.

Definition is_Error (g : Signal) : bool :=
  match g with Error _ _ => true | _ => false end.

Definition is_CanResume (g : Signal) : bool :=
  match g with CanResume => true | _ => false end.

Definition is_Finished (g : Signal) : bool :=
  match g with Finished => true | _ => false end.

Definition KioError_eqb (a b : KioError) : bool :=
  match a, b with
  | ERR_SLAVE_DEFINED, ERR_SLAVE_DEFINED
  | ERR_DOES_NOT_EXIST, ERR_DOES_NOT_EXIST
  | ERR_IS_DIRECTORY, ERR_IS_DIRECTORY
  | ERR_IS_FILE, ERR_IS_FILE
  | ERR_CANNOT_OPEN_FOR_WRITING, ERR_CANNOT_OPEN_FOR_WRITING
  | ERR_CANNOT_OPEN_FOR_READING, ERR_CANNOT_OPEN_FOR_READING
  | ERR_COULD_NOT_READ, ERR_COULD_NOT_READ
  | ERR_COULD_NOT_SEEK, ERR_COULD_NOT_SEEK
  | ERR_NO_CONTENT, ERR_NO_CONTENT => true
  | ERR_OTHER c, ERR_OTHER c' => (c =? c')%Z
  | _, _ => false
  end.

(** Does the list of signals carry an error with this code? *)
Definition emits_error (code : KioError) (sigs : list Signal) : bool :=
  existsb (fun g => match g with
                    | Error c _ => KioError_eqb c code
                    | _ => false
                    end) sigs.

(** A reply that carries an error. *)
Definition failed (r : Reply) : bool := existsb is_Error (emitted r).

(** A reply that ends the request with [finished]. *)
Definition succeeded (r : Reply) : bool := existsb is_Finished (emitted r).

(** The processed-size reports among the signals, in order. *)
Fixpoint processed_sizes (sigs : list Signal) : list N :=
  match sigs with
  | [] => []
  | ProcessedSize n :: rest => n :: processed_sizes rest
  | _ :: rest => processed_sizes rest
  end.

Fixpoint strictly_increasing (l : list N) : bool :=
  match l with
  | a :: (b :: _) as rest => (a <? b)%N && strictly_increasing rest
  | _ => true
  end.

(** The stream of a transfer from processed size [base]: chunks that are
    not empty, each followed by the count so far, then the empty chunk, the
    count once more and [finished]. *)
Inductive stream_from : N -> list Signal -> Prop :=
  | stream_end base :
      stream_from base [Data []; ProcessedSize base; Finished]
  | stream_chunk base chunk rest :
      chunk <> [] ->
      stream_from (base + N.of_nat (length chunk)) rest ->
      stream_from base
        (Data chunk :: ProcessedSize (base + N.of_nat (length chunk)) :: rest).

Definition seeks (cs : list StoreCall) : list N :=
  omap (fun c => match c with CallSeek o => Some o | _ => None end) cs.

(** A lookup through one of the two caches. *)
Inductive NameQuery : Type :=
  | UserName (pUid : N)
  | GroupName (pGid : N).

#[global] Instance NameQuery_eq_dec : EqDecision NameQuery.
Proof. solve_decision. Defined.

Definition id_of (q : NameQuery) : N :=
  match q with UserName i | GroupName i => i end.

Definition ask (E : Env) (s : BupSlave) (q : NameQuery)
  : string * BupSlave * list N :=
  match q with
  | UserName pUid => getUserName E s pUid
  | GroupName pGid => getGroupName E s pGid
  end.

(** What the account database answers. *)
Definition platform (E : Env) (q : NameQuery) : option string :=
  match q with
  | UserName pUid => getpwuid E pUid
  | GroupName pGid => getgrgid E pGid
  end.

Definition cached (s : BupSlave) (q : NameQuery) : option string :=
  match q with
  | UserName pUid => mUsercache s !! pUid
  | GroupName pGid => mGroupcache s !! pGid
  end.

(** Lookups made one after another, each against the account database as
    it is at that time: the name returned and the ids the platform was
    asked about, per lookup. *)
Fixpoint asks (s : BupSlave) (steps : list (Env * NameQuery))
  : list (string * list N) :=
  match steps with
  | [] => []
  | (E, q) :: rest =>
      let '(name, s', asked) := ask E s q in
      (name, asked) :: asks s' rest
  end.

(** What the client sees of a session: the signals of each request, or
    the fault that ended it. *)
Definition transcript (E : Env) (s : BupSlave) (qs : list Request)
  : list (list Signal + FaultKind) :=
  map (fun o => match o with
                | Replied r => inl (emitted r)
                | Fault k => inr k
                end) (serve E s qs).

(** The offsets at which chunks read one after another from offset [o]
    start. *)
Fixpoint chunk_starts (o : N) (chunks : list (list byte)) : list N :=
  match chunks with
  | [] => []
  | chunk :: rest => o :: chunk_starts (o + N.of_nat (length chunk)) rest
  end.

(** The offset get tries to resume at, for a file of [size] bytes: the
    resume offset of the request when it is given, parses and lies below
    the size. *)
Definition resume_request (E : Env) (lResumeOffset : string) (size : N)
  : option N :=
  match toULongLong E lResumeOffset with
  | Some lOffset =>
      if negb (QString.isEmpty lResumeOffset) && (lOffset <? size)%N
      then Some lOffset else None
  | None => None
  end.

(** The directory path spelled by components: each followed by a slash. *)
Fixpoint slash_terminated (components : list string) : string :=
  match components with
  | [] => EmptyString
  | c :: rest => c +:+ "/" +:+ slash_terminated rest
  end.

Fixpoint no_slash (s : string) : bool :=
  match s with
  | EmptyString => true
  | String c rest => negb (QString.is_slash c) && no_slash rest
  end.

(** A path component: not empty, and without a slash. *)
Definition is_component (c : string) : bool :=
  negb (QString.isEmpty c) && no_slash c.

(** The root path of the repository held, if any, satisfies [P]. *)
Definition root_satisfies (P : string -> Prop) (s : BupSlave) : Prop :=
  forall r, mRepository s = Some r -> P (Repository.objectName r).

(** A root path as the locator builds it: a slash, then one component or
    more, each followed by a slash. *)
Definition is_directory_path (root : string) : Prop :=
  exists taken,
    taken <> [] /\ Forall (fun c => is_component c = true) taken
    /\ root = "/" +:+ slash_terminated taken.

(** Every cached name is the one the account database gives. *)
Definition cache_sound (E : Env) (s : BupSlave) : Prop :=
  forall q name, cached s q = Some name -> platform E q = Some name.

(** The URL a request names, if it names one. *)
Definition request_url (q : Request) : option QUrl :=
  match q with
  | ReqGet u _ | ReqListDir u _ | ReqOpen u _ | ReqStat u _
  | ReqMimetype u => Some u
  | ReqClose | ReqRead _ | ReqSeek _ => None
  end.

(** The signals that end a request. *)
Definition is_terminal (g : Signal) : bool :=
  match g with Finished | Error _ _ => true | _ => false end.

(** The file an open-file pointer leads to, when its repository is the one
    held. *)
Definition open_file (s : BupSlave) : option File.t :=
  match mOpenFile s with
  | Some h =>
      match owner_of s h with
      | Some r => Some (Repository.file r (target h))
      | None => None
      end
  | None => None
  end.

(** Case analysis on a handler that replied: one goal per path through
    it, with the reply of that path substituted. *)
Ltac handler_cases H :=
  unfold reply in H; repeat case_match; simplify_eq; cbn.

(** * Properties *)

(** ** Strings *)

Example split_drops_empty_segments :
  QString.split "/home//u/b1/" = ["home"; "u"; "b1"].
Proof. reflexivity. Qed.

Example normalizedPath_with_host :
  normalizedPath (mkUrl "home" "/u/b1" EmptyString) = "/home/u/b1/".
Proof. reflexivity. Qed.

Example normalizedPath_without_slash :
  normalizedPath (mkUrl EmptyString "home/u" EmptyString) = "/home/u/".
Proof. reflexivity. Qed.

Example candidates_of_a_path :
  candidates "/" ["home"; "u"]
  = [("/home/", ["u"]); ("/home/u/", [])].
Proof. reflexivity. Qed.

Lemma startsWith_split s p :
  QString.startsWith s p = true ->
  s = p +:+ QString.remove0 (String.length p) s.
Proof.
  unfold QString.startsWith. revert s.
  induction p as [|a p IH]; intros s H.
  - reflexivity.
  - destruct s as [|b s]; [discriminate|].
    cbn in H. destruct (ascii_dec a b) as [Heq|Hne]; [subst b|discriminate].
    change (String a s = String a (p +:+ QString.remove0 (String.length p) s)).
    f_equal. apply IH, H.
Qed.

Lemma remove0_app p rest :
  QString.remove0 (String.length p) (p +:+ rest) = rest.
Proof. induction p as [|a p IH]; [reflexivity | exact IH]. Qed.

Lemma endsWith_slash_cons c s :
  QString.endsWith_slash s = true -> QString.endsWith_slash (String c s) = true.
Proof. destruct s; [discriminate | exact (fun H => H)]. Qed.

Lemma endsWith_slash_app a b :
  QString.endsWith_slash (a +:+ b +:+ "/") = true.
Proof.
  induction a as [|c a IH].
  - induction b as [|c b IH]; [reflexivity|].
    exact (endsWith_slash_cons c _ IH).
  - exact (endsWith_slash_cons c _ IH).
Qed.

(** ** The locator *)

Section Locator.

Variable E : Env.

Lemma discover_find dir components :
  discover E dir components
  = List.find (fun c => has_markers E c.1) (candidates dir components).
Proof.
  revert dir. induction components as [|first rest IH]; intros dir.
  - reflexivity.
  - cbn [discover candidates List.find fst].
    destruct (has_markers E (dir +:+ first +:+ "/")); [reflexivity | apply IH].
Qed.

Lemma discover_slash dir components root rest :
  discover E dir components = Some (root, rest) ->
  QString.endsWith_slash root = true.
Proof.
  revert dir. induction components as [|first tl IH]; intros dir H.
  - discriminate.
  - cbn [discover] in H.
    destruct (has_markers E (dir +:+ first +:+ "/")).
    + injection H as <- _. apply endsWith_slash_app.
    + eapply IH, H.
Qed.

Lemma checkCorrectRepository_slow s pUrl :
  fast_path s (normalizedPath pUrl) = false ->
  exists s0,
    checkCorrectRepository E s pUrl = openRepository E s0 (normalizedPath pUrl)
    /\ allocated s0 = allocated s /\ mOpenFile s0 = mOpenFile s
    /\ mUsercache s0 = mUsercache s /\ mGroupcache s0 = mGroupcache s
    /\ ((s0 = s
         /\ forall r, mRepository s = Some r -> Repository.isValid r = false)
        \/ s0 = set_mRepository s None).
Proof.
  unfold fast_path, checkCorrectRepository. intros H.
  destruct (mRepository s) as [r|].
  - destruct (Repository.isValid r) eqn:Hv.
    + cbn in H. rewrite H. exists (set_mRepository s None). auto 10.
    + exists s. repeat split; auto. left. split; [reflexivity|].
      intros r' [= <-]. exact Hv.
  - exists s. repeat split; auto. left. split; [reflexivity|]. discriminate.
Qed.

Lemma checkCorrectRepository_fast s pUrl :
  fast_path s (normalizedPath pUrl) = true ->
  exists r,
    mRepository s = Some r /\ Repository.isValid r = true
    /\ QString.startsWith (normalizedPath pUrl) (Repository.objectName r) = true
    /\ checkCorrectRepository E s pUrl
       = (true,
          QString.split
            (QString.remove0 (String.length (Repository.objectName r))
               (normalizedPath pUrl)),
          s).
Proof.
  unfold fast_path, checkCorrectRepository. intros H.
  destruct (mRepository s) as [r|]; [|discriminate].
  apply andb_prop in H as [Hv Hp]. rewrite Hv, Hp. exists r. auto.
Qed.

(** When the locator says yes, a valid repository is installed. *)
Lemma checkCorrectRepository_true s pUrl rest s' :
  checkCorrectRepository E s pUrl = (true, rest, s') ->
  exists r, mRepository s' = Some r /\ Repository.isValid r = true.
Proof.
  destruct (fast_path s (normalizedPath pUrl)) eqn:Hf.
  - destruct (checkCorrectRepository_fast _ _ Hf) as (r & Hr & Hv & _ & ->).
    intros [= _ <-]. eauto.
  - destruct (checkCorrectRepository_slow _ _ Hf) as (s0 & -> & _).
    unfold openRepository.
    destruct (discover E "/" _) as [[root tl]|]; [|discriminate].
    intros [= Hv _ <-]. cbn. eauto.
Qed.

(** The locator leaves the open-file slot and the caches alone. *)
Lemma checkCorrectRepository_frame s pUrl ok rest s' :
  checkCorrectRepository E s pUrl = (ok, rest, s') ->
  mOpenFile s' = mOpenFile s /\ mUsercache s' = mUsercache s
  /\ mGroupcache s' = mGroupcache s.
Proof.
  destruct (fast_path s (normalizedPath pUrl)) eqn:Hf.
  - destruct (checkCorrectRepository_fast _ _ Hf) as (r & _ & _ & _ & ->).
    intros [= _ _ <-]. auto.
  - destruct (checkCorrectRepository_slow _ _ Hf)
      as (s0 & -> & _ & Ho & Hu & Hg & _).
    unfold openRepository.
    destruct (discover E "/" _) as [[root tl]|]; intros [= _ _ <-]; cbn; auto.
Qed.

End Locator.

(** ** Frame properties of the encoder *)

Section Frames.

Variable E : Env.

Lemma createUDSEntry_frame r s pNode pDetails :
  mRepository (createUDSEntry E r s pNode pDetails).2 = mRepository s
  /\ mOpenFile (createUDSEntry E r s pNode pDetails).2 = mOpenFile s.
Proof.
  unfold createUDSEntry, getUserName, getGroupName.
  repeat case_match; simplify_eq; cbn; auto.
Qed.

Lemma list_entries_frame r s children lDetails :
  mRepository (list_entries E r s children lDetails).2 = mRepository s
  /\ mOpenFile (list_entries E r s children lDetails).2 = mOpenFile s.
Proof.
  revert s. induction children as [|child rest IH]; intros s; [auto|].
  cbn [list_entries].
  pose proof (createUDSEntry_frame r s child lDetails) as [H1 H2].
  destruct (createUDSEntry E r s child lDetails) as [lEntry s1].
  specialize (IH s1) as [H3 H4].
  destruct (list_entries E r s1 rest lDetails) as [sigs s2].
  cbn in *. split; congruence.
Qed.

End Frames.

(** ** The root path of the open repository *)

Section Roots.

Variable E : Env.

Lemma checkCorrectRepository_root s pUrl ok rest s' :
  checkCorrectRepository E s pUrl = (ok, rest, s') ->
  root_slash_terminated s -> root_slash_terminated s'.
Proof.
  intros H Inv.
  destruct (fast_path s (normalizedPath pUrl)) eqn:Hf.
  - destruct (checkCorrectRepository_fast E _ _ Hf) as (r & _ & _ & _ & Heq).
    rewrite Heq in H. injection H as _ _ <-. exact Inv.
  - destruct (checkCorrectRepository_slow E _ _ Hf)
      as (s0 & Heq & _ & _ & _ & _ & Hs0).
    rewrite Heq in H. unfold openRepository in H.
    destruct (discover E "/" _) as [[root tl]|] eqn:Hd.
    + injection H as _ _ <-. intros r [= <-]. cbn.
      eapply discover_slash, Hd.
    + injection H as _ _ <-. destruct Hs0 as [[-> _]| ->]; [exact Inv|].
      intros r. discriminate.
Qed.

Lemma set_file_root s r p f :
  root_slash_terminated s -> mRepository s = Some r ->
  root_slash_terminated (set_mRepository s (Some (Repository.set_file r p f))).
Proof. intros Inv Hr r' [= <-]. cbn. apply Inv, Hr. Qed.

Lemma dispatch_root s q r :
  dispatch E s q = Replied r ->
  root_slash_terminated s -> root_slash_terminated (after r).
Proof.
  intros H Inv.
  destruct q; cbn [dispatch] in H.
  - injection H as <-. exact Inv.
  - unfold get in H.
    destruct (checkCorrectRepository E s pUrl) as [[ok rest] s1] eqn:Hc.
    pose proof (checkCorrectRepository_root _ _ _ _ _ Hc Inv) as Inv1.
    handler_cases H; auto using set_file_root.
  - unfold listDir in H.
    destruct (checkCorrectRepository E s pUrl) as [[ok rest] s1] eqn:Hc.
    pose proof (checkCorrectRepository_root _ _ _ _ _ Hc Inv) as Inv1.
    handler_cases H; auto.
    match goal with
    | Hl : list_entries E ?r ?s1' ?c ?d = (_, ?s2) |- _ =>
        pose proof (list_entries_frame E r s1' c d) as [Hm _];
        rewrite Hl in Hm; cbn in Hm
    end.
    intros r' Hr'. rewrite Hm in Hr'. injection Hr' as <-.
    cbn. apply Inv1. assumption.
  - unfold open in H.
    destruct (negb _); [injection H as <-; exact Inv|].
    destruct (checkCorrectRepository E s pUrl) as [[ok rest] s1] eqn:Hc.
    pose proof (checkCorrectRepository_root _ _ _ _ _ Hc Inv) as Inv1.
    handler_cases H; auto using set_file_root.
    intros r' [= <-]. cbn. auto.
  - unfold read, owner_of, reply in H.
    repeat case_match; simplify_eq; cbn; auto using set_file_root.
  - unfold seek, owner_of, reply in H.
    repeat case_match; simplify_eq; cbn; auto using set_file_root.
  - unfold stat in H.
    destruct (checkCorrectRepository E s pUrl) as [[ok rest] s1] eqn:Hc.
    pose proof (checkCorrectRepository_root _ _ _ _ _ Hc Inv) as Inv1.
    handler_cases H; auto.
    match goal with
    | Hl : createUDSEntry E ?r s1 ?c ?d = (_, ?s2) |- _ =>
        pose proof (createUDSEntry_frame E r s1 c d) as [Hm _];
        rewrite Hl in Hm; cbn in Hm
    end.
    intros r' Hr'. apply Inv1. congruence.
  - unfold mimetype in H.
    destruct (checkCorrectRepository E s pUrl) as [[ok rest] s1] eqn:Hc.
    pose proof (checkCorrectRepository_root _ _ _ _ _ Hc Inv) as Inv1.
    handler_cases H; auto.
Qed.

Lemma reachable_root s : reachable E s -> root_slash_terminated s.
Proof.
  induction 1 as [|s q r _ IH Hd].
  - intros r. discriminate.
  - eapply dispatch_root; eauto.
Qed.

End Roots.

(** ** Requests the locator turns down *)

Lemma handlers_without_repository E s pUrl rest s' :
  checkCorrectRepository E s pUrl = (false, rest, s') ->
  forall resume details pMode,
    get E s pUrl resume = reply [no_repository pUrl] [] s'
    /\ listDir E s pUrl details = reply [no_repository pUrl] [] s'
    /\ stat E s pUrl details = reply [no_repository pUrl] [] s'
    /\ mimetype E s pUrl = reply [no_repository pUrl] [] s'
    /\ (Z.land pMode QIODevice_WriteOnly = 0%Z ->
        open E s pUrl pMode = reply [no_repository pUrl] [] s').
Proof.
  intros Hc resume details pMode.
  unfold get, listDir, stat, mimetype, open. rewrite Hc. cbn.
  repeat split. intros ->. reflexivity.
Qed.

(** C1: a request outside the open repository makes the locator try the
    candidate directories from the root outward.  The first one carrying
    [objects] and [refs], or [.git/objects] and [.git/refs], becomes the
    root of a new repository, and the locator answers whether that
    repository opened.  With no such candidate, or with one that does not
    open, the locator answers no, and every handler replies with the
    no-repository error alone. *)
Theorem locate_first_marked_candidate (E : Env) (s : BupSlave) (pUrl : QUrl) :
  fast_path s (normalizedPath pUrl) = false ->
  exists ok rest s',
    checkCorrectRepository E s pUrl = (ok, rest, s')
    /\ match List.find (fun c => has_markers E c.1)
               (candidates "/" (QString.split (normalizedPath pUrl))) with
       | Some (root, remaining) =>
           mRepository s'
           = Some (Repository.new (allocated s) root (archive_at E root))
           /\ ok = opens (archive_at E root)
           /\ rest = remaining
       | None => ok = false
       end
    /\ (ok = false ->
        forall resume details pMode,
          get E s pUrl resume = reply [no_repository pUrl] [] s'
          /\ listDir E s pUrl details = reply [no_repository pUrl] [] s'
          /\ stat E s pUrl details = reply [no_repository pUrl] [] s'
          /\ mimetype E s pUrl = reply [no_repository pUrl] [] s'
          /\ (Z.land pMode QIODevice_WriteOnly = 0%Z ->
              open E s pUrl pMode = reply [no_repository pUrl] [] s')).
Proof.
  intros Hf.
  destruct (checkCorrectRepository_slow E _ _ Hf)
    as (s0 & Heq & Ha & _ & _ & _ & _).
  destruct (checkCorrectRepository E s pUrl) as [[ok rest] s'] eqn:Hc.
  exists ok, rest, s'. split; [reflexivity|]. split.
  - unfold openRepository in Heq. rewrite discover_find in Heq.
    destruct (List.find _ _) as [[root remaining]|];
      injection Heq as -> -> ->; [rewrite Ha|]; auto.
  - intros ->. eapply handlers_without_repository, Hc.
Qed.

Lemma locate_first_marked_candidate_witness :
  fast_path initial (normalizedPath (World.url "/home/u/b1/docs/report.txt"))
  = false
  /\ exists rest s',
       checkCorrectRepository World.env initial
         (World.url "/home/u/b1/docs/report.txt") = (true, rest, s')
       /\ rest = ["docs"; "report.txt"]
       /\ (Repository.objectName <$> mRepository s') = Some "/home/u/b1/".
Proof.
  split; [reflexivity|].
  destruct (locate_first_marked_candidate World.env initial
              (World.url "/home/u/b1/docs/report.txt") eq_refl)
    as (ok & rest & s' & Hc & Hfind & _).
  vm_compute in Hfind. destruct Hfind as (Hr & -> & ->).
  exists ["docs"; "report.txt"], s'.
  split; [exact Hc|]. split; [reflexivity|].
  pose proof (Hr : mRepository s' = _) as Hr'. rewrite Hr'. reflexivity.
Defined.

(** C7: in every state of a session the root path of the repository held
    ends with a slash; a request the fast path accepts has that root as a
    prefix of its normalized path, and its components are what is left
    after the prefix, split at slashes with empty segments dropped. *)
Theorem root_path_prefix_of_accepted (E : Env) (s : BupSlave)
    (r : Repository.t) (pUrl : QUrl) :
  reachable E s ->
  mRepository s = Some r ->
  QString.endsWith_slash (Repository.objectName r) = true
  /\ (fast_path s (normalizedPath pUrl) = true ->
      exists remainder,
        normalizedPath pUrl = Repository.objectName r +:+ remainder
        /\ checkCorrectRepository E s pUrl
           = (true, QString.split remainder, s)).
Proof.
  intros Hreach Hr. split.
  - eapply reachable_root; eauto.
  - intros Hf.
    destruct (checkCorrectRepository_fast E _ _ Hf) as (r' & Hr' & _ & Hp & Hc).
    assert (r' = r) as -> by congruence.
    exists (QString.remove0 (String.length (Repository.objectName r))
              (normalizedPath pUrl)).
    split; [apply startsWith_split, Hp | exact Hc].
Qed.

Lemma session_reachable E s qs : reachable E s -> reachable E (session E s qs).
Proof.
  revert s. induction qs as [|q rest IH]; intros s Hs; [exact Hs|].
  cbn [session]. destruct (dispatch E s q) as [r|k] eqn:Hd; [|exact Hs].
  apply IH. eapply reachable_step; eauto.
Qed.

Lemma root_path_prefix_of_accepted_witness :
  let s := session World.env initial [ReqMimetype (World.url "/home/u/b1/docs")] in
  let pUrl := World.url "/home/u/b1/docs//latest/" in
  exists r,
    mRepository s = Some r
    /\ QString.endsWith_slash (Repository.objectName r) = true
    /\ exists remainder,
         normalizedPath pUrl = Repository.objectName r +:+ remainder
         /\ checkCorrectRepository World.env s pUrl
            = (true, QString.split remainder, s).
Proof.
  intros s pUrl.
  exists (Repository.mk 0 "/home/u/b1/" World.b1 [] ∅).
  assert (mRepository s = Some (Repository.mk 0 "/home/u/b1/" World.b1 [] ∅))
    as Hr by reflexivity.
  split; [exact Hr|].
  destruct (root_path_prefix_of_accepted World.env s _ pUrl
              (session_reachable _ _ _ (reachable_initial _)) Hr) as [H1 H2].
  split; [exact H1|]. apply H2. reflexivity.
Defined.

(** ** The owner-name caches *)

Section Caches.

Lemma ask_hit E s q name :
  cached s q = Some name -> ask E s q = (name, s, []).
Proof.
  destruct s, q; cbn; intros H;
    unfold getUserName, getGroupName, lookupName, QHash_contains, QHash_value;
    cbn; rewrite H; reflexivity.
Qed.

Lemma ask_found E s q name :
  cached s q = None -> platform E q = Some name ->
  exists s', ask E s q = (name, s', [id_of q]) /\ cached s' q = Some name.
Proof.
  destruct s, q; cbn; intros H Hp;
    unfold getUserName, getGroupName, lookupName, QHash_contains, QHash_value;
    cbn; rewrite H, Hp; cbn; rewrite lookup_insert_eq;
    (eexists; split; [reflexivity|]); cbn; apply lookup_insert_eq.
Qed.

Lemma ask_not_found E s q :
  cached s q = None -> platform E q = None ->
  ask E s q = (QString.number (id_of q), s, [id_of q]).
Proof.
  destruct s, q; cbn; intros H Hp;
    unfold getUserName, getGroupName, lookupName, QHash_contains, QHash_value;
    cbn; rewrite H, Hp; reflexivity.
Qed.

(** An entry, once in a cache, stays as it is. *)
Lemma ask_keeps E s q q' name :
  cached s q' = Some name -> cached (ask E s q).1.2 q' = Some name.
Proof.
  intros H. destruct (cached s q) as [n|] eqn:Hq.
  - rewrite (ask_hit E _ _ _ Hq). exact H.
  - destruct (platform E q) as [n|] eqn:Hp.
    + destruct s, q, q'; cbn in *;
        unfold getUserName, getGroupName, lookupName, QHash_contains;
        cbn; rewrite Hq, Hp; cbn; try exact H;
        (rewrite lookup_insert_ne; [exact H | congruence]).
    + rewrite (ask_not_found E _ _ Hq Hp). exact H.
Qed.

(** A lookup of another key does not fill the entry of this one. *)
Lemma ask_other E s q q' :
  q <> q' -> cached s q' = None -> cached (ask E s q).1.2 q' = None.
Proof.
  intros Hne H. destruct (cached s q) as [n|] eqn:Hq.
  - rewrite (ask_hit E _ _ _ Hq). exact H.
  - destruct (platform E q) as [n|] eqn:Hp.
    + destruct s, q, q'; cbn in *;
        unfold getUserName, getGroupName, lookupName, QHash_contains;
        cbn; rewrite Hq, Hp; cbn; try exact H;
        (rewrite lookup_insert_ne; [exact H | congruence]).
    + rewrite (ask_not_found E _ _ Hq Hp). exact H.
Qed.

Lemma asks_cons E q s rest :
  asks s ((E, q) :: rest)
  = ((ask E s q).1.1, (ask E s q).2) :: asks (ask E s q).1.2 rest.
Proof. cbn [asks]. destruct (ask E s q) as [[name s'] asked]. reflexivity. Qed.

Lemma asks_cached s steps q name :
  cached s q = Some name ->
  forall j E, steps !! j = Some (E, q) -> asks s steps !! j = Some (name, []).
Proof.
  revert s. induction steps as [|[E0 q0] rest IH]; intros s Hc j E Hj.
  - discriminate.
  - rewrite asks_cons. destruct j as [|j].
    + injection Hj as -> ->. rewrite (ask_hit E _ _ _ Hc). reflexivity.
    + cbn in Hj |- *. eapply IH; [apply ask_keeps, Hc | exact Hj].
Qed.

Lemma asks_found_then_cached s steps i j E q name :
  i < j ->
  steps !! i = Some (E, q) ->
  platform E q = Some name ->
  asks s steps !! i = Some (name, [id_of q]) ->
  forall E', steps !! j = Some (E', q) -> asks s steps !! j = Some (name, []).
Proof.
  revert s i j.
  induction steps as [|[E0 q0] rest IH]; intros s i j Hij Hi Hp Ha E' Hj.
  - discriminate.
  - rewrite asks_cons in Ha |- *.
    destruct j as [|j]; [lia|]. destruct i as [|i].
    + injection Hi as -> ->. cbn in Ha, Hj |- *. injection Ha as Hn Hk.
      eapply asks_cached; [|exact Hj].
      destruct (cached s q) as [n|] eqn:Hq.
      * rewrite (ask_hit E _ _ _ Hq) in Hk. discriminate.
      * destruct (ask_found E _ _ _ Hq Hp) as (s' & Heq & Hc).
        rewrite Heq. exact Hc.
    + cbn in Hi, Ha, Hj |- *. eapply (IH _ i j); eauto. lia.
Qed.

Lemma asks_not_found s steps q :
  cached s q = None ->
  (forall k E, steps !! k = Some (E, q) -> platform E q = None) ->
  forall k E, steps !! k = Some (E, q) ->
              asks s steps !! k = Some (QString.number (id_of q), [id_of q]).
Proof.
  revert s. induction steps as [|[E0 q0] rest IH]; intros s Hc Hall k E Hk.
  - discriminate.
  - rewrite asks_cons. destruct k as [|k].
    + injection Hk as -> ->.
      rewrite (ask_not_found E _ _ Hc (Hall 0 E eq_refl)). reflexivity.
    + cbn in Hk |- *. eapply IH; [| |exact Hk].
      * destruct (decide (q0 = q)) as [->|Hne].
        -- rewrite (ask_not_found E0 _ _ Hc (Hall 0 E0 eq_refl)). exact Hc.
        -- apply ask_other; assumption.
      * intros k' E' Hk'. apply (Hall (S k') E' Hk').
Qed.

End Caches.

(** C9: for user and group ids alike, once a lookup has asked the platform
    and got a name, every later lookup of that id returns this name and
    asks nothing, whatever the platform would answer by then; a lookup the
    platform cannot answer returns the id in decimal and leaves the cache as
    it was, so that as long as the platform has no name for an id that is
    not cached, every lookup of it asks again. *)
Theorem owner_names_cached_only_when_found (s : BupSlave)
    (steps : list (Env * NameQuery)) (q : NameQuery) :
  (forall i j E name,
      i < j ->
      steps !! i = Some (E, q) ->
      platform E q = Some name ->
      asks s steps !! i = Some (name, [id_of q]) ->
      forall E', steps !! j = Some (E', q) ->
                 asks s steps !! j = Some (name, []))
  /\ (cached s q = None ->
      (forall k E, steps !! k = Some (E, q) -> platform E q = None) ->
      forall k E, steps !! k = Some (E, q) ->
                  asks s steps !! k
                  = Some (QString.number (id_of q), [id_of q])).
Proof.
  split.
  - intros i j E name. apply asks_found_then_cached.
  - apply asks_not_found.
Qed.

Lemma owner_names_cached_only_when_found_witness :
  let steps :=
    [(World.env, UserName 1000); (World.env, GroupName 7);
     (World.env_later, UserName 1000); (World.env_later, GroupName 7)] in
  asks initial steps !! 2 = Some ("simon", [])
  /\ asks initial steps !! 3 = Some ("7", [7%N]).
Proof.
  intros steps. split.
  - apply (proj1 (owner_names_cached_only_when_found initial steps
                    (UserName 1000)) 0 2 World.env "simon")
      with (E' := World.env_later);
      [lia | reflexivity | reflexivity | reflexivity | reflexivity].
  - apply (proj2 (owner_names_cached_only_when_found initial steps
                    (GroupName 7)) eq_refl) with (E := World.env_later);
      [|reflexivity].
    intros k E Hk.
    do 4 (destruct k as [|k]; [injection Hk as <-; try reflexivity;
                                try discriminate|]).
    discriminate.
Defined.

(** ** The entry encoder *)

(** C5: the entry always carries the node's name, the type and permission
    bits, and the link destination exactly when the node is a symlink (it
    has a link target).  The
    node described is the node itself, except that above level 1 a symlink
    whose target resolves from its parent is replaced by that target (and
    kept when it does not resolve).  Size, MIME type, times, owner and
    group are present above level 0 only, and are those of the node
    described: at level 1 the symlink's own. *)
Theorem entry_detail_levels (E : Env) (r : Repository.t) (s : BupSlave)
    (pNode : NodePtr) (pDetails : Z) :
  let n := Repository.node r pNode in
  let e := (createUDSEntry E r s pNode pDetails).1 in
  let described :=
    if (1 <? pDetails)%Z && Node.is_symlink n
    then default pNode
           (resolve_from_parent (Repository.tree r) pNode
              (Node.mSymlinkTarget n))
    else pNode in
  let d := Repository.node r described in
  uds_value e UDS_NAME = Some (UStr (Node.objectName n))
  /\ uds_value e UDS_LINK_DEST
     = (if Node.is_symlink n then Some (UStr (Node.mSymlinkTarget n))
        else None)
  /\ uds_value e UDS_FILE_TYPE = Some (UNum (Z.land (Node.mMode d) S_IFMT))
  /\ uds_value e UDS_ACCESS
     = Some (UNum (Z.land (Node.mMode d) PERMISSION_BITS))
  /\ if (0 <? pDetails)%Z then
       uds_value e UDS_SIZE
       = Some (UNum (to_qint64
                       (if Node.is_File d
                        then File.size (Repository.file r described)
                        else 0%N)))
       /\ uds_value e UDS_MIME_TYPE = Some (UStr (Node.mMimeType d))
       /\ uds_value e UDS_ACCESS_TIME = Some (UNum (Node.mAtime d))
       /\ uds_value e UDS_MODIFICATION_TIME = Some (UNum (Node.mMtime d))
       /\ uds_value e UDS_USER
          = Some (UStr (ask E s (UserName (to_uint (Node.mUid d)))).1.1)
       /\ uds_value e UDS_GROUP
          = Some (UStr (ask E s (GroupName (to_uint (Node.mGid d)))).1.1)
     else
       forallb (fun f => negb (uds_contains e f))
         [UDS_SIZE; UDS_MIME_TYPE; UDS_ACCESS_TIME; UDS_MODIFICATION_TIME;
          UDS_USER; UDS_GROUP] = true.
Proof.
  intros n e described d.
  assert (described_node r pNode pDetails = described) as Hd.
  { unfold described_node, described, Node.is_symlink. fold n.
    destruct (negb (QString.isEmpty (Node.mSymlinkTarget n)));
      destruct (1 <? pDetails)%Z; cbn; try reflexivity. }
  subst e. unfold createUDSEntry. rewrite Hd. fold n d.
  unfold Node.is_symlink.
  destruct (0 <? pDetails)%Z.
  - cbn [ask]. unfold getUserName, getGroupName.
    destruct (lookupName (getpwuid E) (mUsercache s) _) as [[user uc] ua].
    cbn [mGroupcache set_mUsercache].
    destruct (lookupName (getgrgid E) (mGroupcache s) _) as [[group gc] ga].
    destruct (negb (QString.isEmpty (Node.mSymlinkTarget n)));
      cbn; repeat split; reflexivity.
  - destruct (negb (QString.isEmpty (Node.mSymlinkTarget n)));
      cbn; repeat split; reflexivity.
Qed.

(** ** The File contract *)

Lemma chunk_len_bounds f b :
  (File.mOffset f < File.size f)%N ->
  (1 <= File.chunk_len f b <= File.size f - File.mOffset f)%N.
Proof.
  intros H. unfold File.chunk_len.
  destruct b as [b|]; [destruct (0 <? b)%Z eqn:Hb|];
    try apply Z.ltb_lt in Hb; lia.
Qed.

Lemma error_code_not_end_of_data e : File.error_code e <> ERR_NO_CONTENT.
Proof. destruct e; discriminate. Qed.

(** The three ways a read can go. *)
Lemma read_cases f b :
  ((File.size f <= File.mOffset f)%N
   /\ File.read f b = (Err ERR_NO_CONTENT, [], f))
  \/ ((File.mOffset f < File.size f)%N
      /\ exists e,
           File.read_fault f (File.mOffset f) = Some e
           /\ File.read f b
              = (Err (File.error_code e), [],
                 File.at_offset f (File.read_lands f (File.mOffset f))))
  \/ ((File.mOffset f < File.size f)%N
      /\ exists chunk,
           File.read f b
           = (Ok0, chunk,
              File.at_offset f (File.mOffset f + File.chunk_len f b))
           /\ N.of_nat (length chunk) = File.chunk_len f b).
Proof.
  unfold File.read.
  destruct (File.size f <=? File.mOffset f)%N eqn:Hs.
  - left. apply N.leb_le in Hs. auto.
  - right. apply N.leb_gt in Hs.
    destruct (File.read_fault f (File.mOffset f)) as [e|]; [left; eauto|right].
    split; [exact Hs|]. eexists; split; [reflexivity|].
    pose proof (chunk_len_bounds f b Hs) as Hb.
    rewrite length_take, length_drop. unfold File.size in *. lia.
Qed.

(** A read that hands out a chunk met no failure of the store. *)
Lemma read_ok_no_fault f b chunk f' :
  File.read f b = (Ok0, chunk, f') ->
  (File.mOffset f < File.size f)%N
  /\ File.read_fault f (File.mOffset f) = None
  /\ f' = File.at_offset f (File.mOffset f + File.chunk_len f b)
  /\ chunk = take (N.to_nat (File.chunk_len f b))
               (drop (N.to_nat (File.mOffset f)) (File.bytes f)).
Proof.
  unfold File.read.
  destruct (File.size f <=? File.mOffset f)%N eqn:Hs; [discriminate|].
  apply N.leb_gt in Hs.
  destruct (File.read_fault f (File.mOffset f)); [discriminate|].
  intros [= <- <-]. auto.
Qed.

(** The two ways a seek can go. *)
Lemma seek_cases f o :
  (File.seek f o = (Ok0, File.at_offset f o)
   /\ (o <= File.size f)%N /\ File.seek_fault f o = false)
  \/ (File.seek f o
      = (Err ERR_COULD_NOT_SEEK,
         File.at_offset f (File.seek_lands f (File.mOffset f) o))
      /\ ((File.size f < o)%N \/ File.seek_fault f o = true)).
Proof.
  unfold File.seek. destruct (File.size f <? o)%N eqn:Hs; cbn.
  - apply N.ltb_lt in Hs. auto.
  - apply N.ltb_ge in Hs. destruct (File.seek_fault f o); auto.
Qed.

Lemma seek_size f o : File.size (File.seek f o).2 = File.size f.
Proof. destruct (seek_cases f o) as [[-> _]|[-> _]]; reflexivity. Qed.

(** Neither call changes what the file holds or how the store behaves. *)
Lemma seek_same_store f o :
  exists p, (File.seek f o).2 = File.at_offset f p.
Proof. destruct (seek_cases f o) as [[-> _]|[-> _]]; eauto. Qed.

(** ** The loop of get *)

Lemma get_loop_total fuel path f p :
  N.to_nat (File.size f - File.mOffset f) < fuel ->
  exists res, get_loop fuel path f p = Some res.
Proof.
  revert f p. induction fuel as [|fuel IH]; intros f p Hfuel; [lia|].
  cbn [get_loop].
  destruct (read_cases f None)
    as [[_ ->]|[[_ (e & _ & ->)]|[Hlt (chunk & -> & Hlen)]]];
    [eauto | destruct (File.error_code e); eauto |].
  pose proof (chunk_len_bounds f None Hlt) as Hb.
  edestruct (IH (File.at_offset f (File.mOffset f + File.chunk_len f None)))
    as [[[sigs cs] f'] ->]; [|eauto].
  cbn. change (File.size (File.at_offset f ?o)) with (File.size f). lia.
Qed.

Lemma KioError_eqb_eq a b : KioError_eqb a b = true -> a = b.
Proof.
  destruct a, b; try (reflexivity || discriminate).
  cbn. intros H. apply Z.eqb_eq in H. congruence.
Qed.

(** An error the loop of get reports carries the code a read of the store
    failed with, at or after the position the loop started from. *)
Lemma get_loop_errors fuel path f p sigs cs f' code :
  get_loop fuel path f p = Some (sigs, cs, f') ->
  emits_error code sigs = true ->
  exists o e,
    (File.mOffset f <= o)%N /\ File.read_fault f o = Some e
    /\ code = File.error_code e.
Proof.
  revert f p sigs cs f'.
  induction fuel as [|fuel IH]; intros f p sigs cs f' H He; [discriminate|].
  cbn [get_loop] in H.
  destruct (read_cases f None)
    as [[_ Hr]|[[_ (e & Hf & Hr)]|[_ (chunk & Hr & _)]]];
    rewrite Hr in H.
  - injection H as <- _ _. discriminate.
  - exists (File.mOffset f), e. split; [lia|]. split; [exact Hf|].
    pose proof (error_code_not_end_of_data e) as Hne.
    destruct (File.error_code e) eqn:Hcode; try contradiction;
      injection H as <- _ _; cbn in He; rewrite orb_false_r in He;
      symmetry; apply KioError_eqb_eq, He.
  - destruct (get_loop fuel _ _ _) as [[[sigs0 cs0] f0]|] eqn:Hl;
      [|discriminate].
    injection H as <- _ _.
    destruct (IH _ _ _ _ _ Hl He) as (o & e & Ho & Hf & Hcode).
    exists o, e. cbn [File.mOffset File.at_offset] in Ho.
    split; [lia|]. auto.
Qed.

(** A transfer that finishes is a stream from the processed size it
    started with, as long as the counter cannot wrap. *)
Lemma get_loop_stream fuel path f p sigs cs f' :
  get_loop fuel path f p = Some (sigs, cs, f') ->
  (p <= File.mOffset f)%N -> (File.size f < two64)%N ->
  existsb is_Finished sigs = true ->
  stream_from p sigs.
Proof.
  revert f p sigs cs f'. induction fuel as [|fuel IH];
    intros f p sigs cs f' H Hp Hsz Hfin; [discriminate|].
  cbn [get_loop] in H.
  destruct (read_cases f None)
    as [[_ Hr]|[[_ (e & _ & Hr)]|[Hlt (chunk & Hr & Hlen)]]];
    rewrite Hr in H.
  - injection H as <- _ _. constructor.
  - pose proof (error_code_not_end_of_data e) as Hne.
    destruct (File.error_code e); try contradiction;
      injection H as <- _ _; discriminate.
  - destruct (get_loop fuel _ _ _) as [[[sigs0 cs0] f0]|] eqn:Hl;
      [|discriminate].
    injection H as <- _ _.
    pose proof (chunk_len_bounds f None Hlt) as Hb.
    assert (add64 p (N.of_nat (length chunk)) = (p + N.of_nat (length chunk))%N)
      as Hadd.
    { unfold add64. apply N.mod_small.
      change (File.size (File.at_offset f ?o)) with (File.size f) in *.
      rewrite Hlen. clear Hfin Hl. unfold two64 in *.
      change (2 ^ 64)%N with 18446744073709551616%N in *. lia. }
    rewrite Hadd in *.
    apply stream_chunk.
    + destruct chunk; [cbn in Hlen; lia | discriminate].
    + eapply IH; [exact Hl | | exact Hsz | exact Hfin].
      cbn [File.mOffset File.at_offset]. lia.
Qed.

(** ** get, once the path has led to a file *)

Lemma get_loop_calls fuel path f p sigs cs f' :
  get_loop fuel path f p = Some (sigs, cs, f') -> seeks cs = [].
Proof.
  revert f p sigs cs f'.
  induction fuel as [|fuel IH]; intros f p sigs cs f' H; [discriminate|].
  cbn [get_loop] in H.
  destruct (File.read f None) as [[rv chunk] f1].
  destruct rv as [|e].
  - destruct (get_loop fuel _ _ _) as [[[sigs0 cs0] f0]|] eqn:Hl;
      [|discriminate].
    injection H as _ <- _. cbn. eapply IH, Hl.
  - destruct e; injection H as _ <- _; reflexivity.
Qed.

Lemma get_on_file E s pUrl lResumeOffset rest s1 r lNode :
  checkCorrectRepository E s pUrl = (true, rest, s1) ->
  mRepository s1 = Some r ->
  Repository.resolve r rest true = Some lNode ->
  Node.is_File (Repository.node r lNode) = true ->
  forall rsigs rcalls base f1,
    try_resume E (File.seek (Repository.file r lNode) 0).2 lResumeOffset
    = (rsigs, rcalls, base, f1) ->
    exists sigs cs f2,
      get_loop (reads_left f1) (QString.join rest) f1 base = Some (sigs, cs, f2)
      /\ get E s pUrl lResumeOffset
         = reply ([MimeType (Node.mMimeType (Repository.node r lNode));
                   TotalSize (File.size (Repository.file r lNode))]
                  ++ rsigs ++ sigs)
                 (CallSeek 0 :: rcalls ++ cs)
                 (set_mRepository s1 (Some (Repository.set_file r lNode f2))).
Proof.
  intros Hc Hr Hres Hfile rsigs rcalls base f1 Htry.
  destruct (get_loop_total (reads_left f1) (QString.join rest) f1 base)
    as [[[sigs cs] f2] Hl]; [unfold reads_left; lia|].
  exists sigs, cs, f2. split; [exact Hl|].
  unfold get. rewrite Hc. cbn [negb]. rewrite Hr, Hres, Hfile. cbn [negb].
  destruct (File.seek (Repository.file r lNode) 0) as [rv f0].
  cbn [snd] in Htry. rewrite Htry, Hl. reflexivity.
Qed.

(** ** Type mismatch and not-found *)

Lemma list_entries_errors E r s children lDetails code :
  emits_error code (list_entries E r s children lDetails).1 = false.
Proof.
  revert s. induction children as [|child tl IH]; intros s; [reflexivity|].
  cbn [list_entries].
  destruct (createUDSEntry E r s child lDetails) as [lEntry s1].
  specialize (IH s1).
  destruct (list_entries E r s1 tl lDetails) as [sigs s2]. exact IH.
Qed.

Lemma emits_error_app code a b :
  emits_error code (a ++ b) = emits_error code a || emits_error code b.
Proof. apply existsb_app. Qed.

Lemma at_offset_self f : File.at_offset f (File.mOffset f) = f.
Proof. destruct f; reflexivity. Qed.

(** The resume block leaves the file what it was, up to its position. *)
Lemma try_resume_same_store E f lResumeOffset rsigs rcalls base f1 :
  try_resume E f lResumeOffset = (rsigs, rcalls, base, f1) ->
  exists p, f1 = File.at_offset f p.
Proof.
  unfold try_resume. intros H.
  destruct (negb (QString.isEmpty lResumeOffset));
    [|injection H as _ _ _ <-; eexists; symmetry; apply at_offset_self].
  destruct (toULongLong E lResumeOffset) as [lOffset|];
    [|injection H as _ _ _ <-; eexists; symmetry; apply at_offset_self].
  destruct (lOffset <? File.size f)%N;
    [|injection H as _ _ _ <-; eexists; symmetry; apply at_offset_self].
  destruct (seek_same_store f lOffset) as [p Hp].
  destruct (File.seek f lOffset) as [rv f']. cbn [snd] in Hp. subst f'.
  destruct (is_ok rv); injection H as _ _ _ <-; eauto.
Qed.

Lemma try_resume_no_error E f lResumeOffset code :
  emits_error code (try_resume E f lResumeOffset).1.1.1 = false.
Proof.
  unfold try_resume. repeat case_match; reflexivity.
Qed.

Lemma error_code_not_found e :
  File.error_code e = ERR_DOES_NOT_EXIST -> e = ERR_DOES_NOT_EXIST.
Proof. destruct e; (reflexivity || discriminate). Qed.

(** C6, as amended: once the locator has found the repository, get,
    listDir and an open that does not ask for write mode reply with
    not-found alone when the path resolves to no node.  A path that resolves
    to a node that is not a file (a directory, say) makes get and such an
    open fail with IS_DIRECTORY; one that resolves to a node that is not a
    directory makes listDir fail with IS_FILE.  An open that asks for write
    mode is refused with CANNOT_OPEN_FOR_WRITING whatever the path.  For a
    path that resolves, open and listDir never report not-found, and get
    does so only to pass on that very code from a failed read of the
    store. *)
Theorem wrong_kind_is_type_mismatch (E : Env) (s : BupSlave) (pUrl : QUrl)
    (resume details : string) (pMode : Z) (rest : list string)
    (s1 : BupSlave) :
  checkCorrectRepository E s pUrl = (true, rest, s1) ->
  let reading := (Z.land pMode QIODevice_WriteOnly =? 0)%Z in
  exists r rg ro rl,
    mRepository s1 = Some r
    /\ get E s pUrl resume = Replied rg
    /\ open E s pUrl pMode = Replied ro
    /\ listDir E s pUrl details = Replied rl
    /\ (reading = false ->
        emitted ro
        = [Error ERR_CANNOT_OPEN_FOR_WRITING (toDisplayString pUrl)])
    /\ match Repository.resolve r rest true with
       | Some lNode =>
           let n := Repository.node r lNode in
           (Node.is_File n = false ->
            emitted rg = [Error ERR_IS_DIRECTORY (QString.join rest)]
            /\ (reading = true ->
                emitted ro = [Error ERR_IS_DIRECTORY (QString.join rest)]))
           /\ (Node.is_Directory n = false ->
               emitted rl = [Error ERR_IS_FILE (QString.join rest)])
           /\ (emits_error ERR_DOES_NOT_EXIST (emitted rg) = true ->
               Node.is_File n = true
               /\ exists o,
                    File.read_fault (Repository.file r lNode) o
                    = Some ERR_DOES_NOT_EXIST)
           /\ emits_error ERR_DOES_NOT_EXIST (emitted ro) = false
           /\ emits_error ERR_DOES_NOT_EXIST (emitted rl) = false
       | None =>
           emitted rg = [Error ERR_DOES_NOT_EXIST (QString.join rest)]
           /\ (reading = true ->
               emitted ro = [Error ERR_DOES_NOT_EXIST (QString.join rest)])
           /\ emitted rl = [Error ERR_DOES_NOT_EXIST (QString.join rest)]
       end.
Proof.
  intros Hc reading.
  destruct (checkCorrectRepository_true E _ _ _ _ Hc) as (r & Hr & _).
  exists r.
  (* open *)
  assert (exists ro,
             open E s pUrl pMode = Replied ro
             /\ (reading = false ->
                 emitted ro
                 = [Error ERR_CANNOT_OPEN_FOR_WRITING (toDisplayString pUrl)])
             /\ match Repository.resolve r rest true with
                | Some lNode =>
                    (Node.is_File (Repository.node r lNode) = false ->
                     reading = true ->
                     emitted ro = [Error ERR_IS_DIRECTORY (QString.join rest)])
                    /\ emits_error ERR_DOES_NOT_EXIST (emitted ro) = false
                | None =>
                    reading = true ->
                    emitted ro = [Error ERR_DOES_NOT_EXIST (QString.join rest)]
                end)
    as (ro & Ho & Hw & Hko).
  { unfold open. fold reading. destruct reading; cbn [negb].
    - rewrite Hc. cbn [negb]. rewrite Hr.
      destruct (Repository.resolve r rest true) as [lNode|].
      + destruct (Node.is_File (Repository.node r lNode)); cbn [negb].
        * destruct (File.seek _ 0) as [rv f]. destruct rv; cbn [is_ok negb];
            eexists; (split; [reflexivity|]); cbn;
            (split; [discriminate|]); (split; [discriminate|reflexivity]).
        * eexists; (split; [reflexivity|]); cbn.
          split; [discriminate|]. split; reflexivity.
      + eexists; (split; [reflexivity|]); cbn.
        split; [discriminate|reflexivity].
    - eexists; (split; [reflexivity|]). split; [reflexivity|].
      destruct (Repository.resolve r rest true); cbn;
        [split; [discriminate|reflexivity] | discriminate]. }
  (* listDir *)
  assert (exists rl,
             listDir E s pUrl details = Replied rl
             /\ match Repository.resolve r rest true with
                | Some lNode =>
                    (Node.is_Directory (Repository.node r lNode) = false ->
                     emitted rl = [Error ERR_IS_FILE (QString.join rest)])
                    /\ emits_error ERR_DOES_NOT_EXIST (emitted rl) = false
                | None =>
                    emitted rl = [Error ERR_DOES_NOT_EXIST (QString.join rest)]
                end)
    as (rl & Hl & Hkl).
  { unfold listDir. rewrite Hc. cbn [negb]. rewrite Hr.
    destruct (Repository.resolve r rest true) as [lNode|];
      [|eexists; split; reflexivity].
    destruct (Node.is_Directory (Repository.node r lNode)); cbn [negb].
    - match goal with
      | |- context [list_entries E ?r' ?s' ?c ?d] =>
          pose proof (list_entries_errors E r' s' c d ERR_DOES_NOT_EXIST) as He;
          destruct (list_entries E r' s' c d) as [sigs s2]
      end.
      eexists; (split; [reflexivity|]). split; [discriminate|].
      cbn [emitted]. rewrite emits_error_app. cbn [fst] in He.
      rewrite He. reflexivity.
    - eexists; (split; [reflexivity|]); cbn; auto. }
  (* get *)
  assert (exists rg,
             get E s pUrl resume = Replied rg
             /\ match Repository.resolve r rest true with
                | Some lNode =>
                    (Node.is_File (Repository.node r lNode) = false ->
                     emitted rg = [Error ERR_IS_DIRECTORY (QString.join rest)])
                    /\ (emits_error ERR_DOES_NOT_EXIST (emitted rg) = true ->
                        Node.is_File (Repository.node r lNode) = true
                        /\ exists o,
                             File.read_fault (Repository.file r lNode) o
                             = Some ERR_DOES_NOT_EXIST)
                | None =>
                    emitted rg = [Error ERR_DOES_NOT_EXIST (QString.join rest)]
                end)
    as (rg & Hg & Hkg).
  { destruct (Repository.resolve r rest true) as [lNode|] eqn:Hres.
    2:{ unfold get. rewrite Hc. cbn [negb]. rewrite Hr, Hres.
        eexists; split; reflexivity. }
    destruct (Node.is_File (Repository.node r lNode)) eqn:Hfile.
    - destruct (try_resume E (File.seek (Repository.file r lNode) 0).2 resume)
        as [[[rsigs rcalls] base] f1] eqn:Htry.
      destruct (get_on_file E s pUrl resume rest s1 r lNode Hc Hr Hres Hfile
                  _ _ _ _ Htry) as (sigs & cs & f2 & Hloop & ->).
      eexists; (split; [reflexivity|]). split; [discriminate|].
      cbn [emitted]. rewrite !emits_error_app.
      pose proof (try_resume_no_error E
                    (File.seek (Repository.file r lNode) 0).2 resume
                    ERR_DOES_NOT_EXIST) as Hno.
      rewrite Htry in Hno. cbn [fst] in Hno. rewrite Hno.
      cbn [emits_error existsb orb]. intros He.
      split; [reflexivity|].
      destruct (get_loop_errors _ _ _ _ _ _ _ _ Hloop He)
        as (o & e & _ & Hf & Hcode).
      symmetry in Hcode. apply error_code_not_found in Hcode. subst e.
      exists o.
      destruct (try_resume_same_store _ _ _ _ _ _ _ Htry) as [p1 ->].
      destruct (seek_same_store (Repository.file r lNode) 0) as [p0 Hp0].
      rewrite Hp0 in Hf. exact Hf.
    - unfold get. rewrite Hc. cbn [negb]. rewrite Hr, Hres, Hfile.
      eexists; (split; [reflexivity|]); cbn.
      split; [reflexivity|discriminate]. }
  exists rg, ro, rl.
  repeat (split; [assumption|]).
  destruct (Repository.resolve r rest true) as [lNode|]; cbn zeta.
  - destruct Hko as [Hko1 Hko2], Hkl as [Hkl1 Hkl2], Hkg as [Hkg1 Hkg2].
    split; [intros Hn; split; [exact (Hkg1 Hn) | exact (Hko1 Hn)]|].
    split; [exact Hkl1|]. split; [exact Hkg2|]. split; assumption.
  - split; [exact Hkg|]. split; assumption.
Qed.

Lemma wrong_kind_is_type_mismatch_witness :
  exists rg ro rl,
    get World.env initial (World.url "/home/u/b1/docs") EmptyString = Replied rg
    /\ open World.env initial (World.url "/home/u/b1/docs") 1 = Replied ro
    /\ listDir World.env initial (World.url "/home/u/b1/docs/report.txt") EmptyString
       = Replied rl
    /\ emitted rg = [Error ERR_IS_DIRECTORY "docs"]
    /\ emitted ro = [Error ERR_IS_DIRECTORY "docs"]
    /\ emitted rl = [Error ERR_IS_FILE "docs/report.txt"].
Proof.
  destruct (wrong_kind_is_type_mismatch World.env initial
              (World.url "/home/u/b1/docs") EmptyString EmptyString 1 ["docs"]
              (mkSlave ∅ ∅ (Some (Repository.mk 0 "/home/u/b1/" World.b1 [] ∅))
                 None 1)
              eq_refl)
    as (r & rg & ro & rl0 & Hr & Hg & Ho & _ & _ & Hk).
  cbn in Hr. injection Hr as Hr. subst r.
  cbn in Hk. destruct Hk as (Hg1 & _).
  destruct (Hg1 eq_refl) as [Hg2 Ho2].
  destruct (wrong_kind_is_type_mismatch World.env initial
              (World.url "/home/u/b1/docs/report.txt") EmptyString EmptyString 1
              ["docs"; "report.txt"]
              (mkSlave ∅ ∅ (Some (Repository.mk 0 "/home/u/b1/" World.b1 [] ∅))
                 None 1)
              eq_refl)
    as (r & rg' & ro' & rl & Hr & _ & _ & Hl & _ & Hk).
  cbn in Hr. injection Hr as Hr. subst r.
  cbn in Hk. destruct Hk as (_ & Hl1 & _).
  exists rg, ro, rl. auto 10.
Defined.

(** C6 as stated fails for an open that asks for write mode: the open of a
    directory is then refused for the mode, not as a type mismatch. *)
Lemma open_for_writing_is_not_type_mismatch :
  exists s1 r lNode ro,
    checkCorrectRepository World.env initial (World.url "/home/u/b1/docs")
    = (true, ["docs"], s1)
    /\ mRepository s1 = Some r
    /\ Repository.resolve r ["docs"] true = Some lNode
    /\ Node.is_Directory (Repository.node r lNode) = true
    /\ open World.env initial (World.url "/home/u/b1/docs") 2 = Replied ro
    /\ emitted ro
       = [Error ERR_CANNOT_OPEN_FOR_WRITING "bup:///home/u/b1/docs"]
    /\ emits_error ERR_IS_DIRECTORY (emitted ro) = false.
Proof. do 4 eexists. repeat split. Qed.

(** What get passes on from the store: a piece of [torn] is missing, and
    the client is told that the path does not exist, after two bytes of
    it. *)
Example get_passes_on_the_code_of_the_store :
  transcript World.env initial [ReqGet (World.url "/home/u/b1/torn") EmptyString]
  = [inl [MimeType "text/plain"; TotalSize 4; Data [x61; x62];
          ProcessedSize 2; Error ERR_DOES_NOT_EXIST "torn"]].
Proof. reflexivity. Qed.

(** ** The open-file slot *)

Example failed_open_keeps_the_open_file :
  transcript World.env initial
    [ReqOpen (World.url "/home/u/b1/docs/report.txt") 1;
     ReqOpen (World.url "/home/u/b1/docs") 1;
     ReqOpen (World.url "/home/u/b1/docs/empty") 2;
     ReqRead 2]
  = [inl [MimeType "text/plain"; TotalSize 3; Position 0; Opened];
     inl [Error ERR_IS_DIRECTORY "docs"];
     inl [Error ERR_CANNOT_OPEN_FOR_WRITING "bup:///home/u/b1/docs/empty"];
     inl [Data [x68; x69]; Data []; Finished]].
Proof. reflexivity. Qed.

(** open always replies. *)
Lemma open_replies (E : Env) (s : BupSlave) (pUrl : QUrl) (pMode : Z) :
  exists rp, open E s pUrl pMode = Replied rp.
Proof.
  unfold open.
  destruct (negb (Z.land pMode QIODevice_WriteOnly =? 0)%Z); [eexists; reflexivity|].
  destruct (checkCorrectRepository E s pUrl) as [[ok rest] s1] eqn:Hc.
  destruct ok; cbn [negb]; [|eexists; reflexivity].
  destruct (checkCorrectRepository_true E _ _ _ _ Hc) as (r & Hr & _).
  rewrite Hr. unfold reply. repeat case_match; eexists; reflexivity.
Qed.

(** open always replies.  A reply that carries an error carries nothing
    else, its code is one of the five checks of open (write mode, no
    repository, path not resolved, not a file, rewind failed), and
    [mOpenFile] is what it was before the request.  A reply without error
    ends with [opened] and leaves in [mOpenFile] the node just resolved, in
    the repository now held. *)
Lemma open_replaces_slot_only_on_success (E : Env) (s : BupSlave)
    (pUrl : QUrl) (pMode : Z) :
  exists rp,
    open E s pUrl pMode = Replied rp
    /\ if failed rp then
         (exists code text,
             emitted rp = [Error code text]
             /\ In code [ERR_CANNOT_OPEN_FOR_WRITING; ERR_SLAVE_DEFINED;
                         ERR_DOES_NOT_EXIST; ERR_IS_DIRECTORY;
                         ERR_CANNOT_OPEN_FOR_READING])
         /\ mOpenFile (after rp) = mOpenFile s
       else
         exists r rest lNode mime total,
           emitted rp = [MimeType mime; TotalSize total; Position 0; Opened]
           /\ (checkCorrectRepository E s pUrl).1 = (true, rest)
           /\ mRepository (after rp) = Some r
           /\ Repository.resolve r rest true = Some lNode
           /\ Node.is_File (Repository.node r lNode) = true
           /\ mOpenFile (after rp) = Some (mkFilePtr (Repository.id r) lNode).
Proof.
  unfold open.
  destruct (negb (Z.land pMode QIODevice_WriteOnly =? 0)%Z).
  { eexists; split; [reflexivity|]. cbn. split; [|reflexivity].
    do 2 eexists; split; [reflexivity|]. cbn; auto. }
  destruct (checkCorrectRepository E s pUrl) as [[ok rest] s1] eqn:Hc.
  destruct (checkCorrectRepository_frame E _ _ _ _ _ Hc) as (Hopen & _ & _).
  destruct ok; cbn [negb].
  2:{ eexists; split; [reflexivity|]. cbn. split; [|exact Hopen].
      do 2 eexists; split; [reflexivity|]. cbn; auto. }
  destruct (checkCorrectRepository_true E _ _ _ _ Hc) as (r & Hr & _).
  rewrite Hr.
  destruct (Repository.resolve r rest true) as [lNode|] eqn:Hres.
  2:{ eexists; split; [reflexivity|]. cbn. split; [|exact Hopen].
      do 2 eexists; split; [reflexivity|]. cbn; auto. }
  destruct (Node.is_File (Repository.node r lNode)) eqn:Hfile; cbn [negb].
  2:{ eexists; split; [reflexivity|]. cbn. split; [|exact Hopen].
      do 2 eexists; split; [reflexivity|]. cbn; auto 10. }
  destruct (File.seek (Repository.file r lNode) 0) as [rv f].
  destruct rv as [|e]; cbn [is_ok negb].
  - eexists; split; [reflexivity|]. cbn.
    exists (Repository.set_file r lNode f), rest, lNode. do 2 eexists.
    repeat split; assumption.
  - eexists; split; [reflexivity|]. cbn. split; [|exact Hopen].
    do 2 eexists; split; [reflexivity|]. cbn; auto 10.
Qed.


(** C10, where the code departs from it: a failed open leaves [mOpenFile]
    as it was, but not the file behind it.  [report.txt] of [/home/u/b1/]
    is open.  An open that fails
    on a URL outside that repository (nothing at [/srv/b2/missing], a
    directory at [/srv/b2], no repository at [/nowhere/x]) has gone
    through the locator, which deleted the repository of the open file:
    [mOpenFile] still holds the node of the repository deleted, and the
    read or seek that follows goes through it.  An open that fails inside
    the repository held, or for the write mode, leaves the open file
    usable. *)
Theorem failed_open_outside_strands_the_open_file :
  let report := ReqOpen (World.url "/home/u/b1/docs/report.txt") 1 in
  let opened := [MimeType "text/plain"; TotalSize 3; Position 0; Opened] in
  transcript World.env initial
    [report; ReqOpen (World.url "/srv/b2/missing") 1; ReqRead 2]
  = [inl opened; inl [Error ERR_DOES_NOT_EXIST "missing"]; inr (StaleFile 0)]
  /\ transcript World.env initial
       [report; ReqOpen (World.url "/srv/b2") 1; ReqSeek 0]
     = [inl opened; inl [Error ERR_IS_DIRECTORY EmptyString];
        inr (StaleFile 0)]
  /\ transcript World.env initial
       [report; ReqOpen (World.url "/nowhere/x") 1; ReqRead 2]
     = [inl opened; inl [no_repository (World.url "/nowhere/x")];
        inr (StaleFile 0)]
  /\ (let s :=
        session World.env initial
          [report; ReqOpen (World.url "/srv/b2/missing") 1] in
      mOpenFile s = Some (mkFilePtr 0 2)
      /\ (Repository.id <$> mRepository s) = Some 1
      /\ owner_of s (mkFilePtr 0 2) = None)
  /\ transcript World.env initial
       [report; ReqOpen (World.url "/home/u/b1/docs") 1;
        ReqOpen (World.url "/srv/b2/missing") 2; ReqRead 2]
     = [inl opened; inl [Error ERR_IS_DIRECTORY "docs"];
        inl [Error ERR_CANNOT_OPEN_FOR_WRITING "bup:///srv/b2/missing"];
        inl [Data [x68; x69]; Data []; Finished]].
Proof. repeat split. Qed.

(** ** Resuming a transfer *)

Example get_resumes_at_the_offset :
  transcript World.env initial
    [ReqGet (World.url "/home/u/b1/docs/report.txt") "1"]
  = [inl [MimeType "text/plain"; TotalSize 3; CanResume;
          Data [x69; x0a]; ProcessedSize 3;
          Data []; ProcessedSize 3; Finished]].
Proof. reflexivity. Qed.

Example get_ignores_an_offset_at_the_size :
  transcript World.env initial
    [ReqGet (World.url "/home/u/b1/docs/report.txt") "3"]
  = transcript World.env initial
      [ReqGet (World.url "/home/u/b1/docs/report.txt") EmptyString].
Proof. reflexivity. Qed.

(** The store cannot position [worn] at offset 2 and leaves it at offset 1:
    the transfer goes on from there, counting from 0. *)
Example get_reads_on_from_where_the_failed_seek_left :
  transcript World.env initial [ReqGet (World.url "/home/u/b1/docs/worn") "2"]
  = [inl [MimeType "text/plain"; TotalSize 4;
          Data [x62; x63; x64]; ProcessedSize 3;
          Data []; ProcessedSize 3; Finished]].
Proof. reflexivity. Qed.

Lemma get_loop_no_resume fuel path f p sigs cs f' :
  get_loop fuel path f p = Some (sigs, cs, f') ->
  existsb is_CanResume sigs = false.
Proof.
  revert f p sigs cs f'.
  induction fuel as [|fuel IH]; intros f p sigs cs f' H; [discriminate|].
  cbn [get_loop] in H.
  destruct (File.read f None) as [[rv chunk] f1].
  destruct rv as [|e].
  - destruct (get_loop fuel _ _ _) as [[[sigs0 cs0] f0]|] eqn:Hl;
      [|discriminate].
    injection H as <- _ _. cbn. eapply IH, Hl.
  - destruct e; injection H as <- _ _; reflexivity.
Qed.

(** C3, where the code departs from it: get drops the result of its rewind
    [lFile->seek(0)] and does not rewind after a resume seek that failed, so
    a failed resume seek is not followed by a read of the whole file from
    position 0.  [/arc/log] has
    four bytes and its store cannot position it.  A first get reads it to
    its end.  A second get carries the resume offset 1, which parses and is
    below the size: the rewind fails, the seek to 1 is attempted and fails,
    resume-accepted is not signalled, and the file is read from where it
    stood, its end: the reply announces four bytes, delivers none of them
    and ends with [finished]. *)
Theorem failed_resume_seek_is_not_a_full_read :
  let pUrl := World.url "/arc/log" in
  let s := session Stuck.env initial [ReqGet pUrl EmptyString] in
  transcript Stuck.env initial [ReqGet pUrl EmptyString]
  = [inl [MimeType "text/plain"; TotalSize 4;
          Data [x6c; x6f; x67; x0a]; ProcessedSize 4;
          Data []; ProcessedSize 4; Finished]]
  /\ toULongLong Stuck.env "1" = Some 1%N
  /\ exists rp,
       get Stuck.env s pUrl "1" = Replied rp
       /\ emitted rp
          = [MimeType "text/plain"; TotalSize 4;
             Data []; ProcessedSize 0; Finished]
       /\ calls rp = [CallSeek 0; CallSeek 1; CallRead None]
       /\ existsb is_CanResume (emitted rp) = false
       /\ concat (data_chunks (emitted rp)) = []
       /\ File.bytes Stuck.log_file = [x6c; x6f; x67; x0a].
Proof.
  intros pUrl s. split; [reflexivity|]. split; [reflexivity|].
  eexists. split; [vm_compute; reflexivity|]. repeat split.
Qed.

(** ** Progress reports of a transfer *)

Lemma last_cons_any (a d d' : N) (l : list N) :
  List.last (a :: l) d = List.last (a :: l) d'.
Proof.
  revert a. induction l as [|b l IH]; intros a; [reflexivity|].
  change (List.last (b :: l) d = List.last (b :: l) d'). apply IH.
Qed.

Lemma last_cons_default (a base : N) (l : list N) :
  List.last (a :: l) base = List.last l a.
Proof.
  destruct l as [|b l]; [reflexivity|].
  change (List.last (b :: l) base = List.last (b :: l) a).
  apply last_cons_any.
Qed.

Lemma stream_from_sizes base sigs :
  stream_from base sigs ->
  exists ps,
    processed_sizes sigs = ps ++ [List.last ps base]
    /\ strictly_increasing (base :: ps) = true.
Proof.
  induction 1 as [base|base chunk rest Hne _ (ps & Hps & Hinc)].
  - exists []. split; reflexivity.
  - exists ((base + N.of_nat (length chunk))%N :: ps). split.
    + cbn [processed_sizes]. rewrite Hps, last_cons_default. reflexivity.
    + cbn [strictly_increasing] in Hinc |- *. rewrite Hinc, andb_true_r.
      apply N.ltb_lt. destruct chunk; [contradiction | cbn; lia].
Qed.

(** C8, as amended: a get that finishes emits the MIME type, the total
    size, resume-accepted if the resume was accepted, then the stream: the
    chunks, none of them empty, each followed by the processed size so far,
    and at the end the empty chunk, the processed size once more and
    [finished].  The reports after the chunks increase strictly from the
    size the transfer started with; the last report repeats the one before
    it. *)
Theorem get_progress_increases_then_repeats (E : Env) (s : BupSlave)
    (pUrl : QUrl) (lResumeOffset : string) (rp : Reply) :
  get E s pUrl lResumeOffset = Replied rp ->
  succeeded rp = true ->
  (forall n, In (TotalSize n) (emitted rp) -> (n < two64)%N) ->
  exists mime total (resumed : bool) base tail ps,
    emitted rp
    = [MimeType mime; TotalSize total]
      ++ (if resumed then [CanResume] else []) ++ tail
    /\ (if resumed then toULongLong E lResumeOffset = Some base
        else base = 0%N)
    /\ stream_from base tail
    /\ processed_sizes (emitted rp) = ps ++ [List.last ps base]
    /\ strictly_increasing (base :: ps) = true.
Proof.
  intros Hget Hok Hfits.
  destruct (checkCorrectRepository E s pUrl) as [[ok rest] s1] eqn:Hc.
  destruct ok.
  2:{ unfold get in Hget. rewrite Hc in Hget. injection Hget as <-.
      discriminate. }
  destruct (checkCorrectRepository_true E _ _ _ _ Hc) as (r & Hr & _).
  destruct (Repository.resolve r rest true) as [lNode|] eqn:Hres.
  2:{ unfold get in Hget. rewrite Hc in Hget. cbn [negb] in Hget.
      rewrite Hr, Hres in Hget. injection Hget as <-. discriminate. }
  destruct (Node.is_File (Repository.node r lNode)) eqn:Hfile.
  2:{ unfold get in Hget. rewrite Hc in Hget. cbn [negb] in Hget.
      rewrite Hr, Hres, Hfile in Hget. injection Hget as <-. discriminate. }
  set (lFile := Repository.file r lNode) in *.
  set (f0 := (File.seek lFile 0).2).
  destruct (try_resume E f0 lResumeOffset) as [[[rsigs rcalls] base] f1]
    eqn:Htry.
  destruct (get_on_file E s pUrl lResumeOffset rest s1 r lNode Hc Hr Hres
              Hfile _ _ _ _ Htry) as (sigs & cs & f2 & Hloop & Hget').
  rewrite Hget' in Hget. injection Hget as <-. cbn [emitted] in *.
  fold lFile in Hfits, Hok |- *.
  assert (File.size lFile < two64)%N as Hsz by (apply Hfits; cbn; auto).
  assert (File.size f0 = File.size lFile) as Hsize by apply seek_size.
  assert (exists resumed : bool,
             rsigs = (if resumed then [CanResume] else [])
             /\ (if resumed then toULongLong E lResumeOffset = Some base
                 else base = 0%N)
             /\ (base <= File.mOffset f1)%N
             /\ File.size f1 = File.size lFile)
    as (resumed & -> & Hbase & Hle & Hsz1).
  { unfold try_resume in Htry.
    destruct (negb (QString.isEmpty lResumeOffset));
      [|injection Htry as <- <- <- <-; exists false; repeat split; auto; lia].
    destruct (toULongLong E lResumeOffset) as [lOffset|];
      [|injection Htry as <- <- <- <-; exists false; repeat split; auto; lia].
    destruct (lOffset <? File.size f0)%N;
      [|injection Htry as <- <- <- <-; exists false; repeat split; auto; lia].
    destruct (seek_cases f0 lOffset) as [[Hs _]|[Hs _]]; rewrite Hs in Htry;
      cbn [is_ok] in Htry; injection Htry as <- <- <- <-.
    - exists true. repeat split; auto; cbn; lia.
    - exists false. repeat split; auto; lia. }
  assert (existsb is_Finished sigs = true) as Hfin.
  { unfold succeeded in Hok. cbn [emitted] in Hok.
    destruct resumed; exact Hok. }
  assert (stream_from base sigs) as Hstream.
  { eapply get_loop_stream; [exact Hloop | exact Hle | | exact Hfin].
    rewrite Hsz1. exact Hsz. }
  destruct (stream_from_sizes _ _ Hstream) as (ps & Hps & Hinc).
  exists (Node.mMimeType (Repository.node r lNode)), (File.size lFile),
    resumed, base, sigs, ps.
  repeat split; auto.
  destruct resumed; cbn; exact Hps.
Qed.

Lemma get_progress_increases_then_repeats_witness :
  exists rp ps,
    get World.env initial (World.url "/home/u/b1/docs/report.txt") "1"
    = Replied rp
    /\ processed_sizes (emitted rp) = ps ++ [List.last ps 1%N]
    /\ strictly_increasing (1%N :: ps) = true.
Proof.
  destruct (get World.env initial (World.url "/home/u/b1/docs/report.txt") "1")
    as [rp|k] eqn:Hget; [|vm_compute in Hget; discriminate].
  assert (emitted rp
          = [MimeType "text/plain"; TotalSize 3; CanResume;
             Data [x69; x0a]; ProcessedSize 3; Data []; ProcessedSize 3;
             Finished]) as Hem.
  { vm_compute in Hget. injection Hget as <-. reflexivity. }
  destruct (get_progress_increases_then_repeats World.env initial _ _ rp Hget)
    as (mime & total & resumed & base & tail & ps & Heq & Hbase & Hstream
        & Hps & Hinc).
  - unfold succeeded. rewrite Hem. reflexivity.
  - rewrite Hem. intros n [H|[H|[H|[H|[H|[H|[H|[H|[]]]]]]]]];
      try discriminate. injection H as <-. reflexivity.
  - exists rp, ps. split; [reflexivity|].
    rewrite Hem in Heq. destruct resumed.
    + vm_compute in Hbase. injection Hbase as <-. auto.
    + cbn in Heq. injection Heq as _ _ <-. inversion Hstream.
Defined.

(** C8 as stated fails: the report after the final empty chunk repeats the
    one before it, so the reports of a successful get of a file that is not
    empty do not increase strictly. *)
Lemma get_progress_not_strictly_increasing :
  exists rp,
    get World.env initial (World.url "/home/u/b1/docs/report.txt") EmptyString
    = Replied rp
    /\ succeeded rp = true
    /\ processed_sizes (emitted rp) = [2%N; 3%N; 3%N]
    /\ strictly_increasing (processed_sizes (emitted rp)) = false.
Proof. eexists. split; [vm_compute; reflexivity|]. repeat split. Qed.

(** ** Bounded reads *)

Lemma read_loop_total fuel f pSize :
  N.to_nat (File.size f - File.mOffset f) < fuel ->
  exists res, read_loop fuel f pSize = Some res.
Proof.
  revert f pSize. induction fuel as [|fuel IH]; intros f pSize Hfuel; [lia|].
  cbn [read_loop]. destruct (0 <? pSize)%N; [|eauto].
  destruct (read_cases f (Some (to_int pSize)))
    as [[_ ->]|[[_ (e & _ & ->)]|[Hlt (chunk & -> & Hlen)]]];
    [eauto | eauto |].
  pose proof (chunk_len_bounds f (Some (to_int pSize)) Hlt) as Hb.
  edestruct (IH (File.at_offset f
                   (File.mOffset f + File.chunk_len f (Some (to_int pSize)))))
    as [[[[sigs cs] f'] rv] ->]; [|eauto].
  cbn [File.mOffset File.at_offset].
  change (File.size (File.at_offset f ?o)) with (File.size f). lia.
Qed.

(** A read on a file that is at its end reports the store's end-of-data
    code as an error. *)
Lemma read_at_end_is_error s h r pSize :
  mOpenFile s = Some h ->
  owner_of s h = Some r ->
  (0 < pSize)%N ->
  (File.size (Repository.file r (target h))
   <= File.mOffset (Repository.file r (target h)))%N ->
  exists rp,
    read s pSize = Replied rp
    /\ emitted rp
       = [Error ERR_NO_CONTENT
            (File.completePath (Repository.file r (target h)))].
Proof.
  intros Ho Hr Hpos Hend. unfold read. rewrite Ho, Hr.
  unfold reads_left.
  destruct (N.to_nat _) as [|n]; cbn [read_loop];
    apply N.ltb_lt in Hpos; rewrite Hpos;
    destruct (read_cases (Repository.file r (target h)) (Some (to_int pSize)))
      as [[_ ->]|[[Hlt _]|[Hlt _]]]; try lia;
    eexists; split; reflexivity.
Qed.

(** The handlers always come to an end, and never use [mRepository]
    without one: the only fault is the use of a stale open file. *)
Lemma dispatch_faults E s q k :
  dispatch E s q = Fault k ->
  exists h, mOpenFile s = Some h /\ owner_of s h = None
            /\ k = StaleFile (owner h)
            /\ ((exists n, q = ReqRead n) \/ (exists o, q = ReqSeek o)).
Proof.
  destruct q; cbn [dispatch]; intros H.
  - discriminate.
  - destruct (checkCorrectRepository E s pUrl) as [[ok rest] s1] eqn:Hc.
    destruct ok;
      [|unfold get in H; rewrite Hc in H; discriminate].
    destruct (checkCorrectRepository_true E _ _ _ _ Hc) as (r & Hr & _).
    destruct (Repository.resolve r rest true) as [lNode|] eqn:Hres;
      [|unfold get in H; rewrite Hc in H; cbn [negb] in H;
        rewrite Hr, Hres in H; discriminate].
    destruct (Node.is_File (Repository.node r lNode)) eqn:Hfile;
      [|unfold get in H; rewrite Hc in H; cbn [negb] in H;
        rewrite Hr, Hres, Hfile in H; discriminate].
    destruct (try_resume E (File.seek (Repository.file r lNode) 0).2 resume)
      as [[[rsigs rcalls] base] f1] eqn:Htry.
    destruct (get_on_file E s pUrl resume rest s1 r lNode Hc Hr Hres Hfile
                _ _ _ _ Htry) as (sigs & cs & f2 & _ & Hget).
    rewrite Hget in H. discriminate.
  - unfold listDir in H.
    destruct (checkCorrectRepository E s pUrl) as [[ok rest] s1] eqn:Hc.
    destruct ok; [|discriminate].
    destruct (checkCorrectRepository_true E _ _ _ _ Hc) as (r & Hr & _).
    cbn [negb] in H. rewrite Hr in H.
    repeat case_match; discriminate.
  - destruct (open_replies E s pUrl pMode) as (rp & Ho). congruence.
  - unfold read in H.
    destruct (mOpenFile s) as [h|]; [|discriminate].
    destruct (owner_of s h) as [r|] eqn:Hr.
    + destruct (read_loop_total (reads_left (Repository.file r (target h)))
                  (Repository.file r (target h)) pSize)
        as [[[[sigs cs] f] rv] Hl]; [unfold reads_left; lia|].
      rewrite Hl in H. destruct rv; discriminate.
    + injection H as <-. eauto 10.
  - unfold seek in H.
    destruct (mOpenFile s) as [h|]; [|discriminate].
    destruct (owner_of s h) as [r|] eqn:Hr.
    + repeat case_match; discriminate.
    + injection H as <-. eauto 10.
  - unfold stat in H.
    destruct (checkCorrectRepository E s pUrl) as [[ok rest] s1] eqn:Hc.
    destruct ok; [|discriminate].
    destruct (checkCorrectRepository_true E _ _ _ _ Hc) as (r & Hr & _).
    cbn [negb] in H. rewrite Hr in H.
    repeat case_match; discriminate.
  - unfold mimetype in H.
    destruct (checkCorrectRepository E s pUrl) as [[ok rest] s1] eqn:Hc.
    destruct ok; [|discriminate].
    destruct (checkCorrectRepository_true E _ _ _ _ Hc) as (r & Hr & _).
    cbn [negb] in H. rewrite Hr in H.
    repeat case_match; discriminate.
Qed.

(** ** What a bounded read delivers *)

Lemma to_int_small n : (n < 2 ^ 31)%N -> to_int n = Z.of_N n.
Proof.
  intros H. unfold to_int.
  change (2 ^ 31)%N with 2147483648%N in H.
  rewrite Z.mod_small by lia.
  destruct (Z.ltb_spec (Z.of_N n) (2 ^ 31)); [reflexivity | lia].
Qed.

Lemma sub64_small a b : (b <= a)%N -> (a < two64)%N -> sub64 a b = (a - b)%N.
Proof.
  intros Hb Ha. unfold sub64.
  rewrite (N.mod_small b) by lia.
  replace (a + (two64 - b))%N with (a - b + 1 * two64)%N by lia.
  rewrite N.Div0.mod_add. apply N.mod_small. lia.
Qed.

(** The loop of read, for a budget that fits an [int]: the chunks are not
    empty and are the bytes of the file from its position on; they never
    exceed the budget; the loop ends with 0 when they use it up, and
    otherwise with the end-of-data code, the file being at its end, or with
    the code of the store's failure at the position reached. *)
Lemma read_loop_spec fuel f pSize sigs cs f' rv :
  read_loop fuel f pSize = Some (sigs, cs, f', rv) ->
  (pSize < 2 ^ 31)%N ->
  let delivered := concat (data_chunks sigs) in
  let total := N.of_nat (length delivered) in
  sigs = map Data (data_chunks sigs)
  /\ Forall (fun chunk => chunk <> []) (data_chunks sigs)
  /\ delivered
     = take (N.to_nat total) (drop (N.to_nat (File.mOffset f)) (File.bytes f))
  /\ (total <= pSize)%N
  /\ Forall (fun o => File.read_fault f o = None)
       (chunk_starts (File.mOffset f) (data_chunks sigs))
  /\ match rv with
     | Ok0 => total = pSize /\ f' = File.at_offset f (File.mOffset f + total)
     | Err e =>
         (total < pSize)%N
         /\ ((e = ERR_NO_CONTENT
              /\ (File.size f <= File.mOffset f + total)%N
              /\ f' = File.at_offset f (File.mOffset f + total))
             \/ (exists e',
                    e = File.error_code e'
                    /\ File.read_fault f (File.mOffset f + total) = Some e'
                    /\ (File.mOffset f + total < File.size f)%N
                    /\ f' = File.at_offset f
                              (File.read_lands f (File.mOffset f + total))))
     end.
Proof.
  revert f pSize sigs cs f' rv.
  induction fuel as [|fuel IH]; intros f pSize sigs cs f' rv H Hint;
    [discriminate|].
  cbn [read_loop] in H.
  destruct (N.ltb_spec 0 pSize) as [Hpos|Hzero].
  2:{ injection H as <- _ <- <-. cbn. repeat split; auto; try lia.
      rewrite N.add_0_r. symmetry. apply at_offset_self. }
  rewrite (to_int_small _ Hint) in H.
  destruct (read_cases f (Some (Z.of_N pSize)))
    as [[Hend Hr]|[[Hlt (e & Hfault & Hr)]|[Hlt (chunk & Hr & Hlen)]]];
    rewrite Hr in H.
  - injection H as <- _ <- <-. cbn. repeat split; auto; try lia.
    left. rewrite N.add_0_r. split; [reflexivity|]. split; [lia|].
    symmetry. apply at_offset_self.
  - injection H as <- _ <- <-. cbn. repeat split; auto; try lia.
    right. exists e. rewrite N.add_0_r. auto.
  - destruct (read_loop fuel _ _) as [[[[sigs0 cs0] f0] rv0]|] eqn:Hl;
      [|discriminate].
    injection H as <- _ <- <-.
    pose proof (chunk_len_bounds f (Some (Z.of_N pSize)) Hlt) as Hb.
    assert (File.chunk_len f (Some (Z.of_N pSize)) <= pSize)%N as Hle.
    { unfold File.chunk_len. destruct (Z.ltb_spec 0 (Z.of_N pSize)); lia. }
    assert (pSize < two64)%N as H64.
    { unfold two64. change (2 ^ 64)%N with 18446744073709551616%N.
      change (2 ^ 31)%N with 2147483648%N in Hint. lia. }
    rewrite sub64_small in Hl by (try rewrite Hlen; lia).
    destruct (read_ok_no_fault _ _ _ _ Hr) as (_ & Hnofault & _ & Hchunk).
    specialize (IH _ _ _ _ _ _ Hl).
    destruct IH as (Hs & Hne & Hbytes & Htot & Hstarts & Hrv); [lia|].
    remember (File.chunk_len f (Some (Z.of_N pSize))) as n eqn:Hn.
    cbn [data_chunks concat map File.mOffset File.at_offset File.bytes
         File.size File.read_fault File.read_lands chunk_starts] in *.
    remember (concat (data_chunks sigs0)) as delivered eqn:Hdel.
    rewrite length_app.
    replace (N.of_nat (length chunk + length delivered))
      with (n + N.of_nat (length delivered))%N by lia.
    rewrite N.add_assoc.
    repeat split.
    + f_equal. exact Hs.
    + constructor; [|exact Hne].
      intros ->. cbn [length] in Hlen. change (N.of_nat 0) with 0%N in Hlen. lia.
    + rewrite Hbytes at 1. rewrite Hchunk at 1.
      replace (N.to_nat (n + N.of_nat (length delivered)))
        with (N.to_nat n + length delivered) by lia.
      replace (N.to_nat (File.mOffset f + n))
        with (N.to_nat (File.mOffset f) + N.to_nat n) by lia.
      rewrite <- drop_drop, take_take_drop. f_equal. lia.
    + rewrite Hlen in Htot. lia.
    + constructor; [exact Hnofault|]. rewrite Hlen. exact Hstarts.
    + destruct rv0 as [|e].
      * destruct Hrv as [Ht Hf]. split; [rewrite Hlen in Ht; lia|].
        rewrite Hf. reflexivity.
      * destruct Hrv as (Hlt' & Hcase). split; [rewrite Hlen in Hlt'; lia|].
        destruct Hcase as [(-> & Hend & Hf)|(e' & -> & Hfault & Hlts & Hf)].
        -- left. rewrite Hf. auto.
        -- right. exists e'. rewrite Hf. auto.
Qed.

(** What read replies, for a budget that fits an [int]: the bytes from the
    position of the open file on, never more than the budget; the empty
    chunk and [finished] follow when the budget is used up; when the store
    stops first, an error follows: with the end-of-data code when the file
    has come to its end, and with the code of the store's failure
    otherwise.  Unless the store failed, the file is left after the bytes
    delivered. *)
Lemma read_outcomes s h r pSize :
  mOpenFile s = Some h ->
  owner_of s h = Some r ->
  (pSize < 2 ^ 31)%N ->
  let f := Repository.file r (target h) in
  exists rp chunks f',
    read s pSize = Replied rp
    /\ after rp = set_mRepository s (Some (Repository.set_file r (target h) f'))
    /\ Forall (fun chunk => chunk <> []) chunks
    /\ concat chunks
       = take (length (concat chunks))
           (drop (N.to_nat (File.mOffset f)) (File.bytes f))
    /\ Forall (fun o => File.read_fault f o = None)
         (chunk_starts (File.mOffset f) chunks)
    /\ let total := N.of_nat (length (concat chunks)) in
       (emitted rp = map Data chunks ++ [Data []; Finished]
        /\ total = pSize
        /\ f' = File.at_offset f (File.mOffset f + total))
       \/ (emitted rp
           = map Data chunks ++ [Error ERR_NO_CONTENT (File.completePath f)]
           /\ (total < pSize)%N
           /\ (File.size f <= File.mOffset f + total)%N
           /\ f' = File.at_offset f (File.mOffset f + total))
       \/ (exists e,
              emitted rp
              = map Data chunks
                ++ [Error (File.error_code e) (File.completePath f)]
              /\ (total < pSize)%N
              /\ (File.mOffset f + total < File.size f)%N
              /\ File.read_fault f (File.mOffset f + total) = Some e
              /\ f' = File.at_offset f
                        (File.read_lands f (File.mOffset f + total))).
Proof.
  intros Hopen Hown Hint f. unfold read. rewrite Hopen, Hown. fold f.
  destruct (read_loop_total (reads_left f) f pSize)
    as [[[[sigs cs] f'] rv] Hl]; [unfold reads_left; lia|].
  rewrite Hl.
  destruct (read_loop_spec _ _ _ _ _ _ _ Hl Hint)
    as (Hs & Hne & Hbytes & Htot & Hstarts & Hrv).
  rewrite Nat2N.id in Hbytes.
  destruct rv as [|e].
  - destruct Hrv as [Ht Hf].
    eexists. exists (data_chunks sigs), f'. split; [reflexivity|].
    split; [reflexivity|].
    split; [exact Hne|]. split; [exact Hbytes|]. split; [exact Hstarts|].
    left. cbn [emitted]. rewrite <- Hs. auto.
  - destruct Hrv as (Hlt & [(-> & Hend & Hf)|(e' & -> & Hfault & Hlts & Hf)]);
      (eexists; exists (data_chunks sigs), f'; split; [reflexivity|];
       split; [reflexivity|];
       split; [exact Hne|]; split; [exact Hbytes|]; split; [exact Hstarts|]);
      cbn [emitted]; rewrite <- Hs.
    + right; left. rewrite Hf at 1. auto.
    + right; right. exists e'. rewrite Hf at 1. auto 10.
Qed.

(** C2, where the code departs from it: a read of up to 10 bytes on a file
    of 3 takes the two chunks of the store and then, on the store's
    end-of-data, emits the error NO_CONTENT instead of the empty chunk and
    [finished]; a read that stops on its budget does end with them. *)
Theorem read_reports_end_of_data_as_error :
  transcript World.env initial
    [ReqOpen (World.url "/home/u/b1/docs/report.txt") 1; ReqRead 10]
  = [inl [MimeType "text/plain"; TotalSize 3; Position 0; Opened];
     inl [Data [x68; x69]; Data [x0a];
          Error ERR_NO_CONTENT "docs/report.txt"]]
  /\ transcript World.env initial
       [ReqOpen (World.url "/home/u/b1/docs/report.txt") 1; ReqRead 3]
     = [inl [MimeType "text/plain"; TotalSize 3; Position 0; Opened];
        inl [Data [x68; x69]; Data [x0a]; Data []; Finished]].
Proof. split; reflexivity. Qed.

(** ** Open files and the repository they belong to *)

Section Ownership.

Variable E : Env.

Lemma createUDSEntry_allocated r s pNode pDetails :
  allocated (createUDSEntry E r s pNode pDetails).2 = allocated s.
Proof.
  unfold createUDSEntry, getUserName, getGroupName.
  repeat case_match; simplify_eq; reflexivity.
Qed.

Lemma list_entries_allocated r s children lDetails :
  allocated (list_entries E r s children lDetails).2 = allocated s.
Proof.
  revert s. induction children as [|child rest IH]; intros s; [reflexivity|].
  cbn [list_entries].
  pose proof (createUDSEntry_allocated r s child lDetails) as H1.
  destruct (createUDSEntry E r s child lDetails) as [lEntry s1].
  specialize (IH s1).
  destruct (list_entries E r s1 rest lDetails) as [sigs s2].
  cbn in *. congruence.
Qed.

(** Changes to the caches do not matter to the allocation invariant. *)
Lemma well_allocated_frame s s' :
  mRepository s' = mRepository s -> mOpenFile s' = mOpenFile s ->
  allocated s' = allocated s ->
  well_allocated s -> well_allocated s'.
Proof.
  unfold well_allocated. intros -> -> ->. exact (fun H => H).
Qed.

Lemma well_allocated_set_file s r p f :
  well_allocated s -> mRepository s = Some r ->
  well_allocated (set_mRepository s (Some (Repository.set_file r p f))).
Proof.
  intros (Hr & Hh & Hv) Hs. split; [|split].
  - intros r' [= <-]. cbn. apply Hr, Hs.
  - exact Hh.
  - intros h r' Ho [= <-] Hid. exact (Hv h r Ho Hs Hid).
Qed.

Lemma well_allocated_reload s r p :
  well_allocated s -> mRepository s = Some r ->
  well_allocated (set_mRepository s (Some (Repository.reload r p))).
Proof.
  intros (Hr & Hh & Hv) Hs. split; [|split].
  - intros r' [= <-]. cbn. apply Hr, Hs.
  - exact Hh.
  - intros h r' Ho [= <-] Hid. exact (Hv h r Ho Hs Hid).
Qed.

Lemma checkCorrectRepository_allocated s pUrl ok rest s' :
  checkCorrectRepository E s pUrl = (ok, rest, s') ->
  well_allocated s -> well_allocated s'.
Proof.
  intros H Inv.
  destruct (fast_path s (normalizedPath pUrl)) eqn:Hf.
  - destruct (checkCorrectRepository_fast E _ _ Hf) as (r & _ & _ & _ & Heq).
    rewrite Heq in H. injection H as _ _ <-. exact Inv.
  - destruct (checkCorrectRepository_slow E _ _ Hf)
      as (s0 & Heq & Ha & Ho & _ & _ & Hs0).
    rewrite Heq in H. unfold openRepository in H.
    destruct Inv as (Hr & Hh & Hv).
    destruct (discover E "/" _) as [[root tl]|].
    + injection H as _ _ <-. rewrite Ha, Ho. repeat split; cbn.
      * intros r [= <-]. cbn. lia.
      * intros h Hh'. specialize (Hh h Hh'). lia.
      * intros h r Hh' [= <-] Hid. specialize (Hh h Hh'). cbn in Hid. lia.
    + injection H as _ _ <-.
      destruct Hs0 as [[-> _]| ->]; [repeat split; auto|].
      repeat split; cbn; [discriminate | exact Hh | discriminate].
Qed.

(** A request outside the repository held leaves every open file stale:
    the locator deletes or replaces the repository and keeps the slot. *)
Lemma checkCorrectRepository_stale s pUrl ok rest s' h :
  well_allocated s ->
  mOpenFile s = Some h ->
  fast_path s (normalizedPath pUrl) = false ->
  checkCorrectRepository E s pUrl = (ok, rest, s') ->
  mOpenFile s' = Some h /\ owner_of s' h = None.
Proof.
  intros (Hr & Hh & Hv) Hopen Hf H.
  destruct (checkCorrectRepository_slow E _ _ Hf)
    as (s0 & Heq & Ha & Ho & _ & _ & Hs0).
  rewrite Heq in H. unfold openRepository in H.
  specialize (Hh h Hopen).
  destruct (discover E "/" _) as [[root tl]|].
  - injection H as _ _ <-. unfold owner_of. cbn. rewrite Ho. split; [exact Hopen|].
    destruct (Nat.eqb_spec (allocated s0) (owner h)); [lia | reflexivity].
  - injection H as _ _ <-. rewrite Ho. split; [exact Hopen|].
    destruct Hs0 as [[-> Hinvalid]| ->]; [|reflexivity].
    unfold owner_of.
    destruct (mRepository s) as [r|] eqn:Hrepo; [|reflexivity].
    destruct (Nat.eqb_spec (Repository.id r) (owner h)) as [Hid|];
      [|reflexivity].
    pose proof (Hv h r Hopen eq_refl (eq_sym Hid)) as Hvalid.
    rewrite (Hinvalid r eq_refl) in Hvalid. discriminate.
Qed.

Lemma dispatch_allocated s q r :
  dispatch E s q = Replied r -> well_allocated s -> well_allocated (after r).
Proof.
  intros H Inv.
  destruct q; cbn [dispatch] in H.
  - injection H as <-. destruct Inv as (Hr & Hh & Hv).
    repeat split; cbn; [exact Hr | discriminate | discriminate].
  - unfold get in H.
    destruct (checkCorrectRepository E s pUrl) as [[ok rest] s1] eqn:Hc.
    pose proof (checkCorrectRepository_allocated _ _ _ _ _ Hc Inv) as Inv1.
    handler_cases H; auto using well_allocated_set_file.
  - unfold listDir in H.
    destruct (checkCorrectRepository E s pUrl) as [[ok rest] s1] eqn:Hc.
    pose proof (checkCorrectRepository_allocated _ _ _ _ _ Hc Inv) as Inv1.
    handler_cases H; auto.
    match goal with
    | Hl : list_entries E ?r ?s1' ?c ?d = (_, ?s2) |- _ =>
        pose proof (list_entries_frame E r s1' c d) as [Hm Ho];
        pose proof (list_entries_allocated r s1' c d) as Ha;
        rewrite Hl in Hm, Ho, Ha; cbn [fst snd] in Hm, Ho, Ha
    end.
    eapply well_allocated_frame; [exact Hm | exact Ho | exact Ha |].
    apply well_allocated_reload; assumption.
  - unfold open in H.
    destruct (negb _); [injection H as <-; exact Inv|].
    destruct (checkCorrectRepository E s pUrl) as [[ok rest] s1] eqn:Hc.
    pose proof (checkCorrectRepository_allocated _ _ _ _ _ Hc Inv) as Inv1.
    destruct ok; cbn [negb] in H; [|injection H as <-; exact Inv1].
    destruct (checkCorrectRepository_true E _ _ _ _ Hc) as (r0 & Hr0 & Hvalid).
    rewrite Hr0 in H. unfold reply in H.
    repeat case_match; simplify_eq; cbn;
      auto using well_allocated_set_file.
    destruct Inv1 as (Hr & Hh & Hv). repeat split; cbn.
    + intros r' [= <-]. cbn. apply Hr, Hr0.
    + intros h [= <-]. cbn. apply Hr, Hr0.
    + intros h r' [= <-] [= <-] _. exact Hvalid.
  - unfold read, owner_of, reply in H.
    repeat case_match; simplify_eq; cbn;
      auto using well_allocated_set_file.
  - unfold seek, owner_of, reply in H.
    repeat case_match; simplify_eq; cbn;
      auto using well_allocated_set_file.
  - unfold stat in H.
    destruct (checkCorrectRepository E s pUrl) as [[ok rest] s1] eqn:Hc.
    pose proof (checkCorrectRepository_allocated _ _ _ _ _ Hc Inv) as Inv1.
    handler_cases H; auto.
    match goal with
    | Hl : createUDSEntry E ?r s1 ?c ?d = (_, ?s2) |- _ =>
        pose proof (createUDSEntry_frame E r s1 c d) as [Hm Ho];
        pose proof (createUDSEntry_allocated r s1 c d) as Ha;
        rewrite Hl in Hm, Ho, Ha; cbn in Hm, Ho, Ha
    end.
    eapply well_allocated_frame; eauto.
  - unfold mimetype in H.
    destruct (checkCorrectRepository E s pUrl) as [[ok rest] s1] eqn:Hc.
    pose proof (checkCorrectRepository_allocated _ _ _ _ _ Hc Inv) as Inv1.
    handler_cases H; auto.
Qed.

Lemma reachable_allocated s : reachable E s -> well_allocated s.
Proof.
  induction 1 as [|s q r _ IH Hd].
  - repeat split; intros; discriminate.
  - eapply dispatch_allocated; eauto.
Qed.

(** In any session, once a file is open, a mimetype request outside the
    repository held makes the next read go through a stale pointer. *)
Lemma read_after_switch_is_stale s pUrl h pSize :
  reachable E s ->
  mOpenFile s = Some h ->
  fast_path s (normalizedPath pUrl) = false ->
  exists rp,
    mimetype E s pUrl = Replied rp
    /\ read (after rp) pSize = Fault (StaleFile (owner h))
    /\ seek (after rp) pSize = Fault (StaleFile (owner h)).
Proof.
  intros Hreach Hopen Hf.
  destruct (checkCorrectRepository E s pUrl) as [[ok rest] s1] eqn:Hc.
  destruct (checkCorrectRepository_stale _ _ _ _ _ _
              (reachable_allocated _ Hreach) Hopen Hf Hc) as (Ho1 & Hstale).
  unfold mimetype. rewrite Hc.
  destruct ok; cbn [negb].
  - destruct (checkCorrectRepository_true E _ _ _ _ Hc) as (r & Hr & _).
    rewrite Hr.
    destruct (Repository.resolve r rest false);
      (eexists; split; [reflexivity|]); cbn [after];
      unfold read, seek; rewrite Ho1, Hstale; auto.
  - eexists; split; [reflexivity|]. cbn [after].
    unfold read, seek; rewrite Ho1, Hstale; auto.
Qed.

End Ownership.

(** C4, where the code departs from it: after a file of [/home/u/b1/] has
    been opened, a stat in [/srv/b2/] deletes the first repository and
    installs the second, but [mOpenFile] still points into the first; the
    next read or seek goes through that stale pointer. *)
Theorem open_file_outlives_its_repository :
  let s :=
    session World.env initial
      [ReqOpen (World.url "/home/u/b1/docs/report.txt") 1;
       ReqStat (World.url "/srv/b2/notes") EmptyString] in
  mOpenFile s = Some (mkFilePtr 0 2)
  /\ (Repository.id <$> mRepository s) = Some 1
  /\ (Repository.objectName <$> mRepository s) = Some "/srv/b2/"
  /\ read s 2 = Fault (StaleFile 0)
  /\ seek s 0 = Fault (StaleFile 0).
Proof. repeat split. Qed.

(** * Further properties of the slave *)

(** ** Normalized paths and their components *)

Lemma append_assoc (a b c : string) : (a +:+ b) +:+ c = a +:+ b +:+ c.
Proof.
  induction a as [|x a IH]; [reflexivity|].
  change (String x ((a +:+ b) +:+ c) = String x (a +:+ b +:+ c)).
  f_equal. exact IH.
Qed.

Lemma append_empty_r (a : string) : a +:+ EmptyString = a.
Proof.
  induction a as [|x a IH]; [reflexivity|].
  change (String x (a +:+ EmptyString) = String x a). f_equal. exact IH.
Qed.

Lemma isEmpty_append a b :
  QString.isEmpty (a +:+ b) = QString.isEmpty a && QString.isEmpty b.
Proof. destruct a; reflexivity. Qed.

(** Splitting can be done piece by piece at a slash. *)
Lemma split_from_app_slash a cur b :
  QString.split_from cur (a +:+ "/" +:+ b)
  = QString.split_from cur (a +:+ "/") ++ QString.split_from EmptyString b.
Proof.
  revert cur. induction a as [|x a IH]; intros cur.
  - change (QString.split_from cur (String "/" b)
            = QString.split_from cur (String "/" EmptyString)
              ++ QString.split_from EmptyString b).
    cbn [QString.split_from]. change (QString.is_slash "/") with true.
    cbn [QString.isEmpty]. destruct (QString.isEmpty cur); reflexivity.
  - change (QString.split_from cur (String x (a +:+ "/" +:+ b))
            = QString.split_from cur (String x (a +:+ "/"))
              ++ QString.split_from EmptyString b).
    cbn [QString.split_from].
    destruct (QString.is_slash x).
    + destruct (QString.isEmpty cur); rewrite IH; reflexivity.
    + apply IH.
Qed.

(** A component followed by a slash splits into itself. *)
Lemma split_from_component cur c :
  no_slash c = true ->
  QString.isEmpty (cur +:+ c) = false ->
  QString.split_from cur (c +:+ "/") = [cur +:+ c].
Proof.
  revert cur. induction c as [|x c IH]; intros cur Hns Hne.
  - rewrite append_empty_r in Hne |- *.
    change (QString.split_from cur (String "/" EmptyString) = [cur]).
    cbn [QString.split_from]. change (QString.is_slash "/") with true.
    rewrite Hne. reflexivity.
  - cbn [no_slash] in Hns. apply andb_prop in Hns as [Hx Hc].
    change (QString.split_from cur (String x (c +:+ "/"))
            = [cur +:+ String x c]).
    cbn [QString.split_from].
    destruct (QString.is_slash x); [discriminate|].
    rewrite IH.
    + rewrite append_assoc. reflexivity.
    + exact Hc.
    + rewrite append_assoc. exact Hne.
Qed.

Lemma split_slash_terminated components rest :
  Forall (fun c => is_component c = true) components ->
  QString.split (slash_terminated components +:+ rest)
  = components ++ QString.split rest.
Proof.
  unfold QString.split.
  induction 1 as [|c tl Hc _ IH]; [reflexivity|].
  cbn [slash_terminated]. rewrite !append_assoc.
  rewrite split_from_app_slash.
  apply andb_prop in Hc as [Hne Hns].
  rewrite split_from_component; [|exact Hns|].
  - cbn [app]. f_equal. exact IH.
  - change (EmptyString +:+ c) with c. destruct c; [discriminate|reflexivity].
Qed.

Lemma no_slash_append a b :
  no_slash (a +:+ b) = no_slash a && no_slash b.
Proof.
  induction a as [|x a IH]; [reflexivity|].
  change (no_slash (String x (a +:+ b)) = no_slash (String x a) && no_slash b).
  cbn [no_slash]. rewrite IH, andb_assoc. reflexivity.
Qed.

(** Whatever [split] returns is a list of components. *)
Lemma split_from_components cur s :
  no_slash cur = true ->
  Forall (fun c => is_component c = true) (QString.split_from cur s).
Proof.
  revert cur. induction s as [|x s IH]; intros cur Hcur.
  - cbn [QString.split_from]. destruct (QString.isEmpty cur) eqn:He;
      [constructor|].
    constructor; [|constructor]. unfold is_component. rewrite He, Hcur.
    reflexivity.
  - cbn [QString.split_from]. destruct (QString.is_slash x) eqn:Hx.
    + destruct (QString.isEmpty cur) eqn:He; [apply IH; reflexivity|].
      constructor; [|apply IH; reflexivity].
      unfold is_component. rewrite He, Hcur. reflexivity.
    + apply IH. rewrite no_slash_append, Hcur. cbn [no_slash]. rewrite Hx.
      reflexivity.
Qed.

Lemma split_components s :
  Forall (fun c => is_component c = true) (QString.split s).
Proof. apply split_from_components. reflexivity. Qed.

Lemma startsWith_slash_cons x :
  QString.startsWith (String "/" x) "/" = true.
Proof. destruct x; reflexivity. Qed.

(** X1: the normalized path of every URL starts and ends with a slash, and
    a host is read as the first directory of the path. *)
Theorem normalizedPath_is_slash_delimited (pUrl : QUrl) :
  QString.startsWith (normalizedPath pUrl) "/" = true
  /\ QString.endsWith_slash (normalizedPath pUrl) = true
  /\ (QString.isEmpty (host pUrl) = false ->
      forall display,
        normalizedPath pUrl
        = normalizedPath
            (mkUrl EmptyString ("/" +:+ host pUrl +:+ adjusted_path pUrl)
               display)).
Proof.
  unfold normalizedPath. split; [|split].
  - destruct (QString.isEmpty (host pUrl)); cbn [negb];
      [|apply startsWith_slash_cons].
    destruct (QString.startsWith (adjusted_path pUrl +:+ "/") "/") eqn:Hs;
      [exact Hs | apply startsWith_slash_cons].
  - destruct (QString.isEmpty (host pUrl)); cbn [negb].
    + destruct (QString.startsWith (adjusted_path pUrl +:+ "/") "/").
      * apply (endsWith_slash_app EmptyString).
      * apply (endsWith_slash_app "/").
    + rewrite <- append_assoc. apply endsWith_slash_app.
  - intros -> display. cbn [negb host adjusted_path QString.isEmpty].
    rewrite !append_assoc.
    change ("/" +:+ host pUrl +:+ adjusted_path pUrl +:+ "/")
      with (String "/" (host pUrl +:+ adjusted_path pUrl +:+ "/")).
    rewrite startsWith_slash_cons. reflexivity.
Qed.

Lemma normalizedPath_is_slash_delimited_witness :
  normalizedPath (mkUrl "home" "/u/b1" "bup://home/u/b1")
  = normalizedPath (mkUrl EmptyString "/home/u/b1" "bup:///home/u/b1").
Proof.
  apply (proj2 (proj2 (normalizedPath_is_slash_delimited
                         (mkUrl "home" "/u/b1" "bup://home/u/b1")))).
  reflexivity.
Defined.

(** ** The locator, called again *)

Lemma discover_shape E dir components root rest :
  discover E dir components = Some (root, rest) ->
  exists taken,
    taken <> [] /\ components = taken ++ rest
    /\ root = dir +:+ slash_terminated taken.
Proof.
  revert dir. induction components as [|first tl IH]; intros dir H;
    [discriminate|].
  cbn [discover] in H.
  destruct (has_markers E (dir +:+ first +:+ "/")).
  - injection H as <- <-. exists [first].
    split; [discriminate|]. split; [reflexivity|].
    cbn [slash_terminated]. rewrite append_empty_r. reflexivity.
  - destruct (IH _ H) as (taken & _ & -> & ->).
    exists (first :: taken).
    split; [discriminate|]. split; [reflexivity|].
    cbn [slash_terminated]. rewrite !append_assoc. reflexivity.
Qed.

(** The root the locator installs spells a directory: a slash, then one
    component or more, each followed by a slash. *)
Lemma openRepository_root E s lPath ok rest s' r :
  openRepository E s lPath = (ok, rest, s') ->
  mRepository s' = Some r ->
  mRepository s = Some r
  \/ exists taken,
       taken <> [] /\ Forall (fun c => is_component c = true) taken
       /\ QString.split lPath = taken ++ rest
       /\ Repository.objectName r = "/" +:+ slash_terminated taken.
Proof.
  unfold openRepository. intros H Hr.
  destruct (discover E "/" (QString.split lPath)) as [[root tl]|] eqn:Hd.
  - injection H as _ <- <-. cbn in Hr. injection Hr as <-. right.
    destruct (discover_shape _ _ _ _ _ Hd) as (taken & Hne & Hsplit & ->).
    exists taken. repeat split; auto.
    pose proof (split_components lPath) as Hall. rewrite Hsplit in Hall.
    apply Forall_app in Hall. tauto.
  - injection H as _ _ <-. left. exact Hr.
Qed.

Lemma split_leading_slash s :
  QString.split (String "/" s) = QString.split s.
Proof. reflexivity. Qed.

(** X2: a request the locator has accepted is accepted again, with the
    same components and without touching the session, whenever its
    normalized path spells the root of the repository now held. *)
Theorem locator_accepts_again (E : Env) (s s' : BupSlave) (pUrl : QUrl)
    (rest : list string) (r : Repository.t) :
  checkCorrectRepository E s pUrl = (true, rest, s') ->
  mRepository s' = Some r ->
  QString.startsWith (normalizedPath pUrl) (Repository.objectName r) = true ->
  checkCorrectRepository E s' pUrl = (true, rest, s').
Proof.
  intros Hc Hr Hp.
  destruct (checkCorrectRepository_true E _ _ _ _ Hc) as (r' & Hr' & Hv).
  assert (r' = r) as -> by congruence.
  assert (fast_path s' (normalizedPath pUrl) = true) as Hf'.
  { unfold fast_path. rewrite Hr, Hv, Hp. reflexivity. }
  destruct (checkCorrectRepository_fast E _ _ Hf') as (r' & Hr'' & _ & _ & ->).
  assert (r' = r) as -> by congruence.
  f_equal. f_equal.
  destruct (fast_path s (normalizedPath pUrl)) eqn:Hf.
  - destruct (checkCorrectRepository_fast E _ _ Hf) as (r0 & Hr0 & _ & _ & Heq).
    rewrite Heq in Hc. injection Hc as <- <-.
    assert (r0 = r) as -> by congruence. reflexivity.
  - destruct (checkCorrectRepository_slow E _ _ Hf)
      as (s0 & Heq & _ & _ & _ & _ & Hs0).
    rewrite Heq in Hc.
    destruct (openRepository_root _ _ _ _ _ _ _ Hc Hr)
      as [Hold|(taken & _ & Hall & Hsplit & Hroot)].
    + exfalso. destruct Hs0 as [[-> Hinv]| ->]; [|discriminate].
      unfold openRepository in Hc.
      destruct (discover E "/" _) as [[root tl]|]; [|discriminate].
      injection Hc as Hvalid _ <-. cbn in Hr. injection Hr as <-.
      specialize (Hinv _ Hold). cbn in Hinv, Hvalid. congruence.
    + pose proof (startsWith_split _ _ Hp) as Hlp.
      set (rem := QString.remove0 (String.length (Repository.objectName r))
                    (normalizedPath pUrl)) in *.
      rewrite Hlp, Hroot in Hsplit.
      change (("/" +:+ slash_terminated taken) +:+ rem)
        with (String "/" (slash_terminated taken +:+ rem)) in Hsplit.
      rewrite split_leading_slash, (split_slash_terminated _ _ Hall) in Hsplit.
      apply app_inv_head in Hsplit. exact Hsplit.
Qed.

Lemma locator_accepts_again_witness :
  let pUrl := World.url "/home/u/b1/docs/report.txt" in
  let s' :=
    mkSlave ∅ ∅ (Some (Repository.mk 0 "/home/u/b1/" World.b1 [] ∅)) None 1 in
  checkCorrectRepository World.env s' pUrl = (true, ["docs"; "report.txt"], s').
Proof.
  intros pUrl s'.
  apply (locator_accepts_again World.env initial s' pUrl
           ["docs"; "report.txt"] (Repository.mk 0 "/home/u/b1/" World.b1 [] ∅));
    reflexivity.
Defined.

(** A path with a doubled slash inside the root is served, but never by
    the fast path: every such request opens the repository anew. *)
Example doubled_slash_reopens_the_repository :
  let pUrl := World.url "/home//u/b1/docs" in
  allocated (session World.env initial [ReqMimetype pUrl]) = 1
  /\ allocated (session World.env initial [ReqMimetype pUrl; ReqMimetype pUrl])
     = 2.
Proof. split; reflexivity. Qed.

(** ** What every root path looks like *)

Section RootInvariant.

Variable E : Env.
Variable P : string -> Prop.
Hypothesis discovered :
  forall lPath root rest,
    discover E "/" (QString.split lPath) = Some (root, rest) -> P root.

Lemma checkCorrectRepository_root_satisfies s pUrl ok rest s' :
  checkCorrectRepository E s pUrl = (ok, rest, s') ->
  root_satisfies P s -> root_satisfies P s'.
Proof.
  intros H Inv.
  destruct (fast_path s (normalizedPath pUrl)) eqn:Hf.
  - destruct (checkCorrectRepository_fast E _ _ Hf) as (r & _ & _ & _ & Heq).
    rewrite Heq in H. injection H as _ _ <-. exact Inv.
  - destruct (checkCorrectRepository_slow E _ _ Hf)
      as (s0 & Heq & _ & _ & _ & _ & Hs0).
    rewrite Heq in H. unfold openRepository in H.
    destruct (discover E "/" _) as [[root tl]|] eqn:Hd.
    + injection H as _ _ <-. intros r [= <-]. cbn.
      eapply discovered, Hd.
    + injection H as _ _ <-. destruct Hs0 as [[-> _]| ->]; [exact Inv|].
      intros r. discriminate.
Qed.

Lemma set_file_root_satisfies s r p f :
  root_satisfies P s -> mRepository s = Some r ->
  root_satisfies P (set_mRepository s (Some (Repository.set_file r p f))).
Proof. intros Inv Hr r' [= <-]. cbn. apply Inv, Hr. Qed.

Lemma dispatch_root_satisfies s q r :
  dispatch E s q = Replied r ->
  root_satisfies P s -> root_satisfies P (after r).
Proof.
  intros H Inv.
  destruct q; cbn [dispatch] in H.
  - injection H as <-. exact Inv.
  - unfold get in H.
    destruct (checkCorrectRepository E s pUrl) as [[ok rest] s1] eqn:Hc.
    pose proof (checkCorrectRepository_root_satisfies _ _ _ _ _ Hc Inv) as Inv1.
    handler_cases H; auto using set_file_root_satisfies.
  - unfold listDir in H.
    destruct (checkCorrectRepository E s pUrl) as [[ok rest] s1] eqn:Hc.
    pose proof (checkCorrectRepository_root_satisfies _ _ _ _ _ Hc Inv) as Inv1.
    handler_cases H; auto.
    match goal with
    | Hl : list_entries E ?r ?s1' ?c ?d = (_, ?s2) |- _ =>
        pose proof (list_entries_frame E r s1' c d) as [Hm _];
        rewrite Hl in Hm; cbn in Hm
    end.
    intros r' Hr'. rewrite Hm in Hr'. injection Hr' as <-.
    cbn. apply Inv1. assumption.
  - unfold open in H.
    destruct (negb _); [injection H as <-; exact Inv|].
    destruct (checkCorrectRepository E s pUrl) as [[ok rest] s1] eqn:Hc.
    pose proof (checkCorrectRepository_root_satisfies _ _ _ _ _ Hc Inv) as Inv1.
    handler_cases H; auto using set_file_root_satisfies.
    intros r' [= <-]. cbn. auto.
  - unfold read, owner_of in H.
    handler_cases H; auto using set_file_root_satisfies.
  - unfold seek, owner_of in H.
    handler_cases H; auto using set_file_root_satisfies.
  - unfold stat in H.
    destruct (checkCorrectRepository E s pUrl) as [[ok rest] s1] eqn:Hc.
    pose proof (checkCorrectRepository_root_satisfies _ _ _ _ _ Hc Inv) as Inv1.
    handler_cases H; auto.
    match goal with
    | Hl : createUDSEntry E ?r s1 ?c ?d = (_, ?s2) |- _ =>
        pose proof (createUDSEntry_frame E r s1 c d) as [Hm _];
        rewrite Hl in Hm; cbn in Hm
    end.
    intros r' Hr'. apply Inv1. congruence.
  - unfold mimetype in H.
    destruct (checkCorrectRepository E s pUrl) as [[ok rest] s1] eqn:Hc.
    pose proof (checkCorrectRepository_root_satisfies _ _ _ _ _ Hc Inv) as Inv1.
    handler_cases H; auto.
Qed.

Lemma reachable_root_satisfies s : reachable E s -> root_satisfies P s.
Proof.
  induction 1 as [|s q r _ IH Hd].
  - intros r. discriminate.
  - eapply dispatch_root_satisfies; eauto.
Qed.

End RootInvariant.

Lemma reachable_root_is_directory_path E s :
  reachable E s -> root_satisfies is_directory_path s.
Proof.
  apply reachable_root_satisfies. intros lPath root rest Hd.
  destruct (discover_shape _ _ _ _ _ Hd) as (taken & Hne & Hsplit & ->).
  exists taken. repeat split; auto.
  pose proof (split_components lPath) as Hall. rewrite Hsplit in Hall.
  apply Forall_app in Hall. tauto.
Qed.

(** X3: in every state of a session, a URL whose path has no component
    (the root itself, however many slashes spell it) lies in no repository:
    the locator answers no, and get, listDir, stat and mimetype reply with
    the no-repository error alone. *)
Theorem root_url_is_in_no_repository (E : Env) (s : BupSlave) (pUrl : QUrl) :
  reachable E s ->
  QString.split (normalizedPath pUrl) = [] ->
  exists rest s',
    checkCorrectRepository E s pUrl = (false, rest, s')
    /\ forall resume details,
         get E s pUrl resume = reply [no_repository pUrl] [] s'
         /\ listDir E s pUrl details = reply [no_repository pUrl] [] s'
         /\ stat E s pUrl details = reply [no_repository pUrl] [] s'
         /\ mimetype E s pUrl = reply [no_repository pUrl] [] s'.
Proof.
  intros Hreach Hsplit.
  assert (fast_path s (normalizedPath pUrl) = false) as Hf.
  { destruct (fast_path s (normalizedPath pUrl)) eqn:Hf; [|reflexivity].
    exfalso.
    destruct (checkCorrectRepository_fast E _ _ Hf) as (r & Hr & _ & Hp & _).
    destruct (reachable_root_is_directory_path E s Hreach r Hr)
      as (taken & Hne & Hall & Hroot).
    pose proof (startsWith_split _ _ Hp) as Hlp.
    rewrite Hlp, Hroot in Hsplit.
    change (("/" +:+ slash_terminated taken) +:+ ?rem)
      with (String "/" (slash_terminated taken +:+ rem)) in Hsplit.
    rewrite split_leading_slash, (split_slash_terminated _ _ Hall) in Hsplit.
    destruct taken; [congruence | discriminate]. }
  destruct (checkCorrectRepository_slow E _ _ Hf) as (s0 & Heq & _).
  unfold openRepository in Heq. rewrite Hsplit in Heq. cbn [discover] in Heq.
  exists [], s0. split; [exact Heq|].
  intros resume details.
  destruct (handlers_without_repository E s pUrl [] s0 Heq resume details 0%Z)
    as (Hg & Hl & Hs & Hm & _).
  auto.
Qed.

Lemma root_url_is_in_no_repository_witness :
  let s :=
    session World.env initial [ReqMimetype (World.url "/home/u/b1/docs")] in
  exists s',
    mimetype World.env s (World.url "//")
    = reply [no_repository (World.url "//")] [] s'.
Proof.
  intros s.
  destruct (root_url_is_in_no_repository World.env s (World.url "//")
              (session_reachable _ _ _ (reachable_initial _)) eq_refl)
    as (rest & s' & _ & H).
  exists s'. apply (H EmptyString EmptyString).
Defined.

(** ** How a reply ends *)

Lemma get_loop_ends fuel path f p sigs cs f' :
  get_loop fuel path f p = Some (sigs, cs, f') ->
  exists body last,
    sigs = body ++ [last]
    /\ forallb (fun g => negb (is_terminal g)) body = true
    /\ is_terminal last = true.
Proof.
  revert f p sigs cs f'.
  induction fuel as [|fuel IH]; intros f p sigs cs f' H; [discriminate|].
  cbn [get_loop] in H.
  destruct (File.read f None) as [[rv chunk] f1].
  destruct rv as [|e].
  - destruct (get_loop fuel _ _ _) as [[[sigs0 cs0] f0]|] eqn:Hl;
      [|discriminate].
    injection H as <- _ _.
    destruct (IH _ _ _ _ _ Hl) as (body & last & -> & Hb & Hl').
    exists (Data chunk :: ProcessedSize (add64 p (N.of_nat (length chunk)))
            :: body), last.
    repeat split; auto.
  - destruct e; injection H as <- _ _;
      first [ solve [eexists [], _; repeat split]
            | solve [exists [Data []; ProcessedSize p], Finished;
                     repeat split] ].
Qed.

Lemma read_loop_data fuel f pSize sigs cs f' rv :
  read_loop fuel f pSize = Some (sigs, cs, f', rv) ->
  forallb (fun g => negb (is_terminal g)) sigs = true.
Proof.
  revert f pSize sigs cs f' rv.
  induction fuel as [|fuel IH]; intros f pSize sigs cs f' rv H;
    [discriminate|].
  cbn [read_loop] in H. destruct (0 <? pSize)%N.
  - destruct (File.read f _) as [[rv1 chunk] f1]. destruct rv1 as [|e].
    + destruct (read_loop fuel _ _) as [[[[sigs0 cs0] f0] rv0]|] eqn:Hl;
        [|discriminate].
      injection H as <- _ _ _. cbn. eapply IH, Hl.
    + injection H as <- _ _ _. reflexivity.
  - injection H as <- _ _ _. reflexivity.
Qed.

Lemma list_entries_entries E r s children lDetails :
  forallb (fun g => negb (is_terminal g))
    (list_entries E r s children lDetails).1 = true.
Proof.
  revert s. induction children as [|child tl IH]; intros s; [reflexivity|].
  cbn [list_entries].
  destruct (createUDSEntry E r s child lDetails) as [lEntry s1].
  specialize (IH s1).
  destruct (list_entries E r s1 tl lDetails) as [sigs s2]. exact IH.
Qed.

(** X4: every reply ends the request exactly once.  The signals of a reply
    are a body without [finished] or [error] followed by one last signal:
    [finished] or an error for close, get, listDir, read, stat and mimetype;
    [opened] or an error for open; [position] or an error for seek.
    Nothing is emitted after an error. *)
Theorem every_reply_ends_once (E : Env) (s : BupSlave) (q : Request)
    (r : Reply) :
  dispatch E s q = Replied r ->
  exists body last,
    emitted r = body ++ [last]
    /\ forallb (fun g => negb (is_terminal g)) body = true
    /\ match q with
       | ReqOpen _ _ => is_Error last = true \/ last = Opened
       | ReqSeek pOffset => is_Error last = true \/ last = Position pOffset
       | _ => is_terminal last = true
       end.
Proof.
  intros H. destruct q; cbn [dispatch] in H.
  - injection H as <-. exists [], Finished. repeat split.
  - unfold get in H.
    destruct (checkCorrectRepository E s pUrl) as [[ok rest] s1].
    destruct ok; cbn [negb] in H;
      [|injection H as <-; eexists [], _; repeat split].
    destruct (mRepository s1) as [r0|]; [|discriminate].
    destruct (Repository.resolve r0 rest true) as [lNode|];
      [|injection H as <-; eexists [], _; repeat split].
    destruct (negb (Node.is_File (Repository.node r0 lNode)));
      [injection H as <-; eexists [], _; repeat split|].
    destruct (File.seek _ 0) as [rv f0].
    destruct (try_resume E f0 resume) as [[[rsigs rcalls] base] f1] eqn:Htry.
    destruct (get_loop _ _ f1 base) as [[[sigs cs] f2]|] eqn:Hl;
      [|discriminate].
    injection H as <-. cbn [emitted].
    destruct (get_loop_ends _ _ _ _ _ _ _ Hl) as (body & last & -> & Hb & Hl').
    eexists (_ :: _ :: rsigs ++ body), last.
    split; [cbn; rewrite <- app_assoc; reflexivity|].
    split; [|exact Hl'].
    cbn [forallb is_terminal negb andb]. rewrite forallb_app, Hb, andb_true_r.
    unfold try_resume in Htry.
    repeat case_match; simplify_eq; reflexivity.
  - unfold listDir in H.
    destruct (checkCorrectRepository E s pUrl) as [[ok rest] s1].
    destruct ok; cbn [negb] in H;
      [|injection H as <-; eexists [], _; repeat split].
    destruct (mRepository s1) as [r0|]; [|discriminate].
    destruct (Repository.resolve r0 rest true) as [lNode|];
      [|injection H as <-; eexists [], _; repeat split].
    destruct (negb (Node.is_Directory (Repository.node r0 lNode)));
      [injection H as <-; eexists [], _; repeat split|].
    match type of H with
    | context [list_entries E ?r' ?s' ?c ?d] =>
        pose proof (list_entries_entries E r' s' c d) as Hb;
        destruct (list_entries E r' s' c d) as [sigs s2]
    end.
    injection H as <-. exists sigs, Finished. repeat split. exact Hb.
  - unfold open in H.
    destruct (negb (Z.land pMode QIODevice_WriteOnly =? 0)%Z);
      [injection H as <-; eexists [], _; repeat split; left; reflexivity|].
    destruct (checkCorrectRepository E s pUrl) as [[ok rest] s1].
    destruct ok; cbn [negb] in H;
      [|injection H as <-; eexists [], _; repeat split; left; reflexivity].
    destruct (mRepository s1) as [r0|]; [|discriminate].
    destruct (Repository.resolve r0 rest true) as [lNode|];
      [|injection H as <-; eexists [], _; repeat split; left; reflexivity].
    destruct (negb (Node.is_File (Repository.node r0 lNode)));
      [injection H as <-; eexists [], _; repeat split; left; reflexivity|].
    destruct (File.seek _ 0) as [rv f0].
    destruct rv; cbn [is_ok negb] in H; injection H as <-.
    + eexists [_; _; _], _. repeat split. right. reflexivity.
    + eexists [], _. repeat split. left. reflexivity.
  - unfold read in H.
    destruct (mOpenFile s) as [h|];
      [|injection H as <-; eexists [], _; repeat split].
    destruct (owner_of s h) as [r0|]; [|discriminate].
    destruct (read_loop _ _ pSize) as [[[[sigs cs] f] rv]|] eqn:Hl;
      [|discriminate].
    pose proof (read_loop_data _ _ _ _ _ _ _ Hl) as Hb.
    destruct rv; injection H as <-; cbn [emitted].
    + exists (sigs ++ [Data []]), Finished.
      split; [rewrite <- app_assoc; reflexivity|].
      split; [|reflexivity]. rewrite forallb_app, Hb. reflexivity.
    + eexists sigs, _. repeat split. exact Hb.
  - unfold seek in H.
    destruct (mOpenFile s) as [h|];
      [|injection H as <-; eexists [], _; repeat split; left; reflexivity].
    destruct (owner_of s h) as [r0|]; [|discriminate].
    destruct (File.seek _ pOffset) as [rv f].
    destruct rv; cbn [is_ok negb] in H; injection H as <-;
      eexists [], _; repeat split; [right|left]; reflexivity.
  - unfold stat in H.
    destruct (checkCorrectRepository E s pUrl) as [[ok rest] s1].
    destruct ok; cbn [negb] in H;
      [|injection H as <-; eexists [], _; repeat split].
    destruct (mRepository s1) as [r0|]; [|discriminate].
    destruct (Repository.resolve r0 rest false) as [lNode|];
      [|injection H as <-; eexists [], _; repeat split].
    destruct (createUDSEntry E r0 s1 lNode _) as [lEntry s2].
    injection H as <-. eexists [_], _. repeat split.
  - unfold mimetype in H.
    destruct (checkCorrectRepository E s pUrl) as [[ok rest] s1].
    destruct ok; cbn [negb] in H;
      [|injection H as <-; eexists [], _; repeat split].
    destruct (mRepository s1) as [r0|]; [|discriminate].
    destruct (Repository.resolve r0 rest false) as [lNode|];
      [|injection H as <-; eexists [], _; repeat split].
    injection H as <-. eexists [_], _. repeat split.
Qed.

Lemma every_reply_ends_once_witness :
  exists body last,
    [MimeType "text/plain"; TotalSize 3; Data [x68; x69]; ProcessedSize 2;
     Data [x0a]; ProcessedSize 3; Data []; ProcessedSize 3; Finished]
    = body ++ [last]
    /\ forallb (fun g => negb (is_terminal g)) body = true
    /\ is_terminal last = true.
Proof.
  destruct (dispatch World.env initial
              (ReqGet (World.url "/home/u/b1/docs/report.txt") EmptyString))
    as [rp|k] eqn:Hd; [|vm_compute in Hd; discriminate].
  pose proof (every_reply_ends_once _ _ _ _ Hd) as H.
  vm_compute in Hd. injection Hd as <-. exact H.
Defined.

(** ** The caches over a session *)

Lemma createUDSEntry_state E r s pNode pDetails :
  exists pUid pGid,
    (createUDSEntry E r s pNode pDetails).2
    = if (0 <? pDetails)%Z
      then (ask E (ask E s (UserName pUid)).1.2 (GroupName pGid)).1.2
      else s.
Proof.
  unfold createUDSEntry.
  set (n := Repository.node r (described_node r pNode pDetails)).
  exists (to_uint (Node.mUid n)), (to_uint (Node.mGid n)).
  destruct (0 <? pDetails)%Z; [|reflexivity].
  cbn [ask].
  destruct (getUserName E s _) as [[user s1] a1]. cbn [fst snd].
  destruct (getGroupName E s1 _) as [[group s2] a2]. reflexivity.
Qed.

Section CachePredicates.

Variable E : Env.
Variable Q : BupSlave -> Prop.
Hypothesis Q_caches :
  forall s s', mUsercache s' = mUsercache s -> mGroupcache s' = mGroupcache s ->
               Q s -> Q s'.
Hypothesis Q_ask : forall s q, Q s -> Q (ask E s q).1.2.

Lemma createUDSEntry_Q r s pNode pDetails :
  Q s -> Q (createUDSEntry E r s pNode pDetails).2.
Proof.
  intros H. destruct (createUDSEntry_state E r s pNode pDetails)
    as (pUid & pGid & ->).
  destruct (0 <? pDetails)%Z; auto.
Qed.

Lemma list_entries_Q r s children lDetails :
  Q s -> Q (list_entries E r s children lDetails).2.
Proof.
  revert s. induction children as [|child tl IH]; intros s H; [exact H|].
  cbn [list_entries].
  pose proof (createUDSEntry_Q r s child lDetails H) as H1.
  destruct (createUDSEntry E r s child lDetails) as [lEntry s1].
  specialize (IH s1 H1).
  destruct (list_entries E r s1 tl lDetails) as [sigs s2]. exact IH.
Qed.

Lemma dispatch_Q s q r : dispatch E s q = Replied r -> Q s -> Q (after r).
Proof.
  intros H HQ.
  assert (forall s1 ok rest pUrl,
             checkCorrectRepository E s pUrl = (ok, rest, s1) -> Q s1) as Hloc.
  { intros s1 ok rest pUrl Hc.
    destruct (checkCorrectRepository_frame E _ _ _ _ _ Hc) as (_ & Hu & Hg).
    eapply Q_caches; eauto. }
  assert (forall s1 x, Q s1 -> Q (set_mRepository s1 x)) as Hrepo
    by (intros s1 x; apply Q_caches; reflexivity).
  assert (forall s1 x, Q s1 -> Q (set_mOpenFile s1 x)) as Hopen
    by (intros s1 x; apply Q_caches; reflexivity).
  destruct q; cbn [dispatch] in H.
  - injection H as <-. cbn. auto.
  - unfold get in H.
    destruct (checkCorrectRepository E s pUrl) as [[ok rest] s1] eqn:Hc.
    specialize (Hloc _ _ _ _ Hc). handler_cases H; auto.
  - unfold listDir in H.
    destruct (checkCorrectRepository E s pUrl) as [[ok rest] s1] eqn:Hc.
    specialize (Hloc _ _ _ _ Hc). handler_cases H; auto.
    match goal with
    | Hl : list_entries E ?r ?s1' ?c ?d = (_, ?s2) |- _ =>
        pose proof (list_entries_Q r s1' c d (Hrepo _ _ Hloc)) as HQ2;
        rewrite Hl in HQ2; exact HQ2
    end.
  - unfold open in H.
    destruct (negb _); [injection H as <-; exact HQ|].
    destruct (checkCorrectRepository E s pUrl) as [[ok rest] s1] eqn:Hc.
    specialize (Hloc _ _ _ _ Hc). handler_cases H; auto.
  - unfold read, owner_of in H. handler_cases H; auto.
  - unfold seek, owner_of in H. handler_cases H; auto.
  - unfold stat in H.
    destruct (checkCorrectRepository E s pUrl) as [[ok rest] s1] eqn:Hc.
    specialize (Hloc _ _ _ _ Hc). handler_cases H; auto.
    match goal with
    | Hl : createUDSEntry E ?r s1 ?c ?d = (_, ?s2) |- _ =>
        pose proof (createUDSEntry_Q r s1 c d Hloc) as HQ2;
        rewrite Hl in HQ2; exact HQ2
    end.
  - unfold mimetype in H.
    destruct (checkCorrectRepository E s pUrl) as [[ok rest] s1] eqn:Hc.
    specialize (Hloc _ _ _ _ Hc). handler_cases H; auto.
Qed.

End CachePredicates.

(** What one lookup does to every entry of the two caches. *)
Lemma ask_cached E s q q' :
  cached (ask E s q).1.2 q'
  = match cached s q' with
    | Some name => Some name
    | None => if decide (q' = q) then platform E q else None
    end.
Proof.
  destruct (cached s q') as [name|] eqn:Hq'.
  - apply ask_keeps, Hq'.
  - destruct (decide (q' = q)) as [->|Hne].
    + destruct (platform E q) as [name|] eqn:Hp.
      * destruct (ask_found E _ _ _ Hq' Hp) as (s' & -> & Hc). exact Hc.
      * rewrite (ask_not_found E _ _ Hq' Hp). exact Hq'.
    + apply ask_other; [congruence | exact Hq'].
Qed.

(** X5: no request removes or changes an entry of the name caches: a name
    cached for a user or group id before a request is cached for it
    afterwards. *)
Theorem cached_names_persist (E : Env) (s : BupSlave) (q : Request)
    (r : Reply) (k : NameQuery) (name : string) :
  dispatch E s q = Replied r ->
  cached s k = Some name ->
  cached (after r) k = Some name.
Proof.
  intros H. revert H.
  apply (dispatch_Q E (fun s => cached s k = Some name)).
  - intros s0 s' Hu Hg. destruct k; cbn; congruence.
  - intros s0 q0 Hc. apply ask_keeps, Hc.
Qed.

Lemma cached_names_persist_witness :
  let s :=
    session World.env initial
      [ReqStat (World.url "/home/u/b1/docs/report.txt") "1"] in
  let s' :=
    session World.env_later s [ReqStat (World.url "/srv/b2/notes") "1"] in
  cached s' (UserName 1000) = Some "simon".
Proof.
  intros s s'.
  destruct (dispatch World.env_later s
              (ReqStat (World.url "/srv/b2/notes") "1")) as [rp|k] eqn:Hd;
    [|vm_compute in Hd; discriminate].
  assert (s' = after rp) as ->.
  { subst s'. cbn [session]. rewrite Hd. reflexivity. }
  apply (cached_names_persist World.env_later s _ rp (UserName 1000) "simon" Hd).
  reflexivity.
Defined.

(** X6: in a session against an account database that does not change,
    every name in the caches is the name the database gives for that id; the
    decimal fallback of a failed lookup is never stored. *)
Theorem cached_names_are_platform_names (E : Env) (s : BupSlave)
    (k : NameQuery) (name : string) :
  reachable E s ->
  cached s k = Some name ->
  platform E k = Some name.
Proof.
  intros Hreach. revert k name. change (cache_sound E s).
  induction Hreach as [|s q r _ IH Hd].
  - intros k name. destruct k; cbn; rewrite lookup_empty; discriminate.
  - revert Hd IH. apply (dispatch_Q E (cache_sound E)).
    + intros s0 s' Hu Hg Hs k name. specialize (Hs k name).
      destruct k; cbn in *; rewrite ?Hu, ?Hg; exact Hs.
    + intros s0 q0 Hs k name. rewrite ask_cached.
      destruct (cached s0 k) as [n|] eqn:Hk.
      * intros [= <-]. apply Hs, Hk.
      * destruct (decide (k = q0)) as [->|]; [auto | discriminate].
Qed.

Lemma cached_names_are_platform_names_witness :
  platform World.env (GroupName 100) = Some "users".
Proof.
  apply (cached_names_are_platform_names World.env
           (session World.env initial
              [ReqListDir (World.url "/home/u/b1/docs") EmptyString])).
  - apply session_reachable, reachable_initial.
  - reflexivity.
Defined.

(** ** Listings and entries *)

Lemma createUDSEntry_name E r s pNode pDetails :
  uds_value (createUDSEntry E r s pNode pDetails).1 UDS_NAME
  = Some (UStr (Node.objectName (Repository.node r pNode))).
Proof.
  unfold createUDSEntry.
  destruct (negb (QString.isEmpty _)); destruct (0 <? pDetails)%Z;
    try (destruct (getUserName E s _) as [[user s1] a1];
         destruct (getGroupName E s1 _) as [[group s2] a2]);
    reflexivity.
Qed.

Lemma list_entries_names E r s children lDetails :
  exists entries,
    (list_entries E r s children lDetails).1 = map ListEntry entries
    /\ map (fun e => uds_value e UDS_NAME) entries
       = map (fun c => Some (UStr (Node.objectName (Repository.node r c))))
           children.
Proof.
  revert s. induction children as [|child tl IH]; intros s.
  - exists []. split; reflexivity.
  - cbn [list_entries].
    pose proof (createUDSEntry_name E r s child lDetails) as Hn.
    destruct (createUDSEntry E r s child lDetails) as [lEntry s1].
    destruct (IH s1) as (entries & He & Hnames).
    destruct (list_entries E r s1 tl lDetails) as [sigs s2].
    exists (lEntry :: entries). cbn [fst snd map] in *.
    split; [rewrite He; reflexivity | rewrite Hn, Hnames; reflexivity].
Qed.

(** X7: listDir on a directory reloads it, which is the one call of the
    request that can change the store (it makes no seek and no read on any
    file), and emits one entry per child the directory has once reloaded,
    in the order of its children and under the child's name, and then
    [finished]; an empty directory gives [finished] alone.  The repository
    held afterwards is the one the locator left, with that directory
    reloaded; the open-file slot is what it was. *)
Theorem listDir_lists_every_child (E : Env) (s : BupSlave) (pUrl : QUrl)
    (sDetails : string) (rest : list string) (s1 : BupSlave)
    (r : Repository.t) (lNode : NodePtr) :
  checkCorrectRepository E s pUrl = (true, rest, s1) ->
  mRepository s1 = Some r ->
  Repository.resolve r rest true = Some lNode ->
  Node.is_Directory (Repository.node r lNode) = true ->
  let r' := Repository.reload r lNode in
  exists rp entries,
    listDir E s pUrl sDetails = Replied rp
    /\ emitted rp = map ListEntry entries ++ [Finished]
    /\ map (fun e => uds_value e UDS_NAME) entries
       = map (fun c => Some (UStr (Node.objectName (Repository.node r' c))))
           (subNodes (Repository.tree r') lNode)
    /\ calls rp = [CallReload lNode]
    /\ mRepository (after rp) = Some r'
    /\ mOpenFile (after rp) = mOpenFile s.
Proof.
  intros Hc Hr Hres Hdir r'.
  unfold listDir. rewrite Hc. cbn [negb]. rewrite Hr, Hres, Hdir. cbn [negb].
  fold r'.
  destruct (list_entries_names E r' (set_mRepository s1 (Some r'))
              (subNodes (Repository.tree r') lNode)
              (details_level E sDetails)) as (entries & He & Hnames).
  pose proof (list_entries_frame E r' (set_mRepository s1 (Some r'))
                (subNodes (Repository.tree r') lNode)
                (details_level E sDetails)) as [Hm Ho].
  destruct (checkCorrectRepository_frame E _ _ _ _ _ Hc) as (Ho1 & _).
  destruct (list_entries E r' _ _ _) as [sigs s2]. cbn [fst snd] in *.
  eexists. exists entries. split; [reflexivity|]. cbn [emitted calls after].
  rewrite He. repeat split; auto. cbn in Ho. congruence.
Qed.

(** [/srv/b2/] has gained [later] since it was opened; the listing shows it
    at once. *)
Lemma listDir_lists_every_child_witness :
  exists rp entries,
    listDir World.env initial (World.url "/srv/b2") "0" = Replied rp
    /\ emitted rp = map ListEntry entries ++ [Finished]
    /\ map (fun e => uds_value e UDS_NAME) entries
       = [Some (UStr "notes"); Some (UStr "later")]
    /\ calls rp = [CallReload 0].
Proof.
  destruct (listDir_lists_every_child World.env initial
              (World.url "/srv/b2") "0" []
              (mkSlave ∅ ∅ (Some (Repository.mk 0 "/srv/b2/" World.b2 [] ∅))
                 None 1)
              (Repository.mk 0 "/srv/b2/" World.b2 [] ∅) 0%N
              eq_refl eq_refl eq_refl eq_refl)
    as (rp & entries & Hl & He & Hn & Hcalls & _).
  exists rp, entries. repeat split; assumption.
Defined.

(** What a reload brings in is there for the requests that follow. *)
Example listDir_reloads_the_directory :
  transcript World.env initial
    [ReqMimetype (World.url "/srv/b2/later");
     ReqListDir (World.url "/srv/b2") "0";
     ReqMimetype (World.url "/srv/b2/later")]
  = [inl [Error ERR_DOES_NOT_EXIST "later"];
     inl [ListEntry [(UDS_NAME, UStr "notes"); (UDS_FILE_TYPE, UNum 0x8000);
                     (UDS_ACCESS, UNum 0x1A4)];
          ListEntry [(UDS_NAME, UStr "later"); (UDS_FILE_TYPE, UNum 0x8000);
                     (UDS_ACCESS, UNum 0x1A4)];
          Finished];
     inl [MimeType "text/plain"; Finished]].
Proof. reflexivity. Qed.

(** X8: an entry never holds a field twice: whatever the node and the
    detail level, the fields of the entry are pairwise different, 3 or 4 of
    them up to level 0 and 9 or 10 above. *)
Theorem entry_fields_are_distinct (E : Env) (r : Repository.t) (s : BupSlave)
    (pNode : NodePtr) (pDetails : Z) :
  let e := (createUDSEntry E r s pNode pDetails).1 in
  NoDup (map fst e)
  /\ length e
     = (if (0 <? pDetails)%Z then 9 else 3)
       + (if Node.is_symlink (Repository.node r pNode) then 1 else 0).
Proof.
  unfold createUDSEntry, Node.is_symlink.
  destruct (negb (QString.isEmpty _)); destruct (0 <? pDetails)%Z;
    try (destruct (getUserName E s _) as [[user s1] a1];
         destruct (getGroupName E s1 _) as [[group s2] a2]);
    cbn; (split; [|reflexivity]);
    repeat (apply NoDup_cons; split;
            [intros Hin;
             repeat (apply elem_of_cons in Hin as [Hin|Hin]; [discriminate|]);
             inversion Hin|]);
    apply NoDup_nil_2.
Qed.

(** ** What a transfer delivers *)

Lemma get_loop_content fuel path f p sigs cs f' :
  get_loop fuel path f p = Some (sigs, cs, f') ->
  (forall o, File.read_fault f o = None) ->
  existsb is_Finished sigs = true
  /\ concat (data_chunks sigs)
     = drop (N.to_nat (File.mOffset f)) (File.bytes f).
Proof.
  revert f p sigs cs f'.
  induction fuel as [|fuel IH]; intros f p sigs cs f' H Hsound;
    [discriminate|].
  cbn [get_loop] in H.
  destruct (read_cases f None)
    as [[Hend Hr]|[[Hlt (e & Hfault & _)]|[Hlt (chunk & Hr & Hlen)]]].
  - rewrite Hr in H. injection H as <- _ _. split; [reflexivity|].
    cbn. symmetry. apply drop_ge. unfold File.size in Hend. lia.
  - rewrite Hsound in Hfault. discriminate.
  - destruct (read_ok_no_fault _ _ _ _ Hr) as (_ & _ & _ & Hchunk).
    rewrite Hr in H.
    destruct (get_loop fuel _ _ _) as [[[sigs0 cs0] f0]|] eqn:Hl;
      [|discriminate].
    injection H as <- _ _.
    destruct (IH _ _ _ _ _ Hl Hsound) as (Hfin & Hcontent).
    split; [exact Hfin|].
    cbn [data_chunks concat File.mOffset File.at_offset File.bytes] in *.
    rewrite Hcontent, Hchunk.
    replace (N.to_nat (File.mOffset f + File.chunk_len f None))
      with (N.to_nat (File.mOffset f) + N.to_nat (File.chunk_len f None))
      by lia.
    rewrite <- drop_drop. apply take_drop.
Qed.

(** A transfer that finishes leaves the file at its end. *)
Lemma get_loop_finishes_at_end fuel path f p sigs cs f' :
  get_loop fuel path f p = Some (sigs, cs, f') ->
  existsb is_Finished sigs = true ->
  (File.size f' <= File.mOffset f')%N
  /\ File.completePath f' = File.completePath f.
Proof.
  revert f p sigs cs f'.
  induction fuel as [|fuel IH]; intros f p sigs cs f' H Hfin; [discriminate|].
  cbn [get_loop] in H.
  destruct (read_cases f None)
    as [[Hend Hr]|[[Hlt (e & _ & Hr)]|[Hlt (chunk & Hr & _)]]];
    rewrite Hr in H.
  - injection H as _ _ <-. auto.
  - pose proof (error_code_not_end_of_data e) as Hne.
    destruct (File.error_code e); try contradiction;
      injection H as <- _ _; discriminate.
  - destruct (get_loop fuel _ _ _) as [[[sigs0 cs0] f0]|] eqn:Hl;
      [|discriminate].
    injection H as <- _ <-. exact (IH _ _ _ _ _ Hl Hfin).
Qed.

Lemma stream_from_last base sigs :
  stream_from base sigs ->
  List.last (processed_sizes sigs) 0%N
  = (base + N.of_nat (length (concat (data_chunks sigs))))%N.
Proof.
  induction 1 as [base|base chunk rest Hne Hs IH].
  - cbn. lia.
  - cbn [processed_sizes data_chunks concat].
    rewrite last_cons_default.
    destruct (stream_from_sizes _ _ Hs) as (ps & Hps & _).
    rewrite Hps in IH |- *. rewrite last_last in IH |- *.
    rewrite IH, length_app. lia.
Qed.

(** The resume block, case by case. *)
Lemma try_resume_cases E f lResumeOffset :
  try_resume E f lResumeOffset
  = match resume_request E lResumeOffset (File.size f) with
    | Some lOffset =>
        if is_ok (File.seek f lOffset).1
        then ([CanResume], [CallSeek lOffset], lOffset, (File.seek f lOffset).2)
        else ([], [CallSeek lOffset], 0%N, (File.seek f lOffset).2)
    | None => ([], [], 0%N, f)
    end.
Proof.
  unfold try_resume, resume_request.
  destruct (negb (QString.isEmpty lResumeOffset)); cbn [andb];
    [|destruct (toULongLong E lResumeOffset); reflexivity].
  destruct (toULongLong E lResumeOffset) as [lOffset|]; [|reflexivity].
  destruct (lOffset <? File.size f)%N; [|reflexivity].
  destruct (File.seek f lOffset) as [rv f']. destruct rv; reflexivity.
Qed.

(** get on a file the store reads without failure: the head, what the
    resume block emitted, and the stream of the bytes from the position the
    seeks have left the file at. *)
Lemma get_transfer E s pUrl lResumeOffset rest s1 r lNode rsigs rcalls base f1 :
  checkCorrectRepository E s pUrl = (true, rest, s1) ->
  mRepository s1 = Some r ->
  Repository.resolve r rest true = Some lNode ->
  Node.is_File (Repository.node r lNode) = true ->
  (forall o, File.read_fault (Repository.file r lNode) o = None) ->
  (File.size (Repository.file r lNode) < two64)%N ->
  try_resume E (File.seek (Repository.file r lNode) 0).2 lResumeOffset
  = (rsigs, rcalls, base, f1) ->
  exists rp tail,
    get E s pUrl lResumeOffset = Replied rp
    /\ emitted rp
       = [MimeType (Node.mMimeType (Repository.node r lNode));
          TotalSize (File.size (Repository.file r lNode))] ++ rsigs ++ tail
    /\ seeks (calls rp) = 0%N :: seeks rcalls
    /\ stream_from base tail
    /\ concat (data_chunks tail)
       = drop (N.to_nat (File.mOffset f1))
           (File.bytes (Repository.file r lNode)).
Proof.
  intros Hc Hr Hres Hfile Hsound Hsz Htry.
  destruct (get_on_file E s pUrl lResumeOffset rest s1 r lNode Hc Hr Hres
              Hfile _ _ _ _ Htry) as (sigs & cs & f2 & Hloop & Hget).
  set (lFile := Repository.file r lNode) in *.
  destruct (seek_same_store lFile 0) as [p0 Hp0].
  assert (exists p1, f1 = File.at_offset lFile p1) as [p1 Hf1].
  { destruct (try_resume_same_store _ _ _ _ _ _ _ Htry) as [p1 ->].
    rewrite Hp0. exists p1. reflexivity. }
  assert (base <= File.mOffset f1)%N as Hbase.
  { rewrite try_resume_cases in Htry.
    destruct (resume_request E lResumeOffset _) as [lOffset|];
      [|injection Htry as _ _ <- _; lia].
    destruct (seek_cases (File.seek lFile 0).2 lOffset) as [[Hs _]|[Hs _]];
      rewrite Hs in Htry; cbn [is_ok fst snd] in Htry;
      injection Htry as _ _ <- <-; cbn; lia. }
  destruct (get_loop_content _ _ _ _ _ _ _ Hloop) as (Hfin & Hcontent).
  { intros o. rewrite Hf1. apply Hsound. }
  exists (mkReply
            ([MimeType (Node.mMimeType (Repository.node r lNode));
              TotalSize (File.size lFile)] ++ rsigs ++ sigs)
            (CallSeek 0 :: rcalls ++ cs)
            (set_mRepository s1 (Some (Repository.set_file r lNode f2)))),
    sigs.
  split; [exact Hget|]. cbn [emitted calls].
  split; [reflexivity|]. split.
  - change (seeks (CallSeek 0 :: rcalls ++ cs))
      with (0%N :: seeks (rcalls ++ cs)).
    f_equal. pose proof (get_loop_calls _ _ _ _ _ _ _ Hloop) as Hcs.
    unfold seeks in *. rewrite omap_app, Hcs. apply app_nil_r.
  - split.
    + eapply get_loop_stream; [exact Hloop | exact Hbase | | exact Hfin].
      rewrite Hf1. exact Hsz.
    + rewrite Hcontent, Hf1. reflexivity.
Qed.

(** X9: a get of a file the store reads without failure and rewinds, with
    no resume offset to seek to or one the store can position at, delivers
    in its chunks exactly the bytes of the file from the starting offset on:
    offset 0, or the resume offset when it is given, parses and is below
    the size.  Resume-accepted is signalled exactly in the second case.  The
    reply ends with [finished] and its last processed size is the size of
    the file. *)
Theorem get_delivers_the_file (E : Env) (s : BupSlave) (pUrl : QUrl)
    (lResumeOffset : string) (rest : list string) (s1 : BupSlave)
    (r : Repository.t) (lNode : NodePtr) :
  checkCorrectRepository E s pUrl = (true, rest, s1) ->
  mRepository s1 = Some r ->
  Repository.resolve r rest true = Some lNode ->
  Node.is_File (Repository.node r lNode) = true ->
  let lFile := Repository.file r lNode in
  let asked := resume_request E lResumeOffset (File.size lFile) in
  (forall o, File.read_fault lFile o = None) ->
  File.seek_fault lFile 0 = false ->
  (forall lOffset, asked = Some lOffset ->
                   File.seek_fault lFile lOffset = false) ->
  (File.size lFile < two64)%N ->
  exists rp,
    get E s pUrl lResumeOffset = Replied rp
    /\ succeeded rp = true
    /\ existsb is_CanResume (emitted rp)
       = match asked with Some _ => true | None => false end
    /\ concat (data_chunks (emitted rp))
       = drop (N.to_nat (default 0%N asked)) (File.bytes lFile)
    /\ List.last (processed_sizes (emitted rp)) 0%N = File.size lFile.
Proof.
  intros Hc Hr Hres Hfile lFile asked Hsound Hrewind Hseek Hsz.
  assert (File.seek lFile 0 = (Ok0, File.at_offset lFile 0)) as Hseek0.
  { destruct (seek_cases lFile 0) as [[Hs _]|[_ [Hgt|Hf]]];
      [exact Hs | lia | congruence]. }
  assert (forall o, asked = Some o -> (o < File.size lFile)%N) as Hbelow.
  { intros o. subst asked. unfold resume_request.
    destruct (toULongLong E lResumeOffset) as [o'|]; [|discriminate].
    destruct (negb _); cbn [andb]; [|discriminate].
    destruct (N.ltb_spec o' (File.size lFile)); [|discriminate].
    intros [= <-]. assumption. }
  assert (try_resume E (File.seek lFile 0).2 lResumeOffset
          = (match asked with Some _ => [CanResume] | None => [] end,
             (match asked with Some o => [CallSeek o] | None => [] end),
             default 0%N asked,
             File.at_offset lFile (default 0%N asked))) as Htry.
  { rewrite try_resume_cases, Hseek0. cbn [snd].
    change (File.size (File.at_offset lFile 0)) with (File.size lFile).
    fold asked. destruct asked as [o|] eqn:Hasked; [|reflexivity].
    specialize (Hseek o eq_refl). specialize (Hbelow o eq_refl).
    destruct (seek_cases (File.at_offset lFile 0) o)
      as [[Hs _]|[_ [Hgt|Hf]]];
      [rewrite Hs; reflexivity | | ].
    - change (File.size (File.at_offset lFile 0)) with (File.size lFile) in Hgt.
      lia.
    - change (File.seek_fault (File.at_offset lFile 0))
        with (File.seek_fault lFile) in Hf. congruence. }
  destruct (get_transfer E s pUrl lResumeOffset rest s1 r lNode _ _ _ _
              Hc Hr Hres Hfile Hsound Hsz Htry)
    as (rp & tail & Hget & Hem & _ & Hstream & Hcontent).
  cbn [File.mOffset File.at_offset] in Hcontent. fold lFile in Hcontent.
  pose proof (stream_from_last _ _ Hstream) as Hlast.
  assert (existsb is_Finished tail = true
          /\ existsb is_CanResume tail = false) as [Hfin Hnr].
  { clear -Hstream. induction Hstream; cbn; auto. }
  assert (default 0%N asked <= File.size lFile)%N as Hstart.
  { destruct asked as [o|]; cbn; [specialize (Hbelow o eq_refl)|]; lia. }
  exists rp. split; [exact Hget|]. unfold succeeded. rewrite Hem.
  destruct asked as [o|];
    cbn [app existsb is_Finished is_CanResume orb data_chunks processed_sizes
         default] in *;
    rewrite Hfin, ?Hnr, Hcontent, Hlast, Hcontent, length_drop;
    repeat split; unfold File.size in *; lia.
Qed.

Lemma get_delivers_the_file_witness :
  exists rp,
    get World.env initial (World.url "/home/u/b1/docs/report.txt") "1"
    = Replied rp
    /\ existsb is_CanResume (emitted rp) = true
    /\ concat (data_chunks (emitted rp)) = [x69; x0a]
    /\ List.last (processed_sizes (emitted rp)) 0%N = 3%N.
Proof.
  destruct (get_delivers_the_file World.env initial
              (World.url "/home/u/b1/docs/report.txt") "1"
              ["docs"; "report.txt"]
              (mkSlave ∅ ∅ (Some (Repository.mk 0 "/home/u/b1/" World.b1 [] ∅))
                 None 1)
              (Repository.mk 0 "/home/u/b1/" World.b1 [] ∅) 2%N
              eq_refl eq_refl eq_refl eq_refl (fun _ => eq_refl) eq_refl
              (fun _ _ => eq_refl) eq_refl)
    as (rp & Hget & _ & Hcan & Hbytes & Hlast).
  exists rp. repeat split; assumption.
Defined.

(** ** The open file across requests *)

Lemma open_file_set_file s h r f :
  mOpenFile s = Some h ->
  owner_of s h = Some r ->
  open_file (set_mRepository s (Some (Repository.set_file r (target h) f)))
  = Some f.
Proof.
  intros Ho Hr. unfold open_file, owner_of in *. cbn. rewrite Ho.
  destruct (mRepository s) as [r0|]; [|discriminate].
  destruct (Nat.eqb_spec (Repository.id r0) (owner h)) as [Hid|];
    [|discriminate].
  injection Hr as <-. cbn. rewrite Hid, Nat.eqb_refl.
  unfold Repository.file. cbn. rewrite lookup_insert_eq. reflexivity.
Qed.

Lemma open_file_inv s f :
  open_file s = Some f ->
  exists h r, mOpenFile s = Some h /\ owner_of s h = Some r
              /\ f = Repository.file r (target h).
Proof.
  unfold open_file. destruct (mOpenFile s) as [h|]; [|discriminate].
  destruct (owner_of s h) as [r|] eqn:Hr; [|discriminate].
  intros Hf. injection Hf as <-. exists h, r. repeat split. exact Hr.
Qed.

(** X10: a read with a budget that fits an [int], on an open file whose
    repository is the one held, emits chunks that are not empty and are
    together the next bytes of the file, each read where the store did not
    fail.  The reply ends in one of three ways.  When the chunks use up the
    budget: with the empty chunk and [finished].  When the file comes to
    its end first: with an error that carries the end-of-data code.  When
    the store fails first, at the offset reached: with an error that
    carries the code of that failure.  In the first two cases the open file
    is left after the bytes delivered; in the third, where the store left
    it. *)
Theorem read_delivers_and_advances (s : BupSlave) (f : File.t) (pSize : N) :
  open_file s = Some f ->
  (pSize < 2 ^ 31)%N ->
  exists rp chunks,
    read s pSize = Replied rp
    /\ Forall (fun chunk => chunk <> []) chunks
    /\ concat chunks
       = take (length (concat chunks))
           (drop (N.to_nat (File.mOffset f)) (File.bytes f))
    /\ Forall (fun o => File.read_fault f o = None)
         (chunk_starts (File.mOffset f) chunks)
    /\ let total := N.of_nat (length (concat chunks)) in
       let stop := (File.mOffset f + total)%N in
       (emitted rp = map Data chunks ++ [Data []; Finished]
        /\ total = pSize
        /\ open_file (after rp) = Some (File.at_offset f stop))
       \/ (emitted rp
           = map Data chunks ++ [Error ERR_NO_CONTENT (File.completePath f)]
           /\ (total < pSize)%N
           /\ (File.size f <= stop)%N
           /\ open_file (after rp) = Some (File.at_offset f stop))
       \/ (exists e,
              emitted rp
              = map Data chunks
                ++ [Error (File.error_code e) (File.completePath f)]
              /\ (total < pSize)%N
              /\ (stop < File.size f)%N
              /\ File.read_fault f stop = Some e
              /\ open_file (after rp)
                 = Some (File.at_offset f (File.read_lands f stop))).
Proof.
  intros Hopen Hint.
  destruct (open_file_inv _ _ Hopen) as (h & r & Ho & Hr & ->).
  destruct (read_outcomes s h r pSize Ho Hr Hint)
    as (rp & chunks & f' & Hread & Hafter & Hne & Hbytes & Hstarts & Hcase).
  exists rp, chunks. split; [exact Hread|]. split; [exact Hne|].
  split; [exact Hbytes|]. split; [exact Hstarts|].
  pose proof (open_file_set_file s h r f' Ho Hr) as Hfile.
  rewrite <- Hafter in Hfile. cbn zeta in Hcase |- *.
  destruct Hcase as [(Hem & Ht & Hf)|[(Hem & Ht & Hend & Hf)
                                      |(e & Hem & Ht & Hlt & Hfault & Hf)]].
  - left. rewrite Hfile, Hf. auto.
  - right; left. rewrite Hfile, Hf. auto.
  - right; right. exists e. rewrite Hfile, Hf. auto 10.
Qed.

(** [torn] misses a piece at offset 2: a read of 3 bytes delivers the first
    two and then the code of the store's failure. *)
Lemma read_delivers_and_advances_witness :
  let s := session World.env initial [ReqOpen (World.url "/home/u/b1/torn") 1] in
  transcript World.env s [ReqRead 3]
  = [inl [Data [x61; x62]; Error ERR_DOES_NOT_EXIST "torn"]]
  /\ exists rp chunks,
       read s 3 = Replied rp
       /\ concat chunks = take (length (concat chunks)) [x61; x62; x63; x64].
Proof.
  intros s. split; [reflexivity|].
  destruct (read_delivers_and_advances s (World.b1_file 7) 3
              eq_refl eq_refl)
    as (rp & chunks & Hread & _ & Hbytes & _).
  exists rp, chunks. split; [exact Hread | exact Hbytes].
Defined.

(** X11: a seek on an open file whose repository is the one held makes one
    seek on the store, at the offset asked for.  When that offset is not
    beyond the size of the file and the store can position there, the reply
    is the new position and the open file is at that offset, so that the
    next read starts there.  Otherwise the reply is the seek error with the
    path of the file, and the open file is where the store left it. *)
Theorem seek_moves_the_open_file (s : BupSlave) (f : File.t) (pOffset : N) :
  open_file s = Some f ->
  exists rp,
    seek s pOffset = Replied rp
    /\ calls rp = [CallSeek pOffset]
    /\ if (pOffset <=? File.size f)%N && negb (File.seek_fault f pOffset)
       then emitted rp = [Position pOffset]
            /\ open_file (after rp) = Some (File.at_offset f pOffset)
       else emitted rp = [Error ERR_COULD_NOT_SEEK (File.completePath f)]
            /\ open_file (after rp)
               = Some (File.at_offset f
                         (File.seek_lands f (File.mOffset f) pOffset)).
Proof.
  intros Hopen.
  destruct (open_file_inv _ _ Hopen) as (h & r & Ho & Hr & ->).
  set (f := Repository.file r (target h)).
  unfold seek. rewrite Ho, Hr. fold f.
  destruct (seek_cases f pOffset) as [(-> & Hle & Hf)|[-> Hwhy]];
    cbn [is_ok negb];
    (eexists; split; [reflexivity|]); cbn [emitted calls after];
    (split; [reflexivity|]);
    rewrite (open_file_set_file s h r _ Ho Hr).
  - apply N.leb_le in Hle. rewrite Hle, Hf. cbn [andb negb]. auto.
  - destruct Hwhy as [Hgt|Hf].
    + apply N.leb_gt in Hgt. rewrite Hgt. cbn [andb]. auto.
    + rewrite Hf. cbn [negb]. rewrite andb_false_r. auto.
Qed.

Lemma seek_moves_the_open_file_witness :
  let s :=
    session World.env initial
      [ReqOpen (World.url "/home/u/b1/docs/report.txt") 1] in
  transcript World.env s [ReqSeek 2; ReqRead 5; ReqSeek 4]
  = [inl [Position 2];
     inl [Data [x0a]; Error ERR_NO_CONTENT "docs/report.txt"];
     inl [Error ERR_COULD_NOT_SEEK "docs/report.txt"]]
  /\ exists rp,
       seek s 2 = Replied rp /\ calls rp = [CallSeek 2]
       /\ emitted rp = [Position 2].
Proof.
  intros s. split; [reflexivity|].
  destruct (seek_moves_the_open_file s
              (World.plain_file "docs/report.txt" World.report_bytes) 2
              eq_refl) as (rp & Hseek & Hcalls & Hcase).
  exists rp. split; [exact Hseek|]. split; [exact Hcalls|].
  exact (proj1 Hcase).
Defined.

(** X12: the open-file slot changes in two places only.  close empties it;
    an open that replies without error puts in it the file node its path
    has just resolved to, in the repository held, and that file is at
    position 0; every other reply, of any request, leaves [mOpenFile] as it
    was. *)
Theorem open_file_slot_changes_on_open_and_close (E : Env) (s : BupSlave)
    (q : Request) (rp : Reply) :
  dispatch E s q = Replied rp ->
  match q with
  | ReqClose => mOpenFile (after rp) = None
  | ReqOpen pUrl _ =>
      if failed rp then mOpenFile (after rp) = mOpenFile s
      else
        exists r rest lNode f,
          (checkCorrectRepository E s pUrl).1 = (true, rest)
          /\ mRepository (after rp) = Some r
          /\ Repository.resolve r rest true = Some lNode
          /\ Node.is_File (Repository.node r lNode) = true
          /\ mOpenFile (after rp) = Some (mkFilePtr (Repository.id r) lNode)
          /\ open_file (after rp) = Some f
          /\ f = Repository.file r lNode
          /\ File.mOffset f = 0%N
  | _ => mOpenFile (after rp) = mOpenFile s
  end.
Proof.
  intros H. destruct q; cbn [dispatch] in H.
  - injection H as <-. reflexivity.
  - unfold get in H.
    destruct (checkCorrectRepository E s pUrl) as [[ok rest] s1] eqn:Hc.
    destruct (checkCorrectRepository_frame E _ _ _ _ _ Hc) as (Ho & _).
    handler_cases H; auto.
  - unfold listDir in H.
    destruct (checkCorrectRepository E s pUrl) as [[ok rest] s1] eqn:Hc.
    destruct (checkCorrectRepository_frame E _ _ _ _ _ Hc) as (Ho & _).
    handler_cases H; auto.
    match goal with
    | Hl : list_entries E ?r ?s1' ?c ?d = (_, ?s2) |- _ =>
        pose proof (list_entries_frame E r s1' c d) as [_ Hm];
        rewrite Hl in Hm; cbn in Hm; congruence
    end.
  - unfold open in H.
    destruct (negb (Z.land pMode QIODevice_WriteOnly =? 0)%Z);
      [injection H as <-; reflexivity|].
    destruct (checkCorrectRepository E s pUrl) as [[ok rest] s1] eqn:Hc.
    destruct (checkCorrectRepository_frame E _ _ _ _ _ Hc) as (Ho & _).
    destruct ok; cbn [negb] in H; [|injection H as <-; exact Ho].
    destruct (mRepository s1) as [r|] eqn:Hr; [|discriminate].
    destruct (Repository.resolve r rest true) as [lNode|] eqn:Hres;
      [|injection H as <-; exact Ho].
    destruct (Node.is_File (Repository.node r lNode)) eqn:Hfile;
      cbn [negb] in H; [|injection H as <-; exact Ho].
    destruct (seek_cases (Repository.file r lNode) 0) as [[Hs _]|[Hs _]];
      rewrite Hs in H; cbn [is_ok negb] in H; injection H as <-;
      [|exact Ho].
    cbn [failed emitted existsb is_Error orb after].
    exists (Repository.set_file r lNode
              (File.at_offset (Repository.file r lNode) 0)),
      rest, lNode, (File.at_offset (Repository.file r lNode) 0).
    assert (Repository.file
              (Repository.set_file r lNode
                 (File.at_offset (Repository.file r lNode) 0)) lNode
            = File.at_offset (Repository.file r lNode) 0) as Hget.
    { unfold Repository.file at 1. cbn. rewrite lookup_insert_eq.
      reflexivity. }
    repeat split; auto.
    unfold open_file, owner_of. cbn. rewrite Nat.eqb_refl.
    cbn [target]. rewrite Hget. reflexivity.
  - unfold read, owner_of in H. handler_cases H; auto.
  - unfold seek, owner_of in H. handler_cases H; auto.
  - unfold stat in H.
    destruct (checkCorrectRepository E s pUrl) as [[ok rest] s1] eqn:Hc.
    destruct (checkCorrectRepository_frame E _ _ _ _ _ Hc) as (Ho & _).
    handler_cases H; auto.
    match goal with
    | Hl : createUDSEntry E ?r s1 ?c ?d = (_, ?s2) |- _ =>
        pose proof (createUDSEntry_frame E r s1 c d) as [_ Hm];
        rewrite Hl in Hm; cbn in Hm; congruence
    end.
  - unfold mimetype in H.
    destruct (checkCorrectRepository E s pUrl) as [[ok rest] s1] eqn:Hc.
    destruct (checkCorrectRepository_frame E _ _ _ _ _ Hc) as (Ho & _).
    handler_cases H; auto.
Qed.

(** A get has left [report.txt] at its end; an open of [latest], a link to
    it, puts the file itself in the slot, at position 0. *)
Lemma open_file_slot_changes_on_open_and_close_witness :
  let s :=
    session World.env initial
      [ReqGet (World.url "/home/u/b1/docs/report.txt") EmptyString] in
  exists rp f,
    open World.env s (World.url "/home/u/b1/docs/latest") 1 = Replied rp
    /\ mOpenFile (after rp) = Some (mkFilePtr 0 2)
    /\ open_file (after rp) = Some f /\ File.mOffset f = 0%N
    /\ (File.mOffset
          <$> (Repository.files <$> mRepository s) ≫= (fun m => m !! 2%N))
       = Some 3%N.
Proof.
  intros s.
  destruct (open World.env s (World.url "/home/u/b1/docs/latest") 1)
    as [rp|k] eqn:Hopen; [|vm_compute in Hopen; discriminate].
  pose proof (open_file_slot_changes_on_open_and_close World.env s
                (ReqOpen (World.url "/home/u/b1/docs/latest") 1) rp Hopen)
    as H.
  assert (failed rp = false) as Hf
    by (vm_compute in Hopen; injection Hopen as <-; reflexivity).
  cbn beta iota in H. rewrite Hf in H.
  destruct H as (r & rest & lNode & f & _ & _ & _ & _ & _ & Hfile & _ & Hpos).
  exists rp, f. split; [reflexivity|].
  split; [vm_compute in Hopen; injection Hopen as <-; reflexivity|].
  repeat split; assumption || reflexivity.
Defined.

(** ** Requests that meet on one file *)

(** X14: a get that finishes reads the file to its end, and the position
    belongs to the file, not to the request: when the file transferred is
    the one that is open, the open file is left at its end, and the next
    read with a budget replies with the end-of-data error. *)
Theorem get_moves_the_open_file (E : Env) (s : BupSlave) (pUrl : QUrl)
    (lResumeOffset : string) (rest : list string) (r : Repository.t)
    (h : FilePtr) (rp : Reply) (pSize : N) :
  checkCorrectRepository E s pUrl = (true, rest, s) ->
  mRepository s = Some r ->
  mOpenFile s = Some h ->
  owner h = Repository.id r ->
  Repository.resolve r rest true = Some (target h) ->
  get E s pUrl lResumeOffset = Replied rp ->
  succeeded rp = true ->
  (0 < pSize)%N ->
  exists f rr,
    open_file (after rp) = Some f
    /\ (File.size f <= File.mOffset f)%N
    /\ read (after rp) pSize = Replied rr
    /\ emitted rr = [Error ERR_NO_CONTENT (File.completePath f)].
Proof.
  intros Hc Hr Ho Hid Hres Hget Hok Hpos.
  assert (owner_of s h = Some r) as Hown.
  { unfold owner_of. rewrite Hr, Hid, Nat.eqb_refl. reflexivity. }
  destruct (Node.is_File (Repository.node r (target h))) eqn:Hfile.
  2:{ unfold get in Hget. rewrite Hc in Hget. cbn [negb] in Hget.
      rewrite Hr, Hres, Hfile in Hget. injection Hget as <-. discriminate. }
  destruct (try_resume E (File.seek (Repository.file r (target h)) 0).2
              lResumeOffset) as [[[rsigs rcalls] base] f1] eqn:Htry.
  destruct (get_on_file E s pUrl lResumeOffset rest s r (target h) Hc Hr Hres
              Hfile _ _ _ _ Htry) as (sigs & cs & f2 & Hloop & Hget').
  rewrite Hget' in Hget. injection Hget as <-. cbn [after emitted] in *.
  assert (existsb is_Finished sigs = true) as Hfin.
  { unfold succeeded in Hok. cbn [emitted existsb is_Finished orb app] in Hok.
    rewrite existsb_app in Hok.
    unfold try_resume in Htry.
    repeat case_match; simplify_eq; exact Hok. }
  destruct (get_loop_finishes_at_end _ _ _ _ _ _ _ Hloop Hfin) as (Hend & _).
  pose proof (open_file_set_file s h r f2 Ho Hown) as Hafter.
  destruct (open_file_inv _ _ Hafter) as (h' & r' & Ho' & Hr' & Hf2).
  destruct (read_at_end_is_error _ h' r' pSize Ho' Hr' Hpos) as (rr & Hread & Hem).
  { rewrite <- Hf2. exact Hend. }
  rewrite <- Hf2 in Hem. exists f2, rr. repeat split; assumption.
Qed.

Lemma get_moves_the_open_file_witness :
  let s :=
    session World.env initial
      [ReqOpen (World.url "/home/u/b1/docs/report.txt") 1] in
  transcript World.env s
    [ReqGet (World.url "/home/u/b1/docs/latest") EmptyString; ReqRead 1]
  = [inl [MimeType "text/plain"; TotalSize 3; Data [x68; x69];
          ProcessedSize 2; Data [x0a]; ProcessedSize 3; Data [];
          ProcessedSize 3; Finished];
     inl [Error ERR_NO_CONTENT "docs/report.txt"]]
  /\ exists rp f,
       get World.env s (World.url "/home/u/b1/docs/latest") EmptyString
       = Replied rp
       /\ open_file (after rp) = Some f
       /\ (File.size f <= File.mOffset f)%N.
Proof.
  intros s. split; [reflexivity|].
  destruct (get World.env s (World.url "/home/u/b1/docs/latest") EmptyString)
    as [rp|k] eqn:Hget; [|vm_compute in Hget; discriminate].
  destruct (get_moves_the_open_file World.env s
              (World.url "/home/u/b1/docs/latest") EmptyString
              ["docs"; "latest"]
              (Repository.mk 0 "/home/u/b1/" World.b1 []
                 (<[2%N := World.plain_file "docs/report.txt"
                              World.report_bytes]> ∅))
              (mkFilePtr 0 2) rp 1
              eq_refl eq_refl eq_refl eq_refl eq_refl Hget)
    as (f & rr & Hfile & Hend & _).
  - vm_compute in Hget. injection Hget as <-. reflexivity.
  - reflexivity.
  - exists rp, f. auto.
Defined.

(** ** Faults *)

Lemma read_seek_stale s h n :
  mOpenFile s = Some h -> owner_of s h = None ->
  read s n = Fault (StaleFile (owner h))
  /\ seek s n = Fault (StaleFile (owner h)).
Proof. intros Ho Hs. unfold read, seek. rewrite Ho, Hs. auto. Qed.

(** X15: a handler goes through [mRepository] only after the locator has
    said yes, and then a repository is installed; and the loops of get and
    read end.  So every request is answered, with one exception: a read or
    a seek while [mOpenFile] points into a repository that is no longer the
    one held. *)
Theorem handlers_fault_only_on_a_stale_file (E : Env) (s : BupSlave)
    (q : Request) :
  (exists rp, dispatch E s q = Replied rp)
  \/ (exists h,
         mOpenFile s = Some h /\ owner_of s h = None
         /\ dispatch E s q = Fault (StaleFile (owner h))
         /\ ((exists n, q = ReqRead n) \/ (exists o, q = ReqSeek o))).
Proof.
  destruct (dispatch E s q) as [rp|k] eqn:Hd; [left; eauto|right].
  destruct (dispatch_faults E s q k Hd) as (h & Ho & Hs & -> & Hq).
  exists h. auto.
Qed.

(** X16: once a file is open, a stat or mimetype request for a path outside
    the repository held (in any session, whether or not another repository
    is found) leaves [mOpenFile] pointing into the repository it has just
    given up: the next read or seek goes through the stale pointer. *)
Theorem request_outside_strands_the_open_file (E : Env) (s : BupSlave)
    (pUrl : QUrl) (details : string) (h : FilePtr) (q : Request) :
  reachable E s ->
  mOpenFile s = Some h ->
  fast_path s (normalizedPath pUrl) = false ->
  q = ReqStat pUrl details \/ q = ReqMimetype pUrl ->
  exists rp,
    dispatch E s q = Replied rp
    /\ mOpenFile (after rp) = Some h
    /\ forall n,
         read (after rp) n = Fault (StaleFile (owner h))
         /\ seek (after rp) n = Fault (StaleFile (owner h)).
Proof.
  intros Hreach Hopen Hf Hq.
  destruct (checkCorrectRepository E s pUrl) as [[ok rest] s1] eqn:Hc.
  destruct (checkCorrectRepository_stale E _ _ _ _ _ _
              (reachable_allocated E _ Hreach) Hopen Hf Hc) as (Ho1 & Hstale).
  assert (forall s2, mRepository s2 = mRepository s1 ->
                     mOpenFile s2 = mOpenFile s1 ->
                     mOpenFile s2 = Some h
                     /\ forall n,
                          read s2 n = Fault (StaleFile (owner h))
                          /\ seek s2 n = Fault (StaleFile (owner h)))
    as Hsame.
  { intros s2 Hr2 Ho2. split; [congruence|]. intros n.
    apply read_seek_stale; [congruence|].
    unfold owner_of in *. rewrite Hr2. exact Hstale. }
  destruct Hq as [-> | ->]; cbn [dispatch].
  - unfold stat. rewrite Hc. destruct ok; cbn [negb];
      [|eexists; split; [reflexivity|]; apply Hsame; reflexivity].
    destruct (checkCorrectRepository_true E _ _ _ _ Hc) as (r & Hr & _).
    rewrite Hr.
    destruct (Repository.resolve r rest false) as [lNode|];
      [|eexists; split; [reflexivity|]; apply Hsame; reflexivity].
    pose proof (createUDSEntry_frame E r s1 lNode (details_level E details))
      as [Hm Hn].
    destruct (createUDSEntry E r s1 lNode _) as [lEntry s2].
    eexists; split; [reflexivity|]. apply Hsame; assumption.
  - unfold mimetype. rewrite Hc. destruct ok; cbn [negb];
      [|eexists; split; [reflexivity|]; apply Hsame; reflexivity].
    destruct (checkCorrectRepository_true E _ _ _ _ Hc) as (r & Hr & _).
    rewrite Hr.
    destruct (Repository.resolve r rest false) as [lNode|];
      eexists; (split; [reflexivity|]); apply Hsame; reflexivity.
Qed.

Lemma request_outside_strands_the_open_file_witness :
  let s :=
    session World.env initial
      [ReqOpen (World.url "/home/u/b1/docs/report.txt") 1] in
  exists rp,
    stat World.env s (World.url "/nowhere/at/all") "0" = Replied rp
    /\ emitted rp = [no_repository (World.url "/nowhere/at/all")]
    /\ read (after rp) 1 = Fault (StaleFile 0).
Proof.
  intros s.
  destruct (request_outside_strands_the_open_file World.env s
              (World.url "/nowhere/at/all") "0" (mkFilePtr 0 2)
              (ReqStat (World.url "/nowhere/at/all") "0")
              (session_reachable _ _ _ (reachable_initial _))
              eq_refl eq_refl (or_introl eq_refl))
    as (rp & Hstat & _ & Hread).
  exists rp. split; [exact Hstat|]. split; [|apply Hread].
  cbn [dispatch] in Hstat. vm_compute in Hstat. injection Hstat as <-.
  reflexivity.
Defined.

(** ** Seeks that fail *)

Lemma stream_from_no_error base sigs :
  stream_from base sigs -> existsb is_Error sigs = false.
Proof. induction 1; cbn; auto. Qed.

(** X17: get does not look at the result of its rewind, and a resume seek
    that fails costs the resume and nothing else.  For a file the store
    reads without failure, whatever the two seeks return, the reply is the
    MIME type, the full size, resume-accepted exactly when there is an
    offset to resume at and the seek to it returned 0, and then the stream
    of the bytes from the position the seeks have left the file at to its
    end, counted from the accepted offset or else from 0; it ends with
    [finished] and carries no error.  The store is asked to seek to 0 and
    then, when there is an offset to resume at, to that offset, and nowhere
    else. *)
Theorem get_reads_on_from_where_the_seeks_left (E : Env) (s : BupSlave)
    (pUrl : QUrl) (lResumeOffset : string) (rest : list string)
    (s1 : BupSlave) (r : Repository.t) (lNode : NodePtr) :
  checkCorrectRepository E s pUrl = (true, rest, s1) ->
  mRepository s1 = Some r ->
  Repository.resolve r rest true = Some lNode ->
  Node.is_File (Repository.node r lNode) = true ->
  let lFile := Repository.file r lNode in
  let f0 := (File.seek lFile 0).2 in
  let asked := resume_request E lResumeOffset (File.size lFile) in
  let f1 :=
    match asked with Some lOffset => (File.seek f0 lOffset).2 | None => f0 end in
  let accepted : bool :=
    match asked with
    | Some lOffset => is_ok (File.seek f0 lOffset).1
    | None => false
    end in
  (forall o, File.read_fault lFile o = None) ->
  (File.size lFile < two64)%N ->
  exists rp tail,
    get E s pUrl lResumeOffset = Replied rp
    /\ emitted rp
       = [MimeType (Node.mMimeType (Repository.node r lNode));
          TotalSize (File.size lFile)]
         ++ (if accepted then [CanResume] else []) ++ tail
    /\ stream_from (if accepted then default 0%N asked else 0%N) tail
    /\ concat (data_chunks tail)
       = drop (N.to_nat (File.mOffset f1)) (File.bytes lFile)
    /\ (accepted = true -> asked = Some (File.mOffset f1))
    /\ failed rp = false
    /\ seeks (calls rp)
       = 0%N :: match asked with Some lOffset => [lOffset] | None => [] end.
Proof.
  intros Hc Hr Hres Hfile lFile f0 asked f1 accepted Hsound Hsz.
  assert (try_resume E f0 lResumeOffset
          = ((if accepted then [CanResume] else []),
             match asked with Some lOffset => [CallSeek lOffset] | None => [] end,
             (if accepted then default 0%N asked else 0%N),
             f1)) as Htry.
  { rewrite try_resume_cases. unfold f0 at 1. rewrite seek_size.
    fold lFile asked. subst accepted f1.
    destruct asked as [lOffset|]; [|reflexivity].
    destruct (is_ok (File.seek f0 lOffset).1); reflexivity. }
  destruct (get_transfer E s pUrl lResumeOffset rest s1 r lNode _ _ _ _
              Hc Hr Hres Hfile Hsound Hsz Htry)
    as (rp & tail & Hget & Hem & Hseeks & Hstream & Hcontent).
  exists rp, tail. split; [exact Hget|]. split; [exact Hem|].
  split; [exact Hstream|]. split; [exact Hcontent|].
  split; [|split].
  - subst accepted f1. destruct asked as [lOffset|]; [|discriminate].
    destruct (seek_cases f0 lOffset) as [[Hs _]|[Hs _]]; rewrite Hs; cbn;
      [reflexivity | discriminate].
  - unfold failed. rewrite Hem, !existsb_app.
    rewrite (stream_from_no_error _ _ Hstream).
    destruct accepted; reflexivity.
  - rewrite Hseeks. destruct asked; reflexivity.
Qed.

(** The store cannot position [worn] at offset 2 and leaves it at offset
    1. *)
Lemma get_reads_on_from_where_the_seeks_left_witness :
  exists rp,
    get World.env initial (World.url "/home/u/b1/docs/worn") "2" = Replied rp
    /\ emitted rp
       = [MimeType "text/plain"; TotalSize 4;
          Data [x62; x63; x64]; ProcessedSize 3;
          Data []; ProcessedSize 3; Finished]
    /\ seeks (calls rp) = [0%N; 2%N].
Proof.
  destruct (get_reads_on_from_where_the_seeks_left World.env initial
              (World.url "/home/u/b1/docs/worn") "2" ["docs"; "worn"]
              (mkSlave ∅ ∅ (Some (Repository.mk 0 "/home/u/b1/" World.b1 [] ∅))
                 None 1)
              (Repository.mk 0 "/home/u/b1/" World.b1 [] ∅) 6%N
              eq_refl eq_refl eq_refl eq_refl (fun _ => eq_refl) eq_refl)
    as (rp & tail & Hget & _ & _ & _ & _ & _ & Hseeks).
  exists rp. split; [exact Hget|]. split; [|exact Hseeks].
  vm_compute in Hget. injection Hget as <-. reflexivity.
Defined.

(** ** How long an open file stays usable *)

Lemma open_file_frame s s' :
  mRepository s' = mRepository s -> mOpenFile s' = mOpenFile s ->
  open_file s' = open_file s.
Proof. intros Hr Ho. unfold open_file, owner_of. rewrite Hr, Ho. reflexivity. Qed.

Lemma open_file_survives_set_file s r p g f :
  open_file s = Some f -> mRepository s = Some r ->
  exists f',
    open_file (set_mRepository s (Some (Repository.set_file r p g))) = Some f'.
Proof.
  unfold open_file, owner_of. intros H Hr. rewrite Hr in H. cbn.
  destruct (mOpenFile s) as [h|]; [|discriminate].
  destruct (Repository.id r =? owner h)%nat; [|discriminate]. eauto.
Qed.

Lemma open_file_survives_reload s r p f :
  open_file s = Some f -> mRepository s = Some r ->
  exists f',
    open_file (set_mRepository s (Some (Repository.reload r p))) = Some f'.
Proof.
  unfold open_file, owner_of. intros H Hr. rewrite Hr in H. cbn.
  destruct (mOpenFile s) as [h|]; [|discriminate].
  destruct (Repository.id r =? owner h)%nat; [|discriminate]. eauto.
Qed.

(** X18: an open file stays usable as long as the session stays inside the
    repository.  Starting with an open file whose repository is the one
    held, every request other than close that names no URL, or names one
    the locator accepts without a change of state, is answered and leaves
    an open file whose repository is the one held. *)
Theorem open_file_stays_live_inside_the_repository (E : Env) (s : BupSlave)
    (q : Request) (f : File.t) :
  open_file s = Some f ->
  q <> ReqClose ->
  (forall pUrl, request_url q = Some pUrl ->
                exists rest, checkCorrectRepository E s pUrl = (true, rest, s)) ->
  exists rp f',
    dispatch E s q = Replied rp /\ open_file (after rp) = Some f'.
Proof.
  intros Hopen Hq Hin.
  destruct (dispatch E s q) as [rp|k] eqn:Hd.
  2:{ exfalso. destruct (dispatch_faults E s q k Hd) as (h & Ho & Hs & _).
      unfold open_file in Hopen. rewrite Ho, Hs in Hopen. discriminate. }
  exists rp.
  enough (exists f', open_file (after rp) = Some f') as [f' Hf']
    by (exists f'; split; [reflexivity | exact Hf']).
  destruct q; cbn [dispatch request_url] in *.
  - congruence.
  - destruct (Hin _ eq_refl) as (rest & Hc).
    unfold get in Hd. rewrite Hc in Hd. handler_cases Hd; eauto.
    eapply open_file_survives_set_file; eauto.
  - destruct (Hin _ eq_refl) as (rest & Hc).
    unfold listDir in Hd. rewrite Hc in Hd. handler_cases Hd; eauto.
    match goal with
    | Hl : list_entries E ?r ?s' ?c ?d = (_, ?s2) |- _ =>
        pose proof (list_entries_frame E r s' c d) as [Hm Hn];
        rewrite Hl in Hm, Hn; cbn [fst snd] in Hm, Hn
    end.
    match goal with
    | Hr : mRepository s = Some ?r0 |- _ =>
        destruct (open_file_survives_reload s r0 n f Hopen Hr) as [f' Hf']
    end.
    exists f'. rewrite <- Hf'. apply open_file_frame; assumption.
  - destruct (Hin _ eq_refl) as (rest & Hc).
    unfold open in Hd.
    destruct (negb _); [injection Hd as <-; eauto|].
    rewrite Hc in Hd. handler_cases Hd; eauto.
    + eapply open_file_survives_set_file; eauto.
    + eexists. unfold open_file, owner_of. cbn. rewrite Nat.eqb_refl.
      reflexivity.
  - destruct (open_file_inv _ _ Hopen) as (h & r & Ho & Hr & ->).
    unfold read in Hd. rewrite Ho, Hr in Hd.
    handler_cases Hd; rewrite (open_file_set_file s h r _ Ho Hr); eauto.
  - destruct (open_file_inv _ _ Hopen) as (h & r & Ho & Hr & ->).
    unfold seek in Hd. rewrite Ho, Hr in Hd.
    handler_cases Hd; rewrite (open_file_set_file s h r _ Ho Hr); eauto.
  - destruct (Hin _ eq_refl) as (rest & Hc).
    unfold stat in Hd. rewrite Hc in Hd. handler_cases Hd; eauto.
    match goal with
    | Hl : createUDSEntry E ?r s ?c ?d = (_, ?s2) |- _ =>
        pose proof (createUDSEntry_frame E r s c d) as [Hm Hn];
        rewrite Hl in Hm, Hn; cbn in Hm, Hn
    end.
    exists f. rewrite <- Hopen. apply open_file_frame; congruence.
  - destruct (Hin _ eq_refl) as (rest & Hc).
    unfold mimetype in Hd. rewrite Hc in Hd. handler_cases Hd; eauto.
Qed.

Lemma open_file_stays_live_inside_the_repository_witness :
  let s :=
    session World.env initial
      [ReqOpen (World.url "/home/u/b1/docs/report.txt") 1] in
  exists rp f',
    get World.env s (World.url "/home/u/b1/docs/worn") "1" = Replied rp
    /\ open_file (after rp) = Some f'.
Proof.
  intros s.
  apply (open_file_stays_live_inside_the_repository World.env s
           (ReqGet (World.url "/home/u/b1/docs/worn") "1")
           (World.plain_file "docs/report.txt" World.report_bytes)).
  - reflexivity.
  - discriminate.
  - intros pUrl [= <-]. exists ["docs"; "worn"]. reflexivity.
Defined.
